(** * pomoradio: the pomodoro timer and its radio player

    A shallow embedding of the two React hooks that make up the core of
    the application:

    - [useAudioPlayer] (the audio engine: two media elements, the fade
      ramps on [setInterval], [playStation], [stop], [stopWithFade], ...);
    - [usePomodoro] (the phase state machine, [tick], [skip], [reset],
      [start], [pause], the display [formatTime] and the retrying station
      search [playRandomStation]);

    and of what they call and what calls them: the client of the
    radio-browser API ([radioApi]), the zoom filter of the globe
    ([RadioGlobe]) and the favourites of the side menu ([SideMenu]).

    Conventions of the model.

    - JavaScript numbers that count things (seconds, sessions, cycles,
      minutes) are integers [Z]; volumes and [Math.random()] draws are
      rationals [Q], so [NaN] and the rounding of doubles are outside the
      model.
    - A React state is the record the hook keeps; [setState (prev => ...)]
      is a function on that record.  A callback created by [useCallback]
      reads some fields from the render it was created in: that snapshot is
      an explicit argument called [view].
    - The browser is explicit: the table of live [setInterval] timers, the
      two [HTMLAudioElement]s (their [src], [volume] and [paused]
      attributes) and the suspended [async] functions are fields of the
      world, and everything the browser may do next (run a timer callback,
      settle a promise, dispatch a media event) is a label of the
      transition function [exec]. *)

From Stdlib Require DecimalString DecimalZ.
From Stdlib Require Import ZArith QArith Qround Qminmax Qabs Lia Lqa Bool List String Ascii.
From stdpp Require Import base option list gmap infinite.
Import ListNotations.

Local Open Scope Z_scope.

(** ** Shared data *)

(** [RadioStation] (src/types/radio): the fields the hooks read. *)
Record RadioStation := mkStation {
  stationuuid : string;
  name : string;
  url : string;
  url_resolved : string;
}.

#[global] Instance RadioStation_eq_dec : EqDecision RadioStation.
Proof. solve_decision. Defined.

(** [station.url_resolved || station.url]: the empty string is falsy. *)
Definition stream_url (s : RadioStation) : string :=
  if String.eqb (url_resolved s) EmptyString then url s else url_resolved s.

(** [AudioPlayerState], the React state of [useAudioPlayer]. *)
Record AudioPlayerState := mkAudioState {
  isPlaying : bool;
  isLoading : bool;
  volume : Q;
  currentStation : option RadioStation;
  error : option string;
  isCrossfading : bool;
}.

(** [PomodoroSettings] and [PomodoroState] (src/types/pomodoro.ts). *)
Record PomodoroSettings := mkSettings {
  workDuration : Z;
  shortBreakDuration : Z;
  longBreakDuration : Z;
  sessionsUntilLongBreak : Z;
  fadeInDuration : Z;
  fadeOutDuration : Z;
}.

Inductive PomodoroPhase := work | shortBreak | longBreak | paused.

#[global] Instance PomodoroPhase_eq_dec : EqDecision PomodoroPhase.
Proof. solve_decision. Defined.

Record PomodoroState := mkPomodoro {
  phase : PomodoroPhase;
  timeRemaining : Z;
  isRunning : bool;
  completedSessions : Z;
  currentCycle : Z;
}.

Definition DEFAULT_SETTINGS : PomodoroSettings :=
  {| workDuration := 25; shortBreakDuration := 5; longBreakDuration := 15;
     sessionsUntilLongBreak := 4; fadeInDuration := 3; fadeOutDuration := 3 |}.

(** [a % b === 0] on integers: [%] is the truncated remainder, and a zero
    divisor gives [NaN], which is not [=== 0]. *)
Definition rem_is_zero (a b : Z) : bool :=
  if b =? 0 then false else Z.rem a b =? 0.

(** [a > b] on rationals. *)
Definition Qgtb (a b : Q) : bool := negb (Qle_bool a b).

(** ** useAudioPlayer

    Line numbers in the comments of this module are those of the hook's
    source file. *)

Module useAudioPlayer.

(** [audioRef.current] and [crossfadeAudioRef.current]. *)
Inductive ElementId := Primary | Transitional.

#[global] Instance ElementId_eq_dec : EqDecision ElementId.
Proof. solve_decision. Defined.

(** The attributes of an [HTMLAudioElement] the hook reads or writes.
    [el_src = None] is an element without a [src] attribute. *)
Record AudioElement := mkElement {
  el_src : option string;
  el_volume : Q;
  el_paused : bool;
}.

(** [new Audio()] followed by [volume = 0]. *)
Definition newAudio : AudioElement :=
  {| el_src := None; el_volume := 0%Q; el_paused := true |}.

(** The two elements a caller hands to [crossfade]: [fromAudio] and
    [toAudio]. *)
Inductive CallerElement := FromAudio | ToAudio.

(** What the hook did: each method call or attribute write on a media
    element (its own two, or the two a caller handed to [crossfade]),
    each interval callback that ran, and two notes ([OLoadStation]:
    [playStation] called [load()] for a station; [OStopped]: [stop] or
    [stopWithFade] cleared the station). *)
Inductive Obs :=
| OSetSrc (e : ElementId) (u : string)
| ORemoveSrc (e : ElementId)
| OSetVolume (e : ElementId) (v : Q)
| OPause (e : ElementId)
| OPlay (e : ElementId)
| OPlaying (e : ElementId)
| OLoad (e : ElementId)
| OLoadStation (e : ElementId) (s : RadioStation)
| OClick (uuid : string)
| OFired (timer : nat)
| OStopped
| OCallerVolume (e : CallerElement) (v : Q)
| OCallerPause (e : CallerElement).

(** An entry of the trace: what was done and the two elements right after
    it. *)
Record Snapshot := mkSnapshot {
  obs : Obs;
  primaryThen : AudioElement;
  transitionalThen : AudioElement;
}.

(** The closure of a [setInterval] callback.  [waiter] is the suspended
    [async] function that awaits the promise of [fadeOut], when there is
    one. *)
Inductive Ramp :=
| FadeInRamp (targetVolume volumeStep : Q)
| FadeOutRamp (startVolume volumeStep : Q) (waiter : option nat)
| CrossfadeRamp (targetVolume fromStartVolume : Q).

Record Interval := mkInterval {
  ramp : Ramp;
  stepTime : Q;
  currentStep : nat;
}.

Definition steps : nat := 50.

(** Where a suspended [playStation] waits: the [await] of the sequential
    branch (lines 225, 234, 256, 262) or of the direct branch (282, 290,
    310). *)
Inductive PlayPoint :=
| SeqClick | SeqLoad | SeqFadeOut | SeqPlay
| DirClick | DirLoad | DirPlay.

(** A suspended [async] function of the hook. *)
Inductive Task :=
| TPlayStation (view : AudioPlayerState) (station : RadioStation) (at_ : PlayPoint)
| TStopWithFade.

Record World := mkWorld {
  mounted : bool;                       (* the two refs hold an element *)
  state : AudioPlayerState;
  audio : AudioElement;                 (* audioRef.current *)
  crossfadeAudio : AudioElement;        (* crossfadeAudioRef.current *)
  fadeIntervalRef : option nat;
  crossfadeIntervalRef : option nat;
  timers : gmap nat Interval;           (* live intervals of the browser *)
  nextTimer : nat;                      (* next handle setInterval returns *)
  tasks : gmap nat Task;                (* suspended async calls *)
  nextTask : nat;
  settled : gmap nat bool;              (* finished calls: resolved / rejected *)
  trace : list Snapshot;                (* newest first *)
}.

Definition initialState : AudioPlayerState :=
  {| isPlaying := false; isLoading := false; volume := 7 # 10;
     currentStation := None; error := None; isCrossfading := false |}.

(** The hook after its first render, before the mount effect has run. *)
Definition init : World :=
  {| mounted := false; state := initialState;
     audio := newAudio; crossfadeAudio := newAudio;
     fadeIntervalRef := None; crossfadeIntervalRef := None;
     timers := ∅; nextTimer := 1; tasks := ∅; nextTask := 0;
     settled := ∅; trace := [] |}.

(** *** Field updates *)

Definition with_mounted (b : bool) (w : World) : World :=
  let 'mkWorld _ st a ca fr cfr t nt tk ntk se tr := w in
  mkWorld b st a ca fr cfr t nt tk ntk se tr.

Definition setState (f : AudioPlayerState -> AudioPlayerState) (w : World) : World :=
  let 'mkWorld m st a ca fr cfr t nt tk ntk se tr := w in
  mkWorld m (f st) a ca fr cfr t nt tk ntk se tr.

Definition element (e : ElementId) (w : World) : AudioElement :=
  match e with Primary => audio w | Transitional => crossfadeAudio w end.

Definition update_element (e : ElementId) (f : AudioElement -> AudioElement)
    (w : World) : World :=
  let 'mkWorld m st a ca fr cfr t nt tk ntk se tr := w in
  match e with
  | Primary => mkWorld m st (f a) ca fr cfr t nt tk ntk se tr
  | Transitional => mkWorld m st a (f ca) fr cfr t nt tk ntk se tr
  end.

Definition with_fadeIntervalRef (r : option nat) (w : World) : World :=
  let 'mkWorld m st a ca _ cfr t nt tk ntk se tr := w in
  mkWorld m st a ca r cfr t nt tk ntk se tr.

Definition with_crossfadeIntervalRef (r : option nat) (w : World) : World :=
  let 'mkWorld m st a ca fr _ t nt tk ntk se tr := w in
  mkWorld m st a ca fr r t nt tk ntk se tr.

Definition update_timers (f : gmap nat Interval -> gmap nat Interval) (w : World)
  : World :=
  let 'mkWorld m st a ca fr cfr t nt tk ntk se tr := w in
  mkWorld m st a ca fr cfr (f t) nt tk ntk se tr.

Definition update_tasks (f : gmap nat Task -> gmap nat Task) (w : World) : World :=
  let 'mkWorld m st a ca fr cfr t nt tk ntk se tr := w in
  mkWorld m st a ca fr cfr t nt (f tk) ntk se tr.

Definition update_settled (f : gmap nat bool -> gmap nat bool) (w : World) : World :=
  let 'mkWorld m st a ca fr cfr t nt tk ntk se tr := w in
  mkWorld m st a ca fr cfr t nt tk ntk (f se) tr.

Definition observe (o : Obs) (w : World) : World :=
  let 'mkWorld m st a ca fr cfr t nt tk ntk se tr := w in
  mkWorld m st a ca fr cfr t nt tk ntk se
    ({| obs := o; primaryThen := a; transitionalThen := ca |} :: tr).

(** *** The media elements *)

Definition el_with_src (s : option string) (el : AudioElement) : AudioElement :=
  let 'mkElement _ v p := el in mkElement s v p.

Definition el_with_volume (v : Q) (el : AudioElement) : AudioElement :=
  let 'mkElement s _ p := el in mkElement s v p.

Definition el_with_paused (p : bool) (el : AudioElement) : AudioElement :=
  let 'mkElement s v _ := el in mkElement s v p.

(** [el.volume = v]. *)
Definition setVolumeOf (e : ElementId) (v : Q) (w : World) : World :=
  observe (OSetVolume e v) (update_element e (el_with_volume v) w).

(** [el.pause()]. *)
Definition pauseOf (e : ElementId) (w : World) : World :=
  observe (OPause e) (update_element e (el_with_paused true) w).

(** [el.play()], up to the promise it returns: the element leaves the
    paused state at once, the promise is settled by the browser later. *)
Definition playOf (e : ElementId) (w : World) : World :=
  observe (OPlay e) (update_element e (el_with_paused false) w).

(** [el.src = u]: the attribute changes and the element's load algorithm
    starts, which leaves the element paused. *)
Definition setSrcOf (e : ElementId) (u : string) (w : World) : World :=
  observe (OSetSrc e u)
    (update_element e (fun el => el_with_paused true (el_with_src (Some u) el)) w).

(** [el.removeAttribute('src')]. *)
Definition removeSrcOf (e : ElementId) (w : World) : World :=
  observe (ORemoveSrc e) (update_element e (el_with_src None) w).

(** [el.load()]. *)
Definition loadOf (e : ElementId) (w : World) : World :=
  observe (OLoad e) (update_element e (el_with_paused true) w).

(** [el.load()] inside the promise [playStation] awaits for [s]. *)
Definition loadStationOf (e : ElementId) (s : RadioStation) (w : World) : World :=
  observe (OLoadStation e s) (update_element e (el_with_paused true) w).

(** *** Intervals *)

(** [setInterval(callback, stepTime)]: a fresh handle. *)
Definition setInterval (iv : Interval) (w : World) : nat * World :=
  let 'mkWorld m st a ca fr cfr t nt tk ntk se tr := w in
  (nt, mkWorld m st a ca fr cfr (<[nt := iv]> t) (S nt) tk ntk se tr).

Definition clearInterval (id : nat) (w : World) : World :=
  update_timers (delete id) w.

Definition clearFadeInterval (w : World) : World :=
  match fadeIntervalRef w with
  | Some id => with_fadeIntervalRef None (clearInterval id w)
  | None => w
  end.

(** *** The ramps *)

(** [fadeIn(duration)]; [view] is the render whose [state.volume] the
    callback closed over. *)
Definition fadeIn (view : AudioPlayerState) (duration : Q) (w : World) : World :=
  if negb (mounted w) then w else
  let w := clearFadeInterval w in
  let targetVolume := volume view in
  let stepTime := (duration * 1000 / 50)%Q in
  let volumeStep := (targetVolume / 50)%Q in
  let w := setVolumeOf Primary 0%Q w in
  let '(id, w) :=
    setInterval {| ramp := FadeInRamp targetVolume volumeStep;
                   stepTime := stepTime; currentStep := 0 |} w in
  with_fadeIntervalRef (Some id) w.

(** [fadeOut(duration)] up to the promise it returns; [waiter] is the
    suspended function awaiting that promise.  Without an element the
    promise is resolved at once and no interval is created. *)
Definition fadeOut (duration : Q) (waiter : option nat) (w : World) : World :=
  if negb (mounted w) then w else
  let w := clearFadeInterval w in
  let startVolume := el_volume (audio w) in
  let stepTime := (duration * 1000 / 50)%Q in
  let volumeStep := (startVolume / 50)%Q in
  let '(id, w) :=
    setInterval {| ramp := FadeOutRamp startVolume volumeStep waiter;
                   stepTime := stepTime; currentStep := 0 |} w in
  with_fadeIntervalRef (Some id) w.

(** [crossfade(fromAudio, toAudio, duration)].  The two elements are the
    caller's (the hook does not hand out its own): what the ramp writes to
    them goes into the trace, and [fromVolume] is what [fromAudio.volume]
    reads when the function is called. *)
Definition crossfade (view : AudioPlayerState) (fromVolume duration : Q) (w : World)
  : World :=
  let w :=
    match crossfadeIntervalRef w with
    | Some id => clearInterval id w
    | None => w
    end in
  let w := setState (fun prev =>
    {| isPlaying := isPlaying prev; isLoading := isLoading prev; volume := volume prev;
       currentStation := currentStation prev; error := error prev;
       isCrossfading := true |}) w in
  let stepTime := (duration * 1000 / 50)%Q in
  let '(id, w) :=
    setInterval {| ramp := CrossfadeRamp (volume view) fromVolume;
                   stepTime := stepTime; currentStep := 0 |} w in
  with_crossfadeIntervalRef (Some id) w.

(** [currentStep++] in the closure of interval [id]. *)
Definition nextStep (id : nat) (iv : Interval) (w : World) : World :=
  update_timers
    (insert id {| ramp := ramp iv; stepTime := stepTime iv;
                  currentStep := S (currentStep iv) |}) w.

(** *** playStation, block by block *)

Definition isCurrentlyPlaying (view : AudioPlayerState) (w : World) : bool :=
  isPlaying view && Qgtb (el_volume (audio w)) 0 && negb (el_paused (audio w)).

(** Lines 228-250: the new station goes into the transitional element. *)
Definition seq_load (station : RadioStation) (w : World) : World :=
  let w := setSrcOf Transitional (stream_url station) w in
  let w := setVolumeOf Transitional 0%Q w in
  let w := setState (fun prev =>
    {| isPlaying := isPlaying prev; isLoading := true; volume := volume prev;
       currentStation := Some station; error := None; isCrossfading := true |}) w in
  loadStationOf Transitional station w.

(** Lines 253-256, up to [await fadeOut(2)]. *)
Definition seq_fadeOut (waiter : option nat) (w : World) : World :=
  let w := setState (fun prev =>
    {| isPlaying := isPlaying prev; isLoading := false; volume := volume prev;
       currentStation := currentStation prev; error := error prev;
       isCrossfading := isCrossfading prev |}) w in
  fadeOut 2 waiter w.

(** Lines 259-262, up to [await audioRef.current.play()].  The [src] getter
    of an element without the attribute is the empty string. *)
Definition seq_switch (w : World) : World :=
  let w := setSrcOf Primary (default EmptyString (el_src (crossfadeAudio w))) w in
  let w := setVolumeOf Primary 0%Q w in
  playOf Primary w.

(** Lines 263-271, after [play()] resolved. *)
Definition seq_finish (view : AudioPlayerState) (w : World) : World :=
  let w := observe (OPlaying Primary) w in
  let w := fadeIn view 2 w in
  let w := pauseOf Transitional w in
  let w := setVolumeOf Transitional 0%Q w in
  let w := removeSrcOf Transitional w in
  let w := loadOf Transitional w in
  setState (fun prev =>
    {| isPlaying := isPlaying prev; isLoading := isLoading prev; volume := volume prev;
       currentStation := currentStation prev; error := error prev;
       isCrossfading := false |}) w.

(** Lines 277-279: stop any existing playback. *)
Definition dir_silence (w : World) : World :=
  let w := clearFadeInterval w in
  let w := pauseOf Primary w in
  setVolumeOf Primary 0%Q w.

(** Lines 285-306: the station goes into the primary element. *)
Definition dir_load (station : RadioStation) (w : World) : World :=
  let w := setSrcOf Primary (stream_url station) w in
  let w := setVolumeOf Primary 0%Q w in
  let w := setState (fun prev =>
    {| isPlaying := isPlaying prev; isLoading := isLoading prev; volume := volume prev;
       currentStation := Some station; error := None;
       isCrossfading := isCrossfading prev |}) w in
  loadStationOf Primary station w.

(** Line 310, up to [await audioRef.current.play()]. *)
Definition dir_play (w : World) : World := playOf Primary w.

(** Line 311, after [play()] resolved. *)
Definition dir_finish (view : AudioPlayerState) (w : World) : World :=
  let w := observe (OPlaying Primary) w in
  fadeIn view 3 w.

(** Lines 313-322: the [catch] block, before it re-throws. *)
Definition play_catch (w : World) : World :=
  setState (fun prev =>
    {| isPlaying := false; isLoading := false; volume := volume prev;
       currentStation := currentStation prev;
       error := Some "Failed to play radio station"%string;
       isCrossfading := false |}) w.

(** *** Suspending and finishing an async call *)

(** Call [tid] stops at an [await]; [task] is how it goes on. *)
Definition suspend (tid : nat) (task : Task) (w : World) : World :=
  update_tasks (insert tid task) w.

(** A new call, with a fresh handle, stopped at its first [await]. *)
Definition take_handle (w : World) : World :=
  let 'mkWorld m st a ca fr cfr t nt tk ntk se tr := w in
  mkWorld m st a ca fr cfr t nt tk (S ntk) se tr.

Definition spawn (task : Task) (w : World) : nat * World :=
  let tid := nextTask w in
  (tid, suspend tid task (take_handle w)).

(** The promise of call [tid] is resolved ([true]) or rejected. *)
Definition finish (tid : nat) (ok : bool) (w : World) : World :=
  update_settled (insert tid ok) (update_tasks (delete tid) w).

(** [playStation(station)] up to its first [await].  The result is the
    handle of the call.  Without the elements the function returns at once
    and its promise is resolved. *)
Definition playStation_call (view : AudioPlayerState) (station : RadioStation)
    (w : World) : nat * World :=
  if negb (mounted w) then
    let '(tid, w) := spawn (TPlayStation view station DirClick) w in
    (tid, finish tid true w)
  else if isCurrentlyPlaying view w then
    let w := observe (OClick (stationuuid station)) w in
    spawn (TPlayStation view station SeqClick) w
  else
    let w := dir_silence w in
    let w := observe (OClick (stationuuid station)) w in
    spawn (TPlayStation view station DirClick) w.

(** The promises a suspended call can wait for, apart from a fade. *)
Inductive Awaited := Click | CanPlay | PlayPromise.

Definition awaits (p : PlayPoint) : option Awaited :=
  match p with
  | SeqClick | DirClick => Some Click
  | SeqLoad | DirLoad => Some CanPlay
  | SeqPlay | DirPlay => Some PlayPromise
  | SeqFadeOut => None
  end.

#[global] Instance Awaited_eq_dec : EqDecision Awaited.
Proof. solve_decision. Defined.

(** What [playStation] does when the promise it waits for at [p] is
    settled with [ok]: the code up to the next [await], or to the end. *)
Definition playStation_resume (tid : nat) (view : AudioPlayerState)
    (station : RadioStation) (p : PlayPoint) (ok : bool) (w : World) : World :=
  if negb ok then finish tid false (play_catch w) else
  match p with
  | SeqClick => suspend tid (TPlayStation view station SeqLoad) (seq_load station w)
  | SeqLoad => suspend tid (TPlayStation view station SeqFadeOut) (seq_fadeOut (Some tid) w)
  | SeqFadeOut => suspend tid (TPlayStation view station SeqPlay) (seq_switch w)
  | SeqPlay => finish tid true (seq_finish view w)
  | DirClick => suspend tid (TPlayStation view station DirLoad) (dir_load station w)
  | DirLoad => suspend tid (TPlayStation view station DirPlay) (dir_play w)
  | DirPlay => finish tid true (dir_finish view w)
  end.

(** *** The other operations *)

(** Lines 336-347 of [stopWithFade], after [await fadeOut(...)]. *)
Definition stopWithFade_finish (w : World) : World :=
  let w := clearFadeInterval w in
  let w := if mounted w then setVolumeOf Primary 0%Q (pauseOf Primary w) else w in
  let w := setState (fun prev =>
    {| isPlaying := false; isLoading := isLoading prev; volume := volume prev;
       currentStation := None; error := None;
       isCrossfading := isCrossfading prev |}) w in
  observe OStopped w.

(** [stopWithFade(fadeDuration)] up to its [await].  The promise of
    [fadeOut] is never rejected and the statements after it do not throw,
    so the [catch] block of the source has no run. *)
Definition stopWithFade_call (fadeDuration : Q) (w : World) : nat * World :=
  if negb (mounted w) then
    let w := setState (fun prev =>
      {| isPlaying := false; isLoading := isLoading prev; volume := volume prev;
         currentStation := None; error := error prev;
         isCrossfading := isCrossfading prev |}) w in
    let '(tid, w) := spawn TStopWithFade (observe OStopped w) in
    (tid, finish tid true w)
  else
    let tid := nextTask w in
    spawn TStopWithFade (fadeOut fadeDuration (Some tid) w).

Definition pause (w : World) : World :=
  if negb (mounted w) then w else
  let w := clearFadeInterval w in
  let w := pauseOf Primary w in
  setState (fun prev =>
    {| isPlaying := false; isLoading := isLoading prev; volume := volume prev;
       currentStation := currentStation prev; error := error prev;
       isCrossfading := isCrossfading prev |}) w.

(** [resume()], up to the promise of [play()]. *)
Definition resume (view : AudioPlayerState) (w : World) : World :=
  if negb (mounted w) || bool_decide (currentStation view = None) then w else
  let w := setVolumeOf Primary (volume view) w in
  playOf Primary w.

(** The [.catch] of [resume]. *)
Definition resume_failed (w : World) : World :=
  setState (fun prev =>
    {| isPlaying := isPlaying prev; isLoading := isLoading prev; volume := volume prev;
       currentStation := currentStation prev;
       error := Some "Failed to resume audio"%string;
       isCrossfading := isCrossfading prev |}) w.

Definition stop (w : World) : World :=
  if negb (mounted w) then w else
  let w := clearFadeInterval w in
  let w := pauseOf Primary w in
  let w := setVolumeOf Primary 0%Q w in
  let w := setState (fun prev =>
    {| isPlaying := false; isLoading := isLoading prev; volume := volume prev;
       currentStation := None; error := error prev;
       isCrossfading := isCrossfading prev |}) w in
  observe OStopped w.

(** [setVolume(volume)] for a [volume] that is a number:
    [Math.max(0, Math.min(1, NaN))] is [NaN], which the rationals do not
    have. *)
Definition setVolume (view : AudioPlayerState) (v : Q) (w : World) : World :=
  let clampedVolume := Qmax 0 (Qmin 1 v) in
  let w := setState (fun prev =>
    {| isPlaying := isPlaying prev; isLoading := isLoading prev;
       volume := clampedVolume;
       currentStation := currentStation prev; error := error prev;
       isCrossfading := isCrossfading prev |}) w in
  if mounted w && isPlaying view && negb (isCrossfading view)
  then setVolumeOf Primary clampedVolume w
  else w.

(** The listeners the mount effect puts on the primary element. *)
Inductive MediaEvent := loadstart | canplaythrough | error_event | play_event | pause_event.

Definition handle (e : MediaEvent) (prev : AudioPlayerState) : AudioPlayerState :=
  match e with
  | loadstart =>
      {| isPlaying := isPlaying prev; isLoading := true; volume := volume prev;
         currentStation := currentStation prev; error := None;
         isCrossfading := isCrossfading prev |}
  | canplaythrough =>
      {| isPlaying := isPlaying prev; isLoading := false; volume := volume prev;
         currentStation := currentStation prev; error := error prev;
         isCrossfading := isCrossfading prev |}
  | error_event =>
      {| isPlaying := false; isLoading := false; volume := volume prev;
         currentStation := currentStation prev;
         error := Some "Failed to load radio stream"%string;
         isCrossfading := isCrossfading prev |}
  | play_event =>
      {| isPlaying := true; isLoading := isLoading prev; volume := volume prev;
         currentStation := currentStation prev; error := error prev;
         isCrossfading := isCrossfading prev |}
  | pause_event =>
      {| isPlaying := false; isLoading := isLoading prev; volume := volume prev;
         currentStation := currentStation prev; error := error prev;
         isCrossfading := isCrossfading prev |}
  end.

(** The effect that creates the two elements. *)
Definition mount (w : World) : World :=
  if mounted w then w else
  with_mounted true
    (update_element Transitional (fun _ => newAudio)
       (update_element Primary (fun _ => newAudio) w)).

(** The cleanup of the second effect (lines 94-103), at unmount: the two
    intervals the refs hold are cleared; the refs and the elements are
    left as they are. *)
Definition unmount (w : World) : World :=
  let w :=
    match fadeIntervalRef w with
    | Some id => clearInterval id w
    | None => w
    end in
  match crossfadeIntervalRef w with
  | Some id => clearInterval id w
  | None => w
  end.

(** *** Interval callbacks *)

(** [resolve()] of the promise of [fadeOut]: the function that awaits it
    runs on, before anything else does. *)
Definition wake (waiter : option nat) (w : World) : World :=
  match waiter with
  | None => w
  | Some tid =>
      match tasks w !! tid with
      | Some (TPlayStation view station SeqFadeOut) =>
          playStation_resume tid view station SeqFadeOut true w
      | Some TStopWithFade => finish tid true (stopWithFade_finish w)
      | _ => w
      end
  end.

(** The browser runs the callback of interval [id], if it is live. *)
Definition fire (id : nat) (w : World) : World :=
  match timers w !! id with
  | None => w
  | Some iv =>
      let w := observe (OFired id) w in
      let k := currentStep iv in
      match ramp iv with
      | FadeInRamp targetVolume volumeStep =>
          if (steps <=? k)%nat then
            setVolumeOf Primary targetVolume (clearFadeInterval w)
          else
            nextStep id iv
              (setVolumeOf Primary
                 (Qmin (volumeStep * inject_Z (Z.of_nat k)) targetVolume) w)
      | FadeOutRamp startVolume volumeStep waiter =>
          if (steps <=? k)%nat then
            let w := clearFadeInterval w in
            let w := setVolumeOf Primary 0%Q w in
            let w := pauseOf Primary w in
            wake waiter w
          else
            nextStep id iv
              (setVolumeOf Primary
                 (Qmax (startVolume - volumeStep * inject_Z (Z.of_nat k)) 0) w)
      | CrossfadeRamp targetVolume fromStartVolume =>
          if (steps <=? k)%nat then
            let w :=
              match crossfadeIntervalRef w with
              | Some id' => clearInterval id' w
              | None => w
              end in
            let w := observe (OCallerVolume FromAudio 0%Q) w in
            let w := observe (OCallerPause FromAudio) w in
            let w := observe (OCallerVolume ToAudio targetVolume) w in
            setState (fun prev =>
              {| isPlaying := isPlaying prev; isLoading := isLoading prev;
                 volume := volume prev; currentStation := currentStation prev;
                 error := error prev; isCrossfading := false |}) w
          else
            let fromVolumeStep := (fromStartVolume / 50)%Q in
            let toVolumeStep := (targetVolume / 50)%Q in
            let w :=
              observe (OCallerVolume FromAudio
                         (Qmax (fromStartVolume - fromVolumeStep * inject_Z (Z.of_nat k))
                            0)) w in
            let w :=
              observe (OCallerVolume ToAudio
                         (Qmin (toVolumeStep * inject_Z (Z.of_nat k)) targetVolume)) w in
            nextStep id iv w
      end
  end.

(** *** The hook as a transition system *)

(** Everything that can happen to the hook: a call of one of the functions
    it returns (with the render the callback was created in), the mount
    effect, and what the browser does on its own. *)
Inductive Label :=
| Mount
| CallPlayStation (view : AudioPlayerState) (station : RadioStation)
| CallStopWithFade (fadeDuration : Q)
| CallPause
| CallResume (view : AudioPlayerState)
| CallStop
| CallSetVolume (view : AudioPlayerState) (v : Q)
| CallFadeIn (view : AudioPlayerState) (duration : Q)
| CallFadeOut (duration : Q)
| CallCrossfade (view : AudioPlayerState) (fromVolume duration : Q)
| Settle (tid : nat) (a : Awaited) (ok : bool)
| Fire (id : nat)
| Media (e : MediaEvent)
| ResumeRejected.

Definition exec (l : Label) (w : World) : World :=
  match l with
  | Mount => mount w
  | CallPlayStation view station => snd (playStation_call view station w)
  | CallStopWithFade d => snd (stopWithFade_call d w)
  | CallPause => pause w
  | CallResume view => resume view w
  | CallStop => stop w
  | CallSetVolume view v => setVolume view v w
  | CallFadeIn view d => fadeIn view d w
  | CallFadeOut d => fadeOut d None w
  | CallCrossfade view fromVolume d => crossfade view fromVolume d w
  | Settle tid a ok =>
      match tasks w !! tid with
      | Some (TPlayStation view station p) =>
          if decide (awaits p = Some a)
          then playStation_resume tid view station p ok w
          else w
      | _ => w
      end
  | Fire id => fire id w
  | Media e => if mounted w then setState (handle e) w else w
  | ResumeRejected => if mounted w then resume_failed w else w
  end.

Definition run (ls : list Label) (w : World) : World :=
  fold_left (fun w l => exec l w) ls w.

Definition reachable (w : World) : Prop := exists ls, w = run ls init.

(** *** Calls that nothing interrupts *)

(** How the browser settles what one [playStation] call waits for. *)
Record Outcomes := mkOutcomes {
  click_ok : bool;     (* radioAPI.registerClick resolved *)
  load_ok : bool;      (* 'canplay' rather than 'error' *)
  play_ok : bool;      (* the promise of play() resolved *)
}.

(** The interval in [fadeIntervalRef] runs once. *)
Definition fire_fade (w : World) : World :=
  match fadeIntervalRef w with
  | Some id => fire id w
  | None => w
  end.

(** The ramp in [fadeIntervalRef] runs to its end: [steps] callbacks that
    move the volume and the one that clears the interval. *)
Definition finish_fade (w : World) : World := Nat.iter (S steps) fire_fade w.

(** While call [tid] waits for a fade-out, the interval runs once. *)
Definition await_step (tid : nat) (w : World) : World :=
  match tasks w !! tid with
  | Some (TPlayStation _ _ SeqFadeOut) | Some TStopWithFade => fire_fade w
  | _ => w
  end.

(** [await fadeOut(...)] of call [tid]: the fade-out runs to its end
    while the call waits for it. *)
Definition await_fade (tid : nat) (w : World) : World :=
  Nat.iter (S steps) (await_step tid) w.

(** [await audio.playStation(station)] with nothing else happening in
    between: the call, then each promise it waits for settled in turn.
    The result is [Some true] when the call resolved, [Some false] when it
    threw, [None] if it were still pending. *)
Definition playStation (net : Outcomes) (view : AudioPlayerState)
    (station : RadioStation) (w : World) : option bool * World :=
  let '(tid, w) := playStation_call view station w in
  let w := exec (Settle tid Click (click_ok net)) w in
  let w := exec (Settle tid CanPlay (load_ok net)) w in
  let w := await_fade tid w in
  let w := exec (Settle tid PlayPromise (play_ok net)) w in
  (settled w !! tid, w).

(** [await audio.stopWithFade(d)] with nothing else happening in between. *)
Definition stopWithFade (fadeDuration : Q) (w : World) : World :=
  let '(tid, w) := stopWithFade_call fadeDuration w in
  await_fade tid w.

(** *** Reading the trace *)

(** The station [playStation] last began to load, unless [stop] or
    [stopWithFade] cleared it since. *)
Fixpoint station_since_stop (t : list Snapshot) : option RadioStation :=
  match t with
  | [] => None
  | x :: t' =>
      match obs x with
      | OLoadStation _ s => Some s
      | OStopped => None
      | _ => station_since_stop t'
      end
  end.

(** How many times the callback of interval [id] ran. *)
Fixpoint fired_count (id : nat) (t : list Snapshot) : nat :=
  match t with
  | [] => 0
  | x :: t' =>
      match obs x with
      | OFired id' => if decide (id' = id) then S (fired_count id t') else fired_count id t'
      | _ => fired_count id t'
      end
  end.

(** An element that can be heard: playing, with a volume above zero. *)
Definition audible (el : AudioElement) : bool :=
  negb (el_paused el) && Qgtb (el_volume el) 0.

(** The stream [u] can be heard at a point of the trace. *)
Definition stream_audible (u : string) (x : Snapshot) : bool :=
  (bool_decide (el_src (primaryThen x) = Some u) && audible (primaryThen x))
  || (bool_decide (el_src (transitionalThen x) = Some u) && audible (transitionalThen x)).

(** A ramp of [fadeIn] or [fadeOut], as opposed to one of [crossfade]. *)
Definition is_fade (iv : Interval) : bool :=
  match ramp iv with
  | CrossfadeRamp _ _ => false
  | _ => true
  end.

(** The intervals of a world are in order: handles are below the next
    one, the only live fade ramp is the one [fadeIntervalRef] holds, and
    there is a ramp only once the elements exist. *)
Definition timers_wf (w : World) : Prop :=
  (forall id iv, timers w !! id = Some iv -> (id < nextTimer w)%nat)
  /\ (forall id iv, timers w !! id = Some iv -> is_fade iv = true ->
        fadeIntervalRef w = Some id)
  /\ (forall id, fadeIntervalRef w = Some id -> mounted w = true).

(** *** Vocabulary of the proofs *)

Definition reachable_from (w w' : World) : Prop := exists ls, w' = run ls w.

(** An element that is paused, at volume 0. *)
Definition silent (el : AudioElement) : Prop :=
  el_paused el = true /\ el_volume el = 0%Q.

(** The transitional element is silent now and was at every point of the
    trace. *)
Definition transitional_silent (w : World) : Prop :=
  silent (crossfadeAudio w) /\ Forall (fun x => silent (transitionalThen x)) (trace w).

(** A cleared interval: not live, its handle already handed out, its
    callback having run [count] times. *)
Definition cancelled (id : nat) (count : nat) (w : World) : Prop :=
  timers w !! id = None
  /\ (id < nextTimer w)%nat
  /\ fired_count id (trace w) = count.

(** The world while the fade-out of a sequential transition runs, [k]
    callbacks in: call [tid] still waits for interval [id], the primary
    element still carries the old stream [src], the transitional element
    [ca] has not been touched, and [tr] is the trace the ramp started
    from. *)
Definition fading_out (tid id : nat) (view : AudioPlayerState) (s : RadioStation)
    (startVolume volumeStep time : Q) (ca : AudioElement) (src : option string)
    (tr : list Snapshot) (k : nat) (x : World) : Prop :=
  mounted x = true
  /\ fadeIntervalRef x = Some id
  /\ timers x !! id
     = Some {| ramp := FadeOutRamp startVolume volumeStep (Some tid);
               stepTime := time; currentStep := k |}
  /\ tasks x !! tid = Some (TPlayStation view s SeqFadeOut)
  /\ crossfadeAudio x = ca
  /\ el_src (audio x) = src
  /\ exists new,
       trace x = new ++ tr
       /\ Forall (fun y => el_src (primaryThen y) = src /\ transitionalThen y = ca) new.

(** The world while a fade-in runs, [k] callbacks in. *)
Definition fading_in (id : nat) (targetVolume volumeStep time : Q)
    (src : option string) (p : bool) (k : nat) (x : World) : Prop :=
  fadeIntervalRef x = Some id
  /\ timers x !! id
     = Some {| ramp := FadeInRamp targetVolume volumeStep;
               stepTime := time; currentStep := k |}
  /\ el_src (audio x) = src
  /\ el_paused (audio x) = p.

(** *** Sample data *)

Definition stationA : RadioStation :=
  {| stationuuid := "a"; name := "Radio A"; url := "http://a.example/stream";
     url_resolved := EmptyString |}.

Definition stationB : RadioStation :=
  {| stationuuid := "b"; name := "Radio B"; url := "http://b.example/stream";
     url_resolved := "http://b.example/resolved" |}.

Definition all_ok : Outcomes := {| click_ok := true; load_ok := true; play_ok := true |}.

(** A run that leaves station A playing at the target volume: the mount
    effect, [setVolume(0.8)], [playStation(A)] going through, its fade-in,
    and the 'play' event. *)
Definition playing_run : list Label :=
  [Mount; CallSetVolume initialState (8 # 10);
   CallPlayStation {| isPlaying := false; isLoading := false; volume := 8 # 10;
                      currentStation := None; error := None;
                      isCrossfading := false |} stationA;
   Settle 0 Click true; Settle 0 CanPlay true; Settle 0 PlayPromise true]
  ++ repeat (Fire 1) (S steps) ++ [Media play_event].

Definition playing_world : World := run playing_run init.

(** From there, [playStation(B)] half way through the fade-out of its
    sequential transition: 26 callbacks of the ramp have run, the primary
    element is at volume 0.4 and [isCrossfading] is set. *)
Definition mid_fade_run : list Label :=
  playing_run
  ++ [CallPlayStation (state playing_world) stationB;
      Settle 1 Click true; Settle 1 CanPlay true]
  ++ repeat (Fire 2) 26.

Definition mid_fade_world : World := run mid_fade_run init.

(** A fade-out on a silent player: [stopWithFade(1)] with nothing playing. *)
Definition idle_fade_run : list Label := [Mount; CallStopWithFade 1].

Definition idle_fade_world : World := run idle_fade_run init.

(** *** More vocabulary of the proofs *)

(** The render a callback was created in, for the labels that carry
    one. *)
Definition view_of (l : Label) : option AudioPlayerState :=
  match l with
  | CallPlayStation view _ | CallResume view | CallSetVolume view _
  | CallFadeIn view _ | CallCrossfade view _ _ => Some view
  | _ => None
  end.

(** A run in which every callback comes from a render of the run: its
    view is the state the hook had at some earlier point. *)
Fixpoint rendered (ls : list Label) (w : World) (renders : list AudioPlayerState)
  : Prop :=
  match ls with
  | [] => True
  | l :: ls' =>
      (forall view, view_of l = Some view -> view ∈ renders)
      /\ rendered ls' (exec l w) (state (exec l w) :: renders)
  end.

(** A volume an [HTMLMediaElement] accepts. *)
Definition in_unit (q : Q) : Prop := (0 <= q)%Q /\ (q <= 1)%Q.

(** What [crossfade] reads from [fromAudio.volume] is the volume of a
    media element. *)
Definition from_element (l : Label) : Prop :=
  match l with
  | CallCrossfade _ fromVolume _ => in_unit fromVolume
  | _ => True
  end.

(** A ramp whose volumes stay in range. *)
Definition ramp_ok (iv : Interval) : Prop :=
  match ramp iv with
  | FadeInRamp targetVolume volumeStep => in_unit targetVolume /\ (0 <= volumeStep)%Q
  | FadeOutRamp startVolume volumeStep _ => in_unit startVolume /\ (0 <= volumeStep)%Q
  | CrossfadeRamp targetVolume fromStartVolume =>
      in_unit targetVolume /\ in_unit fromStartVolume
  end.

Definition task_ok (t : Task) : Prop :=
  match t with
  | TPlayStation view _ _ => in_unit (volume view)
  | TStopWithFade => True
  end.

(** What was written to a [volume] attribute is in range. *)
Definition write_ok (x : Snapshot) : Prop :=
  match obs x with
  | OSetVolume _ v | OCallerVolume _ v => in_unit v
  | _ => True
  end.

Definition volumes_ok (w : World) : Prop :=
  in_unit (volume (state w))
  /\ in_unit (el_volume (audio w))
  /\ in_unit (el_volume (crossfadeAudio w))
  /\ (forall id iv, timers w !! id = Some iv -> ramp_ok iv)
  /\ (forall tid t, tasks w !! tid = Some t -> task_ok t)
  /\ Forall write_ok (trace w).

(** A ramp of [crossfade] that is live is the one [crossfadeIntervalRef]
    holds. *)
Definition crossfade_wf (w : World) : Prop :=
  forall id iv, timers w !! id = Some iv -> is_fade iv = false ->
    crossfadeIntervalRef w = Some id.

(** The call the last callback of a ramp wakes. *)
Definition waiter_of (iv : Interval) : option nat :=
  match ramp iv with
  | FadeOutRamp _ _ waiter => waiter
  | _ => None
  end.

(** A call suspended at [await fadeOut(...)]. *)
Definition waits_for_fade (t : Task) : Prop :=
  match t with
  | TPlayStation _ _ SeqFadeOut | TStopWithFade => True
  | _ => False
  end.

(** Call [tid] is suspended and no live ramp will wake it. *)
Definition stranded (tid : nat) (t : Task) (w : World) : Prop :=
  tasks w !! tid = Some t
  /\ settled w !! tid = None
  /\ (tid < nextTask w)%nat
  /\ forall id iv, timers w !! id = Some iv -> waiter_of iv <> Some tid.

(** Handles of calls are handed out in order, and a call is suspended or
    settled, not both. *)
Definition tasks_wf (w : World) : Prop :=
  (forall tid t, tasks w !! tid = Some t ->
     (tid < nextTask w)%nat /\ settled w !! tid = None)
  /\ (forall tid r, settled w !! tid = Some r -> (tid < nextTask w)%nat).

(** The world while the fade-out of [stopWithFade] runs, [k] callbacks
    in: call [tid] waits for interval [id], and the primary element still
    has the source [src]. *)
Definition stopping (tid id : nat) (startVolume volumeStep time : Q)
    (src : option string) (k : nat) (x : World) : Prop :=
  mounted x = true
  /\ el_src (audio x) = src
  /\ fadeIntervalRef x = Some id
  /\ timers x !! id
     = Some {| ramp := FadeOutRamp startVolume volumeStep (Some tid);
               stepTime := time; currentStep := k |}
  /\ tasks x !! tid = Some TStopWithFade.

(** *** More sample data *)

(** The slider pushed past its end, then a station started and the first
    callbacks of its fade-in. *)
Definition loud_run : list Label :=
  [Mount; CallSetVolume initialState (3 # 2);
   CallPlayStation (state (run [Mount; CallSetVolume initialState (3 # 2)] init)) stationA;
   Settle 0 Click true; Settle 0 CanPlay true; Settle 0 PlayPromise true;
   Fire 1; Fire 1; Fire 1].

(** A crossfade between two elements of the caller, from volume 0.9 to
    the target volume of the first render: the first callbacks of its
    ramp. *)
Definition crossfade_run : list Label :=
  [Mount; CallCrossfade initialState (9 # 10) 4; Fire 1; Fire 1; Fire 1].

(** A station started with the 'play' event never dispatched. *)
Definition silent_events_run : list Label :=
  [Mount; CallPlayStation initialState stationA; Settle 0 Click true;
   Settle 0 CanPlay true; Settle 0 PlayPromise true; Fire 1; Fire 1].

End useAudioPlayer.

(** ** usePomodoro *)

Module usePomodoro.

Section Hook.

Variable fullSettings : PomodoroSettings.

Definition initialState : PomodoroState :=
  {| phase := work;
     timeRemaining := workDuration fullSettings * 60;
     isRunning := false;
     completedSessions := 0;
     currentCycle := 1 |}.

Definition getNextPhase (currentPhase : PomodoroPhase) (completedSessions : Z)
  : PomodoroPhase :=
  match currentPhase with
  | work =>
      let isLongBreak :=
        rem_is_zero (completedSessions + 1) (sessionsUntilLongBreak fullSettings) in
      if isLongBreak then longBreak else shortBreak
  | _ => work
  end.

Definition getDurationForPhase (p : PomodoroPhase) : Z :=
  match p with
  | work => workDuration fullSettings * 60
  | shortBreak => shortBreakDuration fullSettings * 60
  | longBreak => longBreakDuration fullSettings * 60
  | _ => workDuration fullSettings * 60
  end.

(** What the state updaters of [tick] and [skip] start on the side.  None
    of them is awaited: [playRandomStation().catch(console.error)],
    [audio.stopWithFade(d).catch(console.error)], [audio.stop()]. *)
Inductive Effect :=
| SearchStation
| StopWithFade (seconds : Z)
| ForceStop.

#[global] Instance Effect_eq_dec : EqDecision Effect.
Proof. solve_decision. Defined.

(** [audio.isPlaying || audio.currentStation], read from the snapshot of
    the audio state the callback closed over. *)
Definition audio_active (view : AudioPlayerState) : bool :=
  isPlaying view || bool_decide (currentStation view <> None).

(** The side effect [tick] fires three seconds before the phase ends. *)
Definition preTransition (p : PomodoroPhase) : Effect :=
  if decide (p = work) then SearchStation else StopWithFade 3.

(** The updater inside [tick]: the new state and the side effects it
    fired, in program order. *)
Definition tick (view : AudioPlayerState) (prev : PomodoroState)
  : PomodoroState * list Effect :=
  let newTimeRemaining := timeRemaining prev - 1 in
  let early :=
    if newTimeRemaining =? 3 then [preTransition (phase prev)] else [] in
  if newTimeRemaining <=? 0 then
    let nextPhase := getNextPhase (phase prev) (completedSessions prev) in
    let nextDuration := getDurationForPhase nextPhase in
    if decide (phase prev = work) then
      ({| phase := nextPhase;
          timeRemaining := nextDuration;
          isRunning := isRunning prev;
          completedSessions := completedSessions prev + 1;
          currentCycle := currentCycle prev |},
       early)
    else
      ({| phase := nextPhase;
          timeRemaining := nextDuration;
          isRunning := isRunning prev;
          completedSessions := completedSessions prev;
          currentCycle :=
            if decide (nextPhase = work) then currentCycle prev + 1
            else currentCycle prev |},
       early ++ (if audio_active view then [ForceStop] else []))
  else
    ({| phase := phase prev;
        timeRemaining := newTimeRemaining;
        isRunning := isRunning prev;
        completedSessions := completedSessions prev;
        currentCycle := currentCycle prev |},
     early).

(** The updater inside [skip]. *)
Definition skip (prev : PomodoroState) : PomodoroState * list Effect :=
  let nextPhase := getNextPhase (phase prev) (completedSessions prev) in
  let nextDuration := getDurationForPhase nextPhase in
  let now :=
    if decide (nextPhase <> work) then [SearchStation] else [StopWithFade 1] in
  if decide (phase prev = work) then
    ({| phase := nextPhase;
        timeRemaining := nextDuration;
        isRunning := isRunning prev;
        completedSessions := completedSessions prev + 1;
        currentCycle := currentCycle prev |},
     now)
  else
    ({| phase := nextPhase;
        timeRemaining := nextDuration;
        isRunning := isRunning prev;
        completedSessions := completedSessions prev;
        currentCycle :=
          if decide (nextPhase = work) then currentCycle prev + 1
          else currentCycle prev |},
     now).

(** One record per interval callback: the state the updater saw, the
    state it returned and what it fired. *)
Record TickRecord := mkTick {
  before : PomodoroState;
  after : PomodoroState;
  fired : list Effect;
}.

(** The interval calling [tick] once per second; [views] gives, for each
    call, the audio snapshot its closure holds.  The list of records is in
    the order of the calls. *)
Fixpoint ticks (views : list AudioPlayerState) (s : PomodoroState)
  : list TickRecord :=
  match views with
  | [] => []
  | v :: views' =>
      let '(s', fx) := tick v s in
      {| before := s; after := s'; fired := fx |} :: ticks views' s'
  end.

(** A tick started a station search or a three-second fade-out. *)
Definition firedEarly (r : TickRecord) : bool :=
  bool_decide (SearchStation ∈ fired r) || bool_decide (StopWithFade 3 ∈ fired r).

(** The hook with what it owns: its state, the handle of the tick
    interval and the audio player. *)
Record Pomodoro := mkHook {
  pstate : PomodoroState;
  timerRef : option nat;
  player : useAudioPlayer.World;
}.

(** [reset()]; [view] is the audio state of the render [reset] was
    created in. *)
Definition reset (view : AudioPlayerState) (h : Pomodoro) : Pomodoro :=
  {| timerRef := None;
     player :=
       if audio_active view then useAudioPlayer.stop (player h) else player h;
     pstate := initialState |}.

End Hook.

(** *** playRandomStation *)

(** What a round of [playRandomStation] did, newest first. *)
Inductive Event :=
| Tried (station : RadioStation) (ok : bool)   (* await audio.playStation *)
| Selected (station : RadioStation)            (* onStationSelected(station) *)
| Waited.                                      (* the one-second pause *)

#[global] Instance Event_eq_dec : EqDecision Event.
Proof. solve_decision. Defined.

(** How a round ends: the early return on an empty catalog, the return
    after a station played, the [console.error] after the loop, a promise
    of [playStation] that never settles, a [TypeError] on an index outside
    the pool, and the fuel of the model running out. *)
Inductive Outcome :=
| NoStations
| Played (station : RadioStation)
| AllFailed
| Stalled
| Crashed
| OutOfFuel.

#[global] Instance Outcome_eq_dec : EqDecision Outcome.
Proof. solve_decision. Defined.

Definition maxRetries : nat := 5.

Section PlayRandomStation.

(** The world [audio.playStation] and the callback act on. *)
Context {W : Type}.

(** [await audio.playStation(station)]: resolved, rejected, or never
    settled. *)
Variable audio_playStation : RadioStation -> W -> option bool * W.
Variable onStationSelected : option (RadioStation -> W -> W).
(** The [k]-th value [Math.random()] returns in the round. *)
Variable random : nat -> Q.
(** What happens to the world during the one-second pause. *)
Variable sleep : W -> W.

(** JavaScript arrays live in a heap: [stationsRef.current] and
    [availableStations] are addresses. *)
Record Round := mkRound {
  arrays : gmap nat (list RadioStation);
  world : W;
  log : list Event;
}.

Definition array_at (a : nat) (r : Round) : list RadioStation :=
  default [] (arrays r !! a).

(** [Math.floor(Math.random() * n)]. *)
Definition randomIndexOf (k : nat) (n : nat) : nat :=
  Z.to_nat (Qfloor (random k * inject_Z (Z.of_nat n))).

(** The [while] loop; [fuel] bounds the iterations of the model. *)
Fixpoint retry (fuel : nat) (attempts : nat) (availableStations : nat) (r : Round)
  : Outcome * Round :=
  match fuel with
  | O => (OutOfFuel, r)
  | S fuel' =>
      let pool := array_at availableStations r in
      if (attempts <? maxRetries)%nat && (0 <? length pool)%nat then
        let randomIndex := randomIndexOf attempts (length pool) in
        match pool !! randomIndex with
        | None => (Crashed, r)
        | Some station =>
            match audio_playStation station (world r) with
            | (None, w) =>
                (Stalled, {| arrays := arrays r; world := w; log := log r |})
            | (Some true, w) =>
                match onStationSelected with
                | Some callback =>
                    (Played station,
                     {| arrays := arrays r; world := callback station w;
                        log := Selected station :: Tried station true :: log r |})
                | None =>
                    (Played station,
                     {| arrays := arrays r; world := w;
                        log := Tried station true :: log r |})
                end
            | (Some false, w) =>
                let pool' := delete randomIndex pool in
                let attempts' := S attempts in
                let wait := (attempts' <? maxRetries)%nat && (0 <? length pool')%nat in
                retry fuel' attempts' availableStations
                  {| arrays := <[availableStations := pool']> (arrays r);
                     world := if wait then sleep w else w;
                     log := (if wait then [Waited] else [])
                              ++ Tried station false :: log r |}
            end
        end
      else (AllFailed, r)
  end.

(** [playRandomStation()]; the second component of the result is the
    address of [availableStations], when the round got that far. *)
Definition playRandomStation (stationsRef : nat) (r : Round)
  : Outcome * option nat * Round :=
  if (length (array_at stationsRef r) =? 0)%nat then (NoStations, None, r)
  else
    let availableStations := fresh (dom (arrays r)) in
    let r := {| arrays := <[availableStations := array_at stationsRef r]> (arrays r);
                world := world r; log := log r |} in
    let '(o, r) := retry (S maxRetries) 0 availableStations r in
    (o, Some availableStations, r).

(** The calls of [audio.playStation] of a round, oldest first. *)
Definition tried (l : list Event) : list RadioStation :=
  rev (omap (fun e => match e with Tried s _ => Some s | _ => None end) l).

(** The stations handed to [onStationSelected]. *)
Definition selected (l : list Event) : list RadioStation :=
  rev (omap (fun e => match e with Selected s => Some s | _ => None end) l).

End PlayRandomStation.

(** The round on the audio player of this repository.  Next to the world
    goes the number of [playStation] calls made so far; [answers k] is how
    the browser settles what the [k]-th call waits for, [None] when it
    never does. *)
Definition Player : Type := useAudioPlayer.World * nat.

Definition audio_playStation (answers : nat -> option useAudioPlayer.Outcomes)
    (view : AudioPlayerState) (station : RadioStation) (p : Player)
  : option bool * Player :=
  match answers (snd p) with
  | Some net =>
      let '(res, w) := useAudioPlayer.playStation net view station (fst p) in
      (res, (w, S (snd p)))
  | None =>
      (None, (snd (useAudioPlayer.playStation_call view station (fst p)), S (snd p)))
  end.


(** A call that throws: one of the three promises is rejected. *)
Definition fails (net : useAudioPlayer.Outcomes) : bool :=
  negb (useAudioPlayer.click_ok net && useAudioPlayer.load_ok net
        && useAudioPlayer.play_ok net).

(** What goes on during the one-second pause: any steps of the audio
    hook. *)
Definition idle (ls : list useAudioPlayer.Label) (p : Player) : Player :=
  (useAudioPlayer.run ls (fst p), snd p).

(** Playback of [s] has started: the primary element has its stream and
    is not paused, and the promise of [play()] resolved on that stream. *)
Definition playing (s : RadioStation) (w : useAudioPlayer.World) : Prop :=
  useAudioPlayer.el_src (useAudioPlayer.audio w) = Some (stream_url s)
  /\ useAudioPlayer.el_paused (useAudioPlayer.audio w) = false
  /\ exists x,
       x ∈ useAudioPlayer.trace w
       /\ useAudioPlayer.obs x = useAudioPlayer.OPlaying useAudioPlayer.Primary
       /\ useAudioPlayer.el_src (useAudioPlayer.primaryThen x) = Some (stream_url s).

(** *** Sample data *)

(** A catalog of seven stations at address 0 of the heap, on a mounted,
    silent player. *)
Definition sample_catalog : list RadioStation :=
  map (fun n => {| stationuuid := n; name := n; url := "http://" ++ n;
                   url_resolved := EmptyString |})
      ["s0"; "s1"; "s2"; "s3"; "s4"; "s5"; "s6"]%string.

Definition sample_round : Round (W:=Player) :=
  {| arrays := {[ 0%nat := sample_catalog ]};
     world := (useAudioPlayer.mount useAudioPlayer.init, 0%nat);
     log := [] |}.

(** Every stream fails to load. *)
Definition no_stream (k : nat) : option useAudioPlayer.Outcomes :=
  Some {| useAudioPlayer.click_ok := true; useAudioPlayer.load_ok := false;
          useAudioPlayer.play_ok := true |}.

(** The first two streams fail to load, the third plays. *)
Definition third_plays (k : nat) : option useAudioPlayer.Outcomes :=
  if (k <? 2)%nat then no_stream k else Some useAudioPlayer.all_ok.

(** [Math.random()] returning 0.5, 0.25, 0.75, 0.5, ... *)
Definition sample_random (k : nat) : Q :=
  match (k mod 3)%nat with
  | O => 1 # 2
  | S O => 1 # 4
  | _ => 3 # 4
  end.




(** The round came back to its caller: the early [return] on an empty
    catalog, the [return] after a station played, or the end of the
    function after the loop. *)
Definition returned (o : Outcome) : Prop :=
  o = NoStations \/ o = AllFailed \/ exists s, o = Played s.

(** *** Vocabulary of the proofs *)

Definition isBreak (p : PomodoroPhase) : Prop := p = shortBreak \/ p = longBreak.

(** The state [k] seconds into a phase. *)
Definition countdown (s : PomodoroState) (k : nat) : PomodoroState :=
  {| phase := phase s; timeRemaining := timeRemaining s - Z.of_nat k;
     isRunning := isRunning s; completedSessions := completedSessions s;
     currentCycle := currentCycle s |}.

(** The player has its elements; the station plays on it. *)
Definition ready (p : Player) : Prop := useAudioPlayer.mounted (fst p) = true.

Definition started (s : RadioStation) (p : Player) : Prop := playing s (fst p).

(** *** The timer: start, pause, reset, skip and the ticks *)

(** The hook between two events: its React state, [timerRef.current],
    the live [setInterval(tick, 1000)] timers, the next handle
    [setInterval] returns, and the side effects issued so far, newest
    first.  An interval keeps calling the [tick] it was created with, and
    that [tick] closed over the [audio] object of its render: the table
    holds that audio snapshot for each live interval. *)
Record Clock := mkClock {
  current : PomodoroState;
  timer : option nat;
  intervals : gmap nat AudioPlayerState;
  nextHandle : nat;
  issued : list Effect;
}.

(** The hook after its first render. *)
Definition boot (st : PomodoroSettings) : Clock :=
  {| current := initialState st; timer := None; intervals := ∅; nextHandle := 1;
     issued := [] |}.

(** [if (timerRef.current) { clearInterval(timerRef.current); ... }]: the
    live intervals after it. *)
Definition clearTimer (c : Clock) : gmap nat AudioPlayerState :=
  match timer c with
  | Some id => delete id (intervals c)
  | None => intervals c
  end.

(** [start()]; [render] and [audio] are the pomodoro state and the audio
    state of the render the callback was created in. *)
Definition start (render : PomodoroState) (audio : AudioPlayerState) (c : Clock)
  : Clock :=
  if isRunning render then c else
  let fx :=
    if bool_decide (phase render = work) && audio_active audio
    then [StopWithFade 2] else [] in
  {| current := {| phase := phase (current c);
                   timeRemaining := timeRemaining (current c);
                   isRunning := true;
                   completedSessions := completedSessions (current c);
                   currentCycle := currentCycle (current c) |};
     timer := Some (nextHandle c);
     intervals := <[nextHandle c := audio]> (intervals c);
     nextHandle := S (nextHandle c);
     issued := fx ++ issued c |}.

(** [pause()]. *)
Definition pause (render : PomodoroState) (c : Clock) : Clock :=
  if negb (isRunning render) then c else
  {| current := {| phase := phase (current c);
                   timeRemaining := timeRemaining (current c);
                   isRunning := false;
                   completedSessions := completedSessions (current c);
                   currentCycle := currentCycle (current c) |};
     timer := None;
     intervals := clearTimer c;
     nextHandle := nextHandle c;
     issued := issued c |}.

(** What can happen to the timer: a call of one of the functions the hook
    returns, with the render it was created in, or the browser running
    the callback of interval [id]. *)
Inductive Call :=
| Start (render : PomodoroState) (audio : AudioPlayerState)
| Pause (render : PomodoroState)
| Reset (audio : AudioPlayerState)
| Skip
| Tick (id : nat).

(** One event.  [Reset] is [reset] (lines 203-223) with [audio.stop()]
    recorded as an effect; [Skip] and [Tick] run the updaters [skip] and
    [tick], the latter with the audio snapshot of the interval. *)
Definition dispatch (st : PomodoroSettings) (e : Call) (c : Clock) : Clock :=
  match e with
  | Start render audio => start render audio c
  | Pause render => pause render c
  | Reset audio =>
      {| current := initialState st;
         timer := None;
         intervals := clearTimer c;
         nextHandle := nextHandle c;
         issued := (if audio_active audio then [ForceStop] else []) ++ issued c |}
  | Skip =>
      let '(s, fx) := skip st (current c) in
      {| current := s; timer := timer c; intervals := intervals c;
         nextHandle := nextHandle c; issued := rev fx ++ issued c |}
  | Tick id =>
      match intervals c !! id with
      | None => c
      | Some audio =>
          let '(s, fx) := tick st audio (current c) in
          {| current := s; timer := timer c; intervals := intervals c;
             nextHandle := nextHandle c; issued := rev fx ++ issued c |}
      end
  end.

Definition session (st : PomodoroSettings) (es : list Call) (c : Clock) : Clock :=
  fold_left (fun c e => dispatch st e c) es c.

(** The render a call was created in is the latest one. *)
Definition latest (e : Call) (c : Clock) : Prop :=
  match e with
  | Start render _ | Pause render => render = current c
  | _ => True
  end.

(** A session in which every call comes from the latest render. *)
Fixpoint in_sync (st : PomodoroSettings) (es : list Call) (c : Clock) : Prop :=
  match es with
  | [] => True
  | e :: es' => latest e c /\ in_sync st es' (dispatch st e c)
  end.

(** *** formatTime *)

(** [n.toString()] for an integer. *)
Definition toString (n : Z) : string :=
  DecimalString.NilZero.string_of_int (Z.to_int n).

(** [s.padStart(targetLength, padString)] for a one-character
    [padString]. *)
Definition padStart (targetLength : nat) (padString : ascii) (s : string) : string :=
  (string_of_list_ascii (repeat padString (targetLength - String.length s)) ++ s)%string.

(** [Math.floor(seconds / 60)] is the quotient rounded down, [seconds % 60]
    the truncated remainder. *)
Definition formatTime (seconds : Z) : string :=
  let mins := seconds / 60 in
  let secs := Z.rem seconds 60 in
  (padStart 2 "0" (toString mins) ++ ":" ++ padStart 2 "0" (toString secs))%string.

(** *** More sample data *)

(** A session: start, the work phase skipped, the five minutes of the
    short break, then five more skips. *)
Definition sample_session : list Call :=
  Start (initialState DEFAULT_SETTINGS) useAudioPlayer.initialState
  :: Skip :: repeat (Tick 1) 300 ++ [Skip; Skip; Skip; Skip; Skip].

(** Start, pause and start again, each from the latest render. *)
Definition start_pause_start : list Call :=
  let s0 := initialState DEFAULT_SETTINGS in
  let running :=
    {| phase := work; timeRemaining := 1500; isRunning := true;
       completedSessions := 0; currentCycle := 1 |} in
  [Start s0 useAudioPlayer.initialState; Pause running;
   Start s0 useAudioPlayer.initialState].

(** After a start with the radio off: the work phase skipped, then all
    but the last second of the short break. *)
Definition quiet_break : list Call := Skip :: repeat (Tick 1) 299.

(** *** More vocabulary of the proofs *)

(** The character of a decimal digit. *)
Definition digit (n : Z) : ascii := ascii_of_nat (48 + Z.to_nat n).

(** [MM:SS], digit by digit. *)
Definition clock_digits (seconds : Z) : string :=
  String (digit (seconds / 600))
    (String (digit ((seconds / 60) mod 10))
       (String ":"
          (String (digit ((seconds mod 60) / 10))
             (String (digit (seconds mod 10)) EmptyString)))).

(** The counters agree with the phase. *)
Definition counters_ok (st : PomodoroSettings) (s : PomodoroState) : Prop :=
  phase s <> paused
  /\ 0 <= completedSessions s
  /\ (phase s = work -> currentCycle s = completedSessions s + 1)
  /\ (phase s <> work ->
        currentCycle s = completedSessions s
        /\ 0 < completedSessions s
        /\ (phase s = longBreak
            <-> rem_is_zero (completedSessions s) (sessionsUntilLongBreak st) = true)).

Definition time_ok (st : PomodoroSettings) (s : PomodoroState) : Prop :=
  1 <= timeRemaining s <= getDurationForPhase st (phase s).

(** The interval [timerRef] holds is the only live one, and there is one
    exactly while the timer runs. *)
Definition synced (c : Clock) : Prop :=
  (isRunning (current c) = true <-> is_Some (timer c))
  /\ (forall id, is_Some (intervals c !! id) <-> timer c = Some id).

(** Interval [id], if it is still live, holds the snapshot [audio]. *)
Definition closure_ok (id : nat) (audio : AudioPlayerState) (c : Clock) : Prop :=
  (id < nextHandle c)%nat
  /\ (intervals c !! id = None \/ intervals c !! id = Some audio).

End usePomodoro.

(** ** radioApi

    The client of the radio-browser API (src/lib/radioApi.ts): the list of
    servers, the current one, and [makeRequest], which goes round the
    servers until one answers. *)

Module radioApi.

Record RadioServer := mkServer {
  name : string;
  url : string;
}.

(** [currentServerIndex]: a number, [NaN] after [% 0]. *)
Inductive Index := At (i : nat) | NaN.

(** What [makeRequest] can throw. *)
Inductive Error :=
| NoServers                           (* 'No servers available. Call discoverServers() first.' *)
| TypeError                           (* [.url] of [undefined] *)
| FetchFailed (message : string)      (* the promise of [fetch] rejected *)
| Http (status : nat) (statusText : string)
| SyntaxError                         (* the promise of [response.json()] rejected *)
| AllServersFailed.                   (* 'All servers failed' *)

(** What [fetch] is called with: the URL, in its parts. *)
Record Request := mkRequest {
  server : string;
  path : string;
  searchParams : list (string * string);
}.

(** The instance: its two fields, and the requests it sent, newest
    first. *)
Record RadioAPI := mkAPI {
  servers : list RadioServer;
  currentServerIndex : Index;
  sent : list Request;
}.

Definition knownServers : list string :=
  ["de1.api.radio-browser.info"; "fi1.api.radio-browser.info";
   "at1.api.radio-browser.info"; "nl1.api.radio-browser.info";
   "de2.api.radio-browser.info"]%string.

(** [new RadioAPI()]. *)
Definition create : RadioAPI :=
  {| servers := []; currentServerIndex := At 0; sent := [] |}.

(** [discoverServers()]; [shuffle] is what [sort(() => Math.random() - 0.5)]
    does to the copy of the list. *)
Definition discoverServers (shuffle : list string -> list string) (api : RadioAPI)
  : RadioAPI :=
  let shuffledServers := shuffle knownServers in
  {| servers := map (fun s => {| name := s; url := "https://" ++ s |}) shuffledServers;
     currentServerIndex := currentServerIndex api;
     sent := sent api |}.

Definition getCurrentServer (api : RadioAPI) : Error + string :=
  if (length (servers api) =? 0)%nat then inl NoServers
  else
    match currentServerIndex api with
    | At i =>
        match servers api !! i with
        | Some s => inr (url s)
        | None => inl TypeError
        end
    | NaN => inl TypeError
    end.

Definition rotateServer (api : RadioAPI) : RadioAPI :=
  {| servers := servers api;
     currentServerIndex :=
       match currentServerIndex api with
       | At i =>
           if (length (servers api) =? 0)%nat then NaN
           else At ((i + 1) mod length (servers api))%nat
       | NaN => NaN
       end;
     sent := sent api |}.

(** The URL [makeRequest] builds for a server.  A parameter whose value is
    [undefined] or [null] is [None] and is left out. *)
Definition requestTo (s : string) (endpoint : string)
    (params : list (string * option string)) : Request :=
  {| server := s; path := ("/json" ++ endpoint)%string;
     searchParams := omap (fun kv => pair (fst kv) <$> snd kv) params |}.

Section Data.

(** The type of the JSON document an endpoint returns. *)
Context {T : Type}.

(** What the network answers: [fetch] rejects, or there is a response,
    whose [json()] gives a document or rejects. *)
Inductive Response :=
| Unreachable (message : string)
| Answer (ok : bool) (status : nat) (statusText : string) (json : option T).

(** Lines 75-86: from the response to the value returned or the error
    thrown. *)
Definition settle (r : Response) : Error + T :=
  match r with
  | Unreachable m => inl (FetchFailed m)
  | Answer ok status statusText json =>
      if negb ok then inl (Http status statusText)
      else match json with
           | Some data => inr data
           | None => inl SyntaxError
           end
  end.

(** The network: the answer to the [k]-th request the instance sends. *)
Variable fetch : nat -> Request -> Response.

(** The [try] block of [makeRequest]: one request to the current
    server. *)
Definition attempt (endpoint : string) (params : list (string * option string))
    (api : RadioAPI) : (Error + T) * RadioAPI :=
  match getCurrentServer api with
  | inl e => (inl e, api)
  | inr s =>
      let request := requestTo s endpoint params in
      (settle (fetch (length (sent api)) request),
       {| servers := servers api; currentServerIndex := currentServerIndex api;
          sent := request :: sent api |})
  end.

(** The [for] loop of [makeRequest], [remaining] iterations to go.  The
    [catch] block calls [getCurrentServer] for its warning before it
    rotates: what that throws leaves the function. *)
Fixpoint retry (remaining : nat) (endpoint : string)
    (params : list (string * option string)) (lastError : option Error)
    (api : RadioAPI) : (Error + T) * RadioAPI :=
  match remaining with
  | O => (inl (default AllServersFailed lastError), api)
  | S remaining' =>
      match attempt endpoint params api with
      | (inr data, api) => (inr data, api)
      | (inl error, api) =>
          match getCurrentServer api with
          | inl thrown => (inl thrown, api)
          | inr _ => retry remaining' endpoint params (Some error) (rotateServer api)
          end
      end
  end.

Definition makeRequest (endpoint : string) (params : list (string * option string))
    (api : RadioAPI) : (Error + T) * RadioAPI :=
  let maxRetries := length (servers api) in
  retry maxRetries endpoint params None api.

Definition registerClick (stationuuid : string) (api : RadioAPI)
  : (Error + T) * RadioAPI :=
  makeRequest ("/url/" ++ stationuuid) [] api.

(** One request after the other on the same instance. *)
Definition serve (calls : list (string * list (string * option string)))
    (api : RadioAPI) : RadioAPI :=
  fold_left (fun api c => snd (makeRequest (fst c) (snd c) api)) calls api.

(** *** Calls that overlap

    [makeRequest] is suspended at [await fetch(...)] and at
    [await response.json()], and [servers] and [currentServerIndex] are
    fields of the one instance the module exports: calls in flight at the
    same time share them.  The instance is neither read nor written
    between the two awaits of an iteration, so they are one step here. *)

(** A call suspended at the request of an iteration: what the network
    will answer, and the iterations of the loop after this one. *)
Record Pending := mkPending {
  endpointOf : string;
  paramsOf : list (string * option string);
  awaited : Response;
  iterationsLeft : nat;
}.

(** The instance with the calls of [makeRequest] in flight and those that
    returned or threw. *)
Record Client := mkClient {
  instance : RadioAPI;
  pending : gmap nat Pending;
  results : gmap nat (Error + T);
  nextCall : nat;
}.

Definition client (api : RadioAPI) : Client :=
  {| instance := api; pending := ∅; results := ∅; nextCall := 0 |}.

(** Call [id] returns or throws. *)
Definition leave (id : nat) (result : Error + T) (c : Client) : Client :=
  {| instance := instance c; pending := pending c;
     results := <[id := result]> (results c); nextCall := nextCall c |}.

(** The [for] loop of call [id] from the top of an iteration, with
    [remaining] iterations to go, up to its next [await fetch(...)] or to
    the end of the function. *)
Definition makeRequest_loop (id : nat) (endpoint : string)
    (params : list (string * option string)) (remaining : nat)
    (lastError : option Error) (c : Client) : Client :=
  match remaining with
  | O => leave id (inl (default AllServersFailed lastError)) c
  | S remaining' =>
      match getCurrentServer (instance c) with
      | inl thrown => leave id (inl thrown) c
      | inr s =>
          let request := requestTo s endpoint params in
          {| instance :=
               {| servers := servers (instance c);
                  currentServerIndex := currentServerIndex (instance c);
                  sent := request :: sent (instance c) |};
             pending :=
               <[id := {| endpointOf := endpoint; paramsOf := params;
                          awaited := fetch (length (sent (instance c))) request;
                          iterationsLeft := remaining' |}]> (pending c);
             results := results c;
             nextCall := nextCall c |}
      end
  end.

(** [makeRequest(endpoint, params)] up to its first [await]. *)
Definition makeRequest_call (endpoint : string)
    (params : list (string * option string)) (c : Client) : Client :=
  let maxRetries := length (servers (instance c)) in
  makeRequest_loop (nextCall c) endpoint params maxRetries None
    {| instance := instance c; pending := pending c; results := results c;
       nextCall := S (nextCall c) |}.

(** The request of call [id] is answered: the rest of the iteration,
    lines 81-91, and the loop up to the next request. *)
Definition makeRequest_resume (id : nat) (c : Client) : Client :=
  match pending c !! id with
  | None => c
  | Some p =>
      let c := {| instance := instance c; pending := delete id (pending c);
                  results := results c; nextCall := nextCall c |} in
      match settle (awaited p) with
      | inr data => leave id (inr data) c
      | inl error =>
          match getCurrentServer (instance c) with
          | inl thrown => leave id (inl thrown) c
          | inr _ =>
              makeRequest_loop id (endpointOf p) (paramsOf p) (iterationsLeft p)
                (Some error)
                {| instance := rotateServer (instance c); pending := pending c;
                   results := results c; nextCall := nextCall c |}
          end
      end
  end.

(** What can happen to the instance: a new call of [makeRequest], or the
    browser answering the request of a call in flight. *)
Inductive Step :=
| Call (endpoint : string) (params : list (string * option string))
| Respond (id : nat).

Definition step (s : Step) (c : Client) : Client :=
  match s with
  | Call endpoint params => makeRequest_call endpoint params c
  | Respond id => makeRequest_resume id c
  end.

Definition steps (ss : list Step) (c : Client) : Client :=
  fold_left (fun c s => step s c) ss c.

(** A call with nothing else resuming on the instance until it is over:
    the call, then the answers to its own requests, one after the
    other. *)
Definition alone (endpoint : string) (params : list (string * option string))
    (c : Client) : Client :=
  steps (Call endpoint params
           :: repeat (Respond (nextCall c)) (length (servers (instance c)))) c.

(** The handles of the calls in flight were handed out. *)
Definition handles_wf (c : Client) : Prop :=
  forall id, (nextCall c <= id)%nat -> pending c !! id = None.

End Data.

Arguments Response : clear implicits.
Arguments Pending : clear implicits.
Arguments Client : clear implicits.

(** *** Sample data *)

(** The instance after [discoverServers], the servers in the order of the
    list. *)
Definition sample_api : RadioAPI := discoverServers (fun l => l) create.

(** No server can be reached. *)
Definition offline : nat -> Request -> Response string :=
  fun _ _ => Unreachable "Failed to fetch".

(** Only at1 is up; the others answer 503. *)
Definition only_at1 : nat -> Request -> Response string :=
  fun _ r =>
    if String.eqb (server r) "https://at1.api.radio-browser.info"
    then Answer true 200 "OK" (Some "clicked"%string)
    else Answer false 503 "Service Unavailable" None.

(** A click, then the tags. *)
Definition sample_calls : list (string * list (string * option string)) :=
  [("/url/a", []); ("/tags", [("limit", Some "100")])]%string.

(** The tags asked for and not yet answered. *)
Definition click_then_tags : list Step :=
  [Call "/tags" [("limit", Some "100")]]%string.

(** Two clicks whose requests alternate. *)
Definition two_clicks : list Step :=
  [Call "/url/a" []; Call "/url/b" []; Respond 0; Respond 1; Respond 0; Respond 1;
   Respond 0; Respond 0; Respond 0]%string.

(** *** Vocabulary of the proofs *)

(** The index points into the list of servers. *)
Definition in_range (api : RadioAPI) : Prop :=
  exists i, currentServerIndex api = At i /\ (i < length (servers api))%nat.

Definition position (api : RadioAPI) : nat :=
  match currentServerIndex api with
  | At i => i
  | NaN => 0
  end.

(** The request that goes to the [j]-th server after the current one,
    going round. *)
Definition requestAt (endpoint : string) (params : list (string * option string))
    (api : RadioAPI) (j : nat) : option Request :=
  (fun s => requestTo (url s) endpoint params)
    <$> servers api !! ((position api + j) mod length (servers api))%nat.

(** What comes of sending it as the [j]-th request from now. *)
Definition outcomeAt {T : Type} (fetch : nat -> Request -> Response T)
    (endpoint : string) (params : list (string * option string))
    (api : RadioAPI) (j : nat) : option (Error + T) :=
  (fun r => settle (fetch (length (sent api) + j)%nat r))
    <$> requestAt endpoint params api j.

(** Between [api] and [api'] the instance sent [k] requests, the [j]-th of
    them to the [j]-th server after the current one. *)
Definition asked (endpoint : string) (params : list (string * option string))
    (k : nat) (api api' : RadioAPI) : Prop :=
  exists reqs,
    sent api' = rev reqs ++ sent api
    /\ length reqs = k
    /\ forall j, (j < k)%nat -> reqs !! j = requestAt endpoint params api j.

(** The instance after an attempt that failed. *)
Definition failed_once (api : RadioAPI) (r : Request) : RadioAPI :=
  rotateServer {| servers := servers api; currentServerIndex := currentServerIndex api;
                  sent := r :: sent api |}.

(** An error that came from the network. *)
Definition from_network (e : Error) : Prop :=
  match e with
  | FetchFailed _ | Http _ _ | SyntaxError => True
  | _ => False
  end.

End radioApi.

(** ** RadioGlobe

    The zoom filter of the globe component ([filterStationsByZoom] and
    what it calls) and the radius of its markers. *)

Module RadioGlobe.

(** [StationMarker extends RadioStation]: the station and the fields of
    the marker the component reads. *)
Record StationMarker := mkMarker {
  station : RadioStation;
  votes : Z;
  lat : Q;
  lng : Q;
}.

Definition uuid (s : StationMarker) : string := stationuuid (station s).

(** The value of [Math.sqrt(x)] for a rational [x >= 0], kept exact. *)
Inductive Root := Sqrt (radicand : Q).

(** [r < d] for a root and a rational: [sqrt x < d] iff [0 < d] and
    [x < d * d]. *)
Definition root_lt (r : Root) (d : Q) : bool :=
  let 'Sqrt x := r in Qgtb d 0 && Qgtb (d * d) x.

Definition calculateDistance (lat1 lng1 lat2 lng2 : Q) : Root :=
  let dLat := Qabs (lat1 - lat2) in
  let dLng := Qabs (lng1 - lng2) in
  Sqrt (dLat * dLat + dLng * dLng).

(** [maxStations = None] is [Infinity]. *)
Record ZoomConfig := mkZoom {
  minDistance : Q;
  maxStations : option nat;
  priorityThreshold : Z;
}.

Definition getZoomConfig (alt : Q) : ZoomConfig :=
  if Qgtb alt 3 then
    {| minDistance := 8; maxStations := Some 50%nat; priorityThreshold := 50000 |}
  else if Qgtb alt 2 then
    {| minDistance := 4; maxStations := Some 150%nat; priorityThreshold := 20000 |}
  else if Qgtb alt (3 # 2) then
    {| minDistance := 2; maxStations := Some 300%nat; priorityThreshold := 5000 |}
  else if Qgtb alt 1 then
    {| minDistance := 1; maxStations := Some 500%nat; priorityThreshold := 1000 |}
  else if Qgtb alt (1 # 2) then
    {| minDistance := 3 # 10; maxStations := Some 800%nat; priorityThreshold := 0 |}
  else
    {| minDistance := 0; maxStations := None; priorityThreshold := 0 |}.

(** [[...allStations].sort((a, b) => b.votes - a.votes)]: by votes, the
    most voted first; [Array.prototype.sort] is stable. *)
Fixpoint insertByVotes (x : StationMarker) (l : list StationMarker)
  : list StationMarker :=
  match l with
  | [] => [x]
  | y :: l' => if votes y <=? votes x then x :: l else y :: insertByVotes x l'
  end.

Fixpoint sortByVotes (l : list StationMarker) : list StationMarker :=
  match l with
  | [] => []
  | x :: l' => insertByVotes x (sortByVotes l')
  end.

(** [filtered.some(existing => calculateDistance(...) < config.minDistance)]. *)
Definition tooClose (config : ZoomConfig) (station : StationMarker)
    (filtered : list StationMarker) : bool :=
  existsb (fun existing =>
             root_lt (calculateDistance (lat station) (lng station)
                        (lat existing) (lng existing))
                     (minDistance config))
          filtered.

(** [filtered.length >= config.maxStations]. *)
Definition full (config : ZoomConfig) (filtered : list StationMarker) : bool :=
  match maxStations config with
  | Some m => (m <=? length filtered)%nat
  | None => false
  end.

(** [currentStationMarker && station.stationuuid === currentStationMarker.stationuuid]. *)
Definition isCurrent (currentStationMarker : option StationMarker)
    (s : StationMarker) : bool :=
  match currentStationMarker with
  | Some c => String.eqb (uuid s) (uuid c)
  | None => false
  end.

(** The [for ... of] loop over the sorted stations; [filtered] is the
    array built so far, in the order of the [push] calls. *)
Fixpoint select (config : ZoomConfig) (currentStationMarker : option StationMarker)
    (sortedStations filtered : list StationMarker) : list StationMarker :=
  match sortedStations with
  | [] => filtered
  | s :: rest =>
      if isCurrent currentStationMarker s then
        select config currentStationMarker rest filtered            (* continue *)
      else if full config filtered then filtered                    (* break *)
      else if negb (tooClose config s filtered) then
        select config currentStationMarker rest (filtered ++ [s])
      else select config currentStationMarker rest filtered
  end.

(** [filterStationsByZoom(allStations, altitude)]; [currentStation] is the
    prop of the render the callback was created in. *)
Definition filterStationsByZoom (currentStation : option RadioStation)
    (allStations : list StationMarker) (altitude : Q) : list StationMarker :=
  if (length allStations =? 0)%nat then [] else
  let currentStationMarker :=
    match currentStation with
    | Some c => find (fun s => String.eqb (uuid s) (stationuuid c)) allStations
    | None => None
    end in
  let config := getZoomConfig altitude in
  let sortedStations := sortByVotes allStations in
  let filtered :=
    match currentStationMarker with
    | Some m => [m]
    | None => []
    end in
  select config currentStationMarker sortedStations filtered.

(** The [pointRadius] accessor: the factor by which the markers grow and
    shrink with the altitude of the camera, and the radius of a marker. *)
Definition scaleFactor (currentAltitude : Q) : Q :=
  if Qgtb currentAltitude 3 then 9 # 10
  else if Qgtb currentAltitude 2 then (9 # 10) + (3 - currentAltitude) * (3 # 10)
  else if Qgtb currentAltitude 1 then (12 # 10) + (2 - currentAltitude) * (3 # 10)
  else if Qgtb currentAltitude (4 # 10) then 1 + (currentAltitude - (4 # 10)) * (83 # 100)
  else if Qgtb currentAltitude (2 # 10) then (4 # 10) + (currentAltitude - (2 # 10)) * 3
  else (1 # 100) + currentAltitude * (195 # 100).

Definition pointRadius (currentStation : option RadioStation) (currentAltitude : Q)
    (d : StationMarker) : Q :=
  let baseRadius :=
    if match currentStation with
       | Some c => String.eqb (uuid d) (stationuuid c)
       | None => false
       end
    then 22 # 100 else 18 # 100 in
  baseRadius * scaleFactor currentAltitude.

(** *** Sample data *)

Definition marker (id : string) (v : Z) (la lo : Q) : StationMarker :=
  {| station := {| stationuuid := id; name := id; url := "http://" ++ id;
                   url_resolved := EmptyString |};
     votes := v; lat := la; lng := lo |}.

(** Two stations in Berlin, one in Paris, one in Tokyo. *)
Definition sample_markers : list StationMarker :=
  [marker "berlin-1" 120 (525 # 10) (134 # 10);
   marker "paris" 900 (489 # 10) (23 # 10);
   marker "berlin-2" 40 (526 # 10) (133 # 10);
   marker "tokyo" 500 (357 # 10) (1397 # 10)].

(** *** Vocabulary of the proofs *)

(** No station of the list is nearer than [minDistance] to one pushed
    before it. *)
Fixpoint spaced (config : ZoomConfig) (filtered : list StationMarker) : Prop :=
  match filtered with
  | [] => True
  | s :: later =>
      Forall (fun t =>
                root_lt (calculateDistance (lat t) (lng t) (lat s) (lng s))
                        (minDistance config) = false) later
      /\ spaced config later
  end.

End RadioGlobe.

(** ** SideMenu

    The favourites of the side menu. *)

Module SideMenu.

(** A JavaScript [Set] of strings: its elements, in the order they were
    added. *)
Definition StringSet : Type := list string.

Definition has (key : string) (s : StringSet) : bool := existsb (String.eqb key) s.

Definition add (key : string) (s : StringSet) : StringSet :=
  if has key s then s else s ++ [key].

Definition remove (key : string) (s : StringSet) : StringSet :=
  List.filter (fun k => negb (String.eqb k key)) s.

(** [new Set(array)]. *)
Definition fromArray (l : list string) : StringSet :=
  fold_left (fun s k => add k s) l [].

(** The updater of [toggleFavorite] and of [toggleCountry]: a copy of the
    set with the key taken out if it was in, put in if it was not. *)
Definition toggle (key : string) (prev : StringSet) : StringSet :=
  let newSet := prev in
  if has key newSet then remove key newSet else add key newSet.

(** [toggleFavorite(station, event)]: the new set and the array written to
    [localStorage] under 'radio-favorites'. *)
Definition toggleFavorite (station : RadioStation) (prev : StringSet)
  : StringSet * list string :=
  let newFavorites := toggle (stationuuid station) prev in
  (newFavorites, newFavorites).

(** The effect of lines 80-84: the stations of the catalog that are in
    the set. *)
Definition favoriteStations (favorites : StringSet) (allStations : list RadioStation)
  : list RadioStation :=
  List.filter (fun s => has (stationuuid s) favorites) allStations.

End SideMenu.

(** * Properties of the phase state machine *)

Module PomodoroFacts.
Import usePomodoro.

Lemma rem_is_zero_mod (a b : Z) :
  b <> 0 -> rem_is_zero a b = (a mod b =? 0).
Proof.
  intros Hb. unfold rem_is_zero.
  destruct (Z.eqb_spec b 0) as [|_]; [contradiction|].
  destruct (Z.eqb_spec (Z.rem a b) 0) as [Hr|Hr];
    destruct (Z.eqb_spec (a mod b) 0) as [Hm|Hm]; try reflexivity; exfalso.
  - apply Hm. apply Z.rem_divide in Hr; [|assumption].
    apply Z.mod_divide; assumption.
  - apply Hr. apply Z.mod_divide in Hm; [|assumption].
    apply Z.rem_divide; assumption.
Qed.

(** With [sessionsUntilLongBreak = 0] the remainder is [NaN] and every work
    session is followed by a short break. *)
Lemma getNextPhase_zero_sessions (st : PomodoroSettings) (cs : Z) :
  sessionsUntilLongBreak st = 0 -> getNextPhase st work cs = shortBreak.
Proof. intros H. unfold getNextPhase, rem_is_zero. rewrite H. reflexivity. Qed.

(** C1: from [work] the next phase is [longBreak] when
    [(completedSessions + 1) mod sessionsUntilLongBreak] is 0 and
    [shortBreak] otherwise; from either break it is [work]. *)
Theorem getNextPhase_spec (st : PomodoroSettings) (cs : Z) :
  sessionsUntilLongBreak st <> 0 ->
  getNextPhase st work cs
    = (if (cs + 1) mod sessionsUntilLongBreak st =? 0 then longBreak else shortBreak)
  /\ getNextPhase st shortBreak cs = work
  /\ getNextPhase st longBreak cs = work.
Proof.
  intros HN. split; [|split; reflexivity].
  unfold getNextPhase. rewrite rem_is_zero_mod by assumption. reflexivity.
Qed.

Lemma getNextPhase_spec_witness :
  sessionsUntilLongBreak DEFAULT_SETTINGS <> 0
  /\ getNextPhase DEFAULT_SETTINGS work 3 = longBreak
  /\ getNextPhase DEFAULT_SETTINGS work 4 = shortBreak
  /\ getNextPhase DEFAULT_SETTINGS shortBreak 4 = work.
Proof.
  assert (H : sessionsUntilLongBreak DEFAULT_SETTINGS <> 0) by (simpl; lia).
  split; [exact H|].
  destruct (getNextPhase_spec DEFAULT_SETTINGS 3 H) as [H3 _].
  destruct (getNextPhase_spec DEFAULT_SETTINGS 4 H) as [H4 [Hs _]].
  split; [rewrite H3; reflexivity | split; [rewrite H4; reflexivity | exact Hs]].
Defined.

Lemma getNextPhase_from_work (st : PomodoroSettings) (cs : Z) :
  isBreak (getNextPhase st work cs).
Proof.
  unfold getNextPhase, isBreak.
  destruct (rem_is_zero _ _); [right | left]; reflexivity.
Qed.

Lemma getNextPhase_not_work (st : PomodoroSettings) (p : PomodoroPhase) (cs : Z) :
  p <> work -> getNextPhase st p cs = work.
Proof. destruct p; intros H; try reflexivity; contradiction. Qed.

(** C5: a transition out of [work] (by [tick] or by [skip]) adds one to
    [completedSessions] and leaves [currentCycle]; a transition out of a
    break adds one to [currentCycle] and leaves [completedSessions]; a tick
    that is not a transition leaves both, and the phase. *)
Theorem counters_step (st : PomodoroSettings) (view : AudioPlayerState)
    (prev : PomodoroState) :
  let counters s := (completedSessions s, currentCycle s) in
  let moved next :=
    match phase prev with
    | work =>
        isBreak (phase next)
        /\ counters next = (completedSessions prev + 1, currentCycle prev)
    | shortBreak | longBreak =>
        phase next = work
        /\ counters next = (completedSessions prev, currentCycle prev + 1)
    | paused => True
    end in
  moved (fst (skip st prev))
  /\ (if timeRemaining prev - 1 <=? 0
      then moved (fst (tick st view prev))
      else phase (fst (tick st view prev)) = phase prev
           /\ counters (fst (tick st view prev)) = counters prev).
Proof.
  intros counters moved. subst moved counters. split.
  - unfold skip. destruct (phase prev) eqn:Hp; simpl; try exact I;
      first [ split; [apply getNextPhase_from_work | reflexivity]
            | split; reflexivity ].
  - unfold tick. destruct (timeRemaining prev - 1 <=? 0); [|split; reflexivity].
    destruct (phase prev) eqn:Hp; simpl; try exact I;
      first [ split; [apply getNextPhase_from_work | reflexivity]
            | split; reflexivity ].
Qed.


Lemma tick_before_boundary (st : PomodoroSettings) (v : AudioPlayerState)
    (s : PomodoroState) (k : nat) :
  Z.of_nat k + 1 < timeRemaining s ->
  fst (tick st v (countdown s k)) = countdown s (S k).
Proof.
  intros H. unfold tick, countdown. simpl.
  destruct (Z.leb_spec (timeRemaining s - Z.of_nat k - 1) 0); [lia|].
  simpl. f_equal. lia.
Qed.

Lemma ticks_lookup (st : PomodoroSettings) (views : list AudioPlayerState) :
  forall (s : PomodoroState) (j k : nat) (r : TickRecord),
    Z.of_nat (j + k) < timeRemaining s ->
    ticks st views (countdown s j) !! k = Some r ->
    exists v, views !! k = Some v
      /\ before r = countdown s (j + k)
      /\ (after r, fired r) = tick st v (countdown s (j + k)).
Proof.
  induction views as [|v views IH]; intros s j k r Hk Hr; [discriminate|].
  simpl in Hr. destruct (tick st v (countdown s j)) as [s' fx] eqn:Ht.
  destruct k as [|k].
  - simpl in Hr. injection Hr as <-. exists v. simpl.
    rewrite Nat.add_0_r, Ht. auto.
  - simpl in Hr.
    assert (Hs' : s' = countdown s (S j)).
    { change s' with (fst (s', fx)). rewrite <- Ht.
      apply tick_before_boundary. lia. }
    subst s'. replace (j + S k)%nat with (S j + k)%nat in * by lia.
    apply (IH s (S j) k r); [lia | exact Hr].
Qed.

Lemma ticks_length (st : PomodoroSettings) (views : list AudioPlayerState) :
  forall s, length (ticks st views s) = length views.
Proof.
  induction views as [|v views IH]; intros s; [reflexivity|].
  simpl. destruct (tick st v s). simpl. f_equal. apply IH.
Qed.

Lemma countdown_0 (s : PomodoroState) : countdown s 0 = s.
Proof. destruct s. unfold countdown. simpl. f_equal. lia. Qed.

Lemma phase_changes (st : PomodoroSettings) (p : PomodoroPhase) (cs : Z) :
  getNextPhase st p cs <> p.
Proof.
  destruct p; simpl; try discriminate.
  destruct (rem_is_zero _ _); discriminate.
Qed.

Lemma filter_only_at {A : Type} (f : A -> bool) (l : list A) :
  forall k0 : nat,
    (k0 < length l)%nat ->
    (forall k r, l !! k = Some r -> (f r = true <-> k = k0)) ->
    length (List.filter f l) = 1%nat.
Proof.
  induction l as [|a l IH]; intros k0 Hlt H; simpl in *; [lia|].
  destruct k0 as [|k0].
  - assert (Ha : f a = true) by (apply (H 0%nat a); reflexivity).
    rewrite Ha. simpl. f_equal.
    assert (Hnil : List.filter f l = []).
    { clear -H. assert (Hall : forall k r, l !! k = Some r -> f r = false).
      { intros k r Hr. destruct (f r) eqn:E; [|reflexivity].
        apply (H (S k) r) in E; [discriminate | exact Hr]. }
      clear H. induction l as [|b l IHl]; [reflexivity|]. simpl.
      rewrite (Hall 0%nat b eq_refl). apply IHl.
      intros k r Hr. apply (Hall (S k) r Hr). }
    rewrite Hnil. reflexivity.
  - assert (Ha : f a = false).
    { destruct (f a) eqn:E; [|reflexivity].
      apply (H 0%nat a) in E; [discriminate | reflexivity]. }
    rewrite Ha. apply (IH k0); [lia|].
    intros k r Hr. specialize (H (S k) r Hr). rewrite H. lia.
Qed.

(** What the updater of [tick] fires at the three-second mark, and that
    it fires neither a search nor a fade-out at any other tick. *)
Lemma tick_effects (st : PomodoroSettings) (v : AudioPlayerState)
    (s : PomodoroState) :
  (timeRemaining s - 1 = 3 ->
     (phase s = work -> snd (tick st v s) = [SearchStation])
     /\ (phase s <> work -> snd (tick st v s) = [StopWithFade 3]))
  /\ (timeRemaining s - 1 <> 3 ->
        (SearchStation ∉ snd (tick st v s))
        /\ (forall d, StopWithFade d ∉ snd (tick st v s))).
Proof.
  unfold tick, preTransition. split.
  - intros E. rewrite E. simpl.
    destruct (decide (phase s = work)) as [Hw|Hw]; split; intros H;
      try contradiction; reflexivity.
  - intros E. destruct (Z.eqb_spec (timeRemaining s - 1) 3) as [E'|_];
      [contradiction|].
    destruct (timeRemaining s - 1 <=? 0); simpl.
    + destruct (decide (phase s = work)); simpl.
      * split; [|intros d]; apply not_elem_of_nil.
      * destruct (audio_active v); (split; [|intros d]);
          first [apply not_elem_of_nil
                | rewrite list_elem_of_singleton; discriminate].
    + split; [|intros d]; apply not_elem_of_nil.
Qed.

Lemma firedEarly_tick (st : PomodoroSettings) (v : AudioPlayerState)
    (s : PomodoroState) :
  firedEarly {| before := s; after := fst (tick st v s); fired := snd (tick st v s) |}
    = true
  <-> timeRemaining s - 1 = 3.
Proof.
  unfold firedEarly. cbn [fired].
  rewrite orb_true_iff, !bool_decide_eq_true.
  destruct (tick_effects st v s) as [Hat Hoff].
  destruct (Z.eq_dec (timeRemaining s - 1) 3) as [E|E].
  - split; [intros _; exact E|]. intros _.
    destruct (Hat E) as [Hw Hb].
    destruct (decide (phase s = work)) as [P|P].
    + left. rewrite (Hw P). apply list_elem_of_here.
    + right. rewrite (Hb P). apply list_elem_of_here.
  - split; [|contradiction]. destruct (Hoff E) as [H1 H2].
    intros [H|H]; [destruct (H1 H) | destruct (H2 3 H)].
Qed.

Lemma transition_tick (st : PomodoroSettings) (v : AudioPlayerState)
    (s : PomodoroState) :
  phase (fst (tick st v s)) <> phase s <-> timeRemaining s - 1 <= 0.
Proof.
  unfold tick.
  destruct (Z.leb_spec (timeRemaining s - 1) 0) as [H|H].
  - split; [auto|]. intros _.
    destruct (decide (phase s = work)); simpl; apply phase_changes.
  - simpl. split; [congruence | lia].
Qed.

(** C2: in the run of ticks that starts at [timeRemaining = T > 3] and
    ends with the phase, the tick whose decremented [timeRemaining] is 3
    fires the side effect of the three-second mark and nothing else: the
    station search [playRandomStation()] when the phase is 'work', the
    fade-out [audio.stopWithFade(3)] when it is a break.  No other tick
    starts a search or a fade-out of any length, so exactly one record has
    one.  The phase changes at the tick whose decremented [timeRemaining]
    is [<= 0], which is the last one, and at no earlier tick. *)
Theorem tick_sequence (st : PomodoroSettings) (views : list AudioPlayerState)
    (s : PomodoroState) :
  3 < timeRemaining s ->
  length views = Z.to_nat (timeRemaining s) ->
  let rs := ticks st views s in
  (forall k r, rs !! k = Some r ->
     phase (before r) = phase s
     /\ timeRemaining (before r) - 1 = timeRemaining s - Z.of_nat (S k)
     /\ (timeRemaining (before r) - 1 = 3 ->
           (phase s = work -> fired r = [SearchStation])
           /\ (phase s <> work -> fired r = [StopWithFade 3]))
     /\ (timeRemaining (before r) - 1 <> 3 ->
           (SearchStation ∉ fired r) /\ (forall d, StopWithFade d ∉ fired r))
     /\ (firedEarly r = true <-> timeRemaining (before r) - 1 = 3)
     /\ (phase (after r) <> phase (before r) <-> timeRemaining (before r) - 1 <= 0)
     /\ (timeRemaining (before r) - 1 <= 0 <-> S k = length rs))
  /\ length (List.filter firedEarly rs) = 1%nat.
Proof.
  intros HT Hlen rs.
  assert (Hrs : length rs = Z.to_nat (timeRemaining s)).
  { unfold rs. rewrite ticks_length. exact Hlen. }
  assert (Hpoint : forall k r, rs !! k = Some r ->
            exists v, before r = countdown s k
              /\ (after r, fired r) = tick st v (countdown s k)).
  { intros k r Hr.
    assert (Hk : (k < length rs)%nat) by (eapply lookup_lt_Some; exact Hr).
    unfold rs in Hr. rewrite <- (countdown_0 s) in Hr at 1.
    apply ticks_lookup in Hr; [|simpl; lia].
    destruct Hr as (v & _ & Hb & Ht). exists v. auto. }
  assert (Hfire : forall k r, rs !! k = Some r ->
            (firedEarly r = true <-> timeRemaining (before r) - 1 = 3)).
  { intros k r Hr. destruct (Hpoint k r Hr) as (v & Hb & Ht).
    rewrite <- (firedEarly_tick st v (before r)).
    rewrite Hb, <- Ht. simpl. rewrite <- Hb. destruct r; reflexivity. }
  split.
  - intros k r Hr.
    assert (Hk : (k < length rs)%nat) by (eapply lookup_lt_Some; exact Hr).
    destruct (Hpoint k r Hr) as (v & Hb & Ht).
    assert (Hfx : fired r = snd (tick st v (before r)))
      by (rewrite Hb, <- Ht; reflexivity).
    assert (Hph : phase (before r) = phase s) by (rewrite Hb; reflexivity).
    destruct (tick_effects st v (before r)) as [Hat Hoff].
    rewrite Hph in Hat. rewrite <- Hfx in Hat, Hoff.
    split; [exact Hph|].
    split; [rewrite Hb; simpl; lia|].
    split; [exact Hat|].
    split; [exact Hoff|].
    split; [exact (Hfire k r Hr)|].
    split.
    { assert (Ha : after r = fst (tick st v (before r)))
        by (rewrite Hb, <- Ht; reflexivity).
      rewrite Ha. apply transition_tick. }
    rewrite Hb. simpl. lia.
  - apply (filter_only_at firedEarly rs (Z.to_nat (timeRemaining s - 4))); [lia|].
    intros k r Hr.
    assert (Hk : (k < length rs)%nat) by (eapply lookup_lt_Some; exact Hr).
    rewrite (Hfire k r Hr).
    destruct (Hpoint k r Hr) as (v & Hb & _). rewrite Hb. simpl. lia.
Qed.

Lemma tick_sequence_witness :
  let s := usePomodoro.initialState DEFAULT_SETTINGS in
  let rs := ticks DEFAULT_SETTINGS
              (repeat useAudioPlayer.initialState 1500) s in
  3 < timeRemaining s
  /\ length (List.filter firedEarly rs) = 1%nat
  /\ (fired <$> rs !! 1496%nat) = Some [SearchStation].
Proof.
  intros s rs.
  assert (HT : 3 < timeRemaining s) by (vm_compute; reflexivity).
  assert (HL : length (repeat useAudioPlayer.initialState 1500)
               = Z.to_nat (timeRemaining s)) by (vm_compute; reflexivity).
  destruct (tick_sequence DEFAULT_SETTINGS
              (repeat useAudioPlayer.initialState 1500) s HT HL) as [Hall Hone].
  split; [exact HT|]. split; [exact Hone|].
  fold rs in Hall.
  destruct (rs !! 1496%nat) as [r|] eqn:Hr; [|vm_compute in Hr; discriminate].
  destruct (Hall 1496%nat r Hr) as (_ & Hd & Hat & _).
  cbn [fmap option_fmap option_map]. f_equal.
  apply Hat; [rewrite Hd; vm_compute; reflexivity | reflexivity].
Defined.

End PomodoroFacts.

(** * Properties of the audio player *)

Module AudioFacts.
Import useAudioPlayer.

(** Unfolding the hook down to record updates. *)
Ltac unfold_hook :=
  unfold exec, fire, fire_fade, wake, handle,
    playStation_call, playStation_resume, stopWithFade_call, stopWithFade_finish,
    seq_load, seq_fadeOut, seq_switch, seq_finish, dir_silence, dir_load, dir_play,
    dir_finish, play_catch, pause, resume, resume_failed, stop, setVolume, mount,
    crossfade, fadeIn, fadeOut, nextStep, spawn, suspend, take_handle, finish,
    clearFadeInterval, clearInterval, setInterval, setVolumeOf, pauseOf, playOf,
    setSrcOf, removeSrcOf, loadOf, loadStationOf, observe, setState,
    update_element, update_timers, update_tasks, update_settled, with_mounted,
    with_fadeIntervalRef, with_crossfadeIntervalRef, element,
    el_with_src, el_with_volume, el_with_paused in *.

Ltac hook_cbn :=
  cbn [mounted state audio crossfadeAudio fadeIntervalRef crossfadeIntervalRef
       timers nextTimer tasks nextTask settled trace
       isPlaying isLoading volume currentStation error isCrossfading
       el_src el_volume el_paused obs primaryThen transitionalThen
       ramp stepTime currentStep fst snd negb andb orb
       handle station_since_stop] in *.

Ltac split_cases :=
  repeat (hook_cbn;
          match goal with
          | |- context [match ?x with _ => _ end] =>
              lazymatch x with
              | context [match _ with _ => _ end] => fail
              | _ => destruct x eqn:?
              end
          end).

Lemma volume_fire (id : nat) (w : World) :
  volume (state (fire id w)) = volume (state w).
Proof. destruct w. unfold_hook. split_cases; reflexivity. Qed.

Lemma volume_exec (l : Label) (w : World) :
  (forall view v, l <> CallSetVolume view v) ->
  volume (state (exec l w)) = volume (state w).
Proof.
  intros Hl. destruct l; try (specialize (Hl view v); contradiction);
    try apply volume_fire;
    destruct w; unfold_hook; split_cases; reflexivity.
Qed.

Lemma iter_preserves {A B : Type} (proj : A -> B) (f : A -> A) (n : nat) (a : A) :
  (forall x, proj (f x) = proj x) -> proj (Nat.iter n f a) = proj a.
Proof.
  intros H. induction n as [|n IH]; cbn [Nat.iter nat_rect]; [reflexivity|].
  rewrite H. exact IH.
Qed.

Lemma volume_fire_fade (w : World) :
  volume (state (fire_fade w)) = volume (state w).
Proof. unfold fire_fade. destruct (fadeIntervalRef w); [apply volume_fire | reflexivity]. Qed.

Lemma volume_playStation (net : Outcomes) (view : AudioPlayerState)
    (s : RadioStation) (w : World) :
  volume (state (snd (playStation net view s w))) = volume (state w).
Proof.
  unfold playStation.
  destruct (playStation_call view s w) as [tid w1] eqn:Hc. cbn [snd].
  rewrite volume_exec by discriminate.
  unfold await_fade.
  rewrite (iter_preserves (fun w => volume (state w))).
  2:{ intros x. unfold await_step.
      destruct (tasks x !! tid) as [[? ? []|]|]; try reflexivity;
        apply volume_fire_fade. }
  rewrite !volume_exec by discriminate.
  change w1 with (snd (tid, w1)). rewrite <- Hc.
  apply (volume_exec (CallPlayStation view s)). discriminate.
Qed.

Lemma volume_stopWithFade (d : Q) (w : World) :
  volume (state (stopWithFade d w)) = volume (state w).
Proof.
  unfold stopWithFade.
  destruct (stopWithFade_call d w) as [tid w1] eqn:Hc. unfold await_fade.
  rewrite (iter_preserves (fun w => volume (state w))).
  2:{ intros x. unfold await_step.
      destruct (tasks x !! tid) as [[? ? []|]|]; try reflexivity;
        apply volume_fire_fade. }
  change w1 with (snd (tid, w1)). rewrite <- Hc.
  apply (volume_exec (CallStopWithFade d)). discriminate.
Qed.

(** C10: only [setVolume] writes the [volume] field of the state.
    [playStation], [stop], [stopWithFade], [pause], [resume], [fadeIn] and
    [fadeOut] leave it as it was, and so does every other step of the hook
    (a promise settled, an interval callback, a media event). *)
Theorem target_volume_frame (w : World) :
  (forall net view s,
     volume (state (snd (playStation net view s w))) = volume (state w))
  /\ volume (state (stop w)) = volume (state w)
  /\ (forall d, volume (state (stopWithFade d w)) = volume (state w))
  /\ volume (state (pause w)) = volume (state w)
  /\ (forall view, volume (state (resume view w)) = volume (state w))
  /\ (forall view d, volume (state (fadeIn view d w)) = volume (state w))
  /\ (forall d waiter, volume (state (fadeOut d waiter w)) = volume (state w))
  /\ (forall l, (forall view v, l <> CallSetVolume view v) ->
        volume (state (exec l w)) = volume (state w))
  /\ (forall view v, volume (state (setVolume view v w)) = Qmax 0 (Qmin 1 v)).
Proof.
  split; [intros; apply volume_playStation|].
  split; [apply (volume_exec CallStop); discriminate|].
  split; [intros; apply volume_stopWithFade|].
  split; [apply (volume_exec CallPause); discriminate|].
  split; [intros view; apply (volume_exec (CallResume view)); discriminate|].
  split; [intros view d; apply (volume_exec (CallFadeIn view d)); discriminate|].
  split; [intros d waiter; destruct w; unfold_hook; split_cases; reflexivity|].
  split; [intros l Hl; apply volume_exec; exact Hl|].
  intros view v. destruct w. unfold_hook. split_cases; reflexivity.
Qed.



(** *** Stepping through a call *)

Lemma iter_fixed {A : Type} (f : A -> A) (n : nat) (a : A) :
  f a = a -> Nat.iter n f a = a.
Proof.
  intros H. induction n as [|n IH]; [reflexivity|].
  rewrite Nat.iter_succ, IH. exact H.
Qed.

Lemma tasks_suspend (tid : nat) (t : Task) (w : World) :
  tasks (suspend tid t w) !! tid = Some t.
Proof. destruct w. apply lookup_insert_eq. Qed.

Lemma tasks_finish (tid : nat) (ok : bool) (w : World) :
  tasks (finish tid ok w) !! tid = None.
Proof. destruct w. apply lookup_delete_eq. Qed.

Lemma settled_finish (tid : nat) (ok : bool) (w : World) :
  settled (finish tid ok w) !! tid = Some ok.
Proof. destruct w. apply lookup_insert_eq. Qed.

Lemma exec_settle (tid : nat) (a : Awaited) (ok : bool) (w : World)
    (view : AudioPlayerState) (s : RadioStation) (p : PlayPoint) :
  tasks w !! tid = Some (TPlayStation view s p) ->
  awaits p = Some a ->
  exec (Settle tid a ok) w = playStation_resume tid view s p ok w.
Proof.
  intros Ht Ha. unfold exec. rewrite Ht. rewrite decide_True by exact Ha. reflexivity.
Qed.

Lemma exec_settle_gone (tid : nat) (a : Awaited) (ok : bool) (w : World) :
  tasks w !! tid = None -> exec (Settle tid a ok) w = w.
Proof. intros Ht. unfold exec. rewrite Ht. reflexivity. Qed.

Lemma exec_settle_suspended (tid : nat) (a : Awaited) (ok : bool) (w : World)
    (view : AudioPlayerState) (s : RadioStation) (p : PlayPoint) :
  awaits p = Some a ->
  exec (Settle tid a ok) (suspend tid (TPlayStation view s p) w)
  = playStation_resume tid view s p ok (suspend tid (TPlayStation view s p) w).
Proof. intros Ha. eapply exec_settle; [apply tasks_suspend | exact Ha]. Qed.

Lemma exec_settle_finished (tid : nat) (a : Awaited) (ok r : bool) (w : World) :
  exec (Settle tid a ok) (finish tid r w) = finish tid r w.
Proof. apply exec_settle_gone. apply tasks_finish. Qed.

Lemma await_fade_finished (tid : nat) (r : bool) (w : World) :
  await_fade tid (finish tid r w) = finish tid r w.
Proof. apply iter_fixed. unfold await_step. rewrite tasks_finish. reflexivity. Qed.

Lemma await_fade_suspended (tid : nat) (w : World) (view : AudioPlayerState)
    (s : RadioStation) (p : PlayPoint) :
  p <> SeqFadeOut ->
  await_fade tid (suspend tid (TPlayStation view s p) w)
  = suspend tid (TPlayStation view s p) w.
Proof.
  intros Hp. apply iter_fixed. unfold await_step. rewrite tasks_suspend.
  destruct p; try reflexivity. contradiction.
Qed.

Ltac step_call :=
  repeat first
    [ rewrite exec_settle_finished
    | rewrite await_fade_finished
    | rewrite settled_finish
    | rewrite exec_settle_suspended by reflexivity
    | rewrite await_fade_suspended by discriminate
    | progress cbn [playStation_resume negb] ].

(** The first synchronous stretch of [playStation]. *)
Lemma playStation_call_unmounted (view : AudioPlayerState) (s : RadioStation)
    (w : World) :
  mounted w = false ->
  playStation_call view s w
  = (nextTask w,
     finish (nextTask w) true
       (suspend (nextTask w) (TPlayStation view s DirClick) (take_handle w))).
Proof. intros Hm. unfold playStation_call, spawn. rewrite Hm. reflexivity. Qed.

Lemma playStation_call_seq (view : AudioPlayerState) (s : RadioStation) (w : World) :
  mounted w = true -> isCurrentlyPlaying view w = true ->
  playStation_call view s w
  = (nextTask w,
     suspend (nextTask w) (TPlayStation view s SeqClick)
       (take_handle (observe (OClick (stationuuid s)) w))).
Proof.
  intros Hm Hp. unfold playStation_call, spawn. rewrite Hm, Hp.
  destruct w. reflexivity.
Qed.

Lemma playStation_call_direct (view : AudioPlayerState) (s : RadioStation) (w : World) :
  mounted w = true -> isCurrentlyPlaying view w = false ->
  playStation_call view s w
  = (nextTask w,
     suspend (nextTask w) (TPlayStation view s DirClick)
       (take_handle (observe (OClick (stationuuid s)) (dir_silence w)))).
Proof.
  intros Hm Hp. unfold playStation_call, spawn. rewrite Hm, Hp. cbn [negb].
  destruct w as [m st a ca fr cfr t nt tk ntk se tr].
  unfold_hook. hook_cbn. destruct fr; reflexivity.
Qed.

(** [playStation] on the direct branch, read straight through. *)
Lemma playStation_direct (net : Outcomes) (view : AudioPlayerState)
    (s : RadioStation) (w : World) :
  mounted w = true -> isCurrentlyPlaying view w = false ->
  let tid := nextTask w in
  let w1 := snd (playStation_call view s w) in
  playStation net view s w =
    if negb (click_ok net) then (Some false, finish tid false (play_catch w1)) else
    let w2 := suspend tid (TPlayStation view s DirLoad) (dir_load s w1) in
    if negb (load_ok net) then (Some false, finish tid false (play_catch w2)) else
    let w3 := suspend tid (TPlayStation view s DirPlay) (dir_play w2) in
    if negb (play_ok net) then (Some false, finish tid false (play_catch w3)) else
    (Some true, finish tid true (dir_finish view w3)).
Proof.
  intros Hm Hp tid w1. subst tid w1. unfold playStation.
  rewrite playStation_call_direct by assumption. cbn [snd].
  destruct net as [[] [] []]; cbn [click_ok load_ok play_ok negb]; step_call;
    reflexivity.
Qed.

(** *** The fade-out a sequential transition waits for *)

Section FadeOutRun.

Variables (tid id : nat) (view : AudioPlayerState) (s : RadioStation).
Variables (startVolume volumeStep time : Q).
Variables (ca : AudioElement) (src : option string) (tr : list Snapshot).

Local Notation "'fading'" :=
  (fading_out tid id view s startVolume volumeStep time ca src tr).


Lemma fading_out_step (k : nat) (x : World) :
  (k < steps)%nat -> fading k x -> fading (S k) (await_step tid x).
Proof.
  intros Hk (Hm & Hf & Ht & Hw & Hca & Hsrc & new & Htr & Hnew).
  unfold await_step. rewrite Hw. unfold fire_fade. rewrite Hf.
  unfold fire. rewrite Ht. cbn [ramp currentStep].
  apply Nat.leb_gt in Hk. rewrite Hk.
  destruct x as [m st [asrc avol ap] [csrc cvol cp] fr cfr t nt tk ntk se tr0].
  unfold fading_out. unfold_hook. hook_cbn. subst.
  repeat split; try reflexivity; try assumption.
  - apply lookup_insert_eq.
  - eexists (_ :: _ :: new). split; [reflexivity|].
    repeat (apply Forall_cons; split; [split; reflexivity|]). exact Hnew.
Qed.

Lemma fading_out_iter (k : nat) (x : World) :
  (k <= steps)%nat -> fading 0 x ->
  fading k (Nat.iter k (await_step tid) x).
Proof.
  intros Hk H0. induction k as [|k IH]; [exact H0|].
  rewrite Nat.iter_succ. apply fading_out_step; [lia|]. apply IH. lia.
Qed.

(** The last callback: the interval is cleared, the primary element is
    silenced and paused, and the waiting call runs on to [play()]. *)
Lemma fading_out_last (x : World) :
  fading steps x ->
  await_step tid x
  = suspend tid (TPlayStation view s SeqPlay)
      (seq_switch
         (pauseOf Primary
            (setVolumeOf Primary 0 (clearFadeInterval (observe (OFired id) x))))).
Proof.
  intros (Hm & Hf & Ht & Hw & Hca & Hsrc & new & Htr & Hnew).
  unfold await_step. rewrite Hw. unfold fire_fade. rewrite Hf.
  unfold fire. rewrite Ht. cbn [ramp currentStep]. rewrite Nat.leb_refl.
  destruct x as [m st [asrc avol ap] [csrc cvol cp] fr cfr t nt tk ntk se tr0].
  unfold_hook. hook_cbn. subst. hook_cbn. rewrite Hw. reflexivity.
Qed.

End FadeOutRun.

Lemma await_fade_unfold (tid : nat) (x : World) :
  await_fade tid x = await_step tid (Nat.iter steps (await_step tid) x).
Proof. apply Nat.iter_succ. Qed.

(** [await fadeOut(2)] of a sequential transition, as a whole: when the
    call runs on, the primary element has just been silenced and paused,
    and until then it kept its stream and the transitional element was
    left alone. *)
Lemma await_fade_seq (tid : nat) (view : AudioPlayerState) (s : RadioStation)
    (x : World) :
  mounted x = true ->
  exists y,
    await_fade tid
      (suspend tid (TPlayStation view s SeqFadeOut) (seq_fadeOut (Some tid) x))
    = suspend tid (TPlayStation view s SeqPlay)
        (seq_switch (pauseOf Primary (setVolumeOf Primary 0 y)))
    /\ mounted y = true
    /\ crossfadeAudio y = crossfadeAudio x
    /\ el_src (audio y) = el_src (audio x)
    /\ exists new,
         trace y = new ++ trace x
         /\ Forall (fun z => el_src (primaryThen z) = el_src (audio x)
                             /\ transitionalThen z = crossfadeAudio x) new.
Proof.
  intros Hm.
  set (x0 := suspend tid (TPlayStation view s SeqFadeOut) (seq_fadeOut (Some tid) x)).
  assert (H0 : fading_out tid (nextTimer x) view s (el_volume (audio x))
                 (el_volume (audio x) / 50) (2 * 1000 / 50)
                 (crossfadeAudio x) (el_src (audio x)) (trace x) 0 x0).
  { subst x0.
    destruct x as [m st [asrc avol ap] [csrc cvol cp] fr cfr t nt tk ntk se tr0].
    unfold fading_out. unfold_hook. hook_cbn. subst. hook_cbn.
    destruct fr; hook_cbn;
      (repeat split; try reflexivity; try apply lookup_insert_eq;
       exists []; split; [reflexivity | constructor]). }
  pose proof (fading_out_iter _ _ _ _ _ _ _ _ _ _ steps x0 (Nat.le_refl _) H0) as H50.
  rewrite await_fade_unfold.
  rewrite (fading_out_last _ _ _ _ _ _ _ _ _ _ _ H50).
  set (x50 := Nat.iter steps (await_step tid) x0) in *. clearbody x50. clear H0 x0.
  exists (clearFadeInterval (observe (OFired (nextTimer x)) x50)).
  split; [reflexivity|].
  destruct H50 as (Hm' & Hf & Ht & Hw & Hca & Hsrc & new & Htr & Hnew).
  destruct x50 as [m st [asrc avol ap] [csrc cvol cp] fr cfr t nt tk ntk se tr0].
  unfold_hook. hook_cbn. subst. hook_cbn.
  do 3 (split; [first [reflexivity | assumption]|]).
  eexists (_ :: new). split; [reflexivity|].
  apply Forall_cons. split; [split; first [reflexivity | assumption] | exact Hnew].
Qed.

(** [playStation] on the sequential branch, read straight through. *)
Lemma playStation_seq (net : Outcomes) (view : AudioPlayerState)
    (s : RadioStation) (w : World) :
  mounted w = true -> isCurrentlyPlaying view w = true ->
  let tid := nextTask w in
  let w1 := snd (playStation_call view s w) in
  let w2 := suspend tid (TPlayStation view s SeqLoad) (seq_load s w1) in
  let w3 := await_fade tid
              (suspend tid (TPlayStation view s SeqFadeOut) (seq_fadeOut (Some tid) w2)) in
  playStation net view s w =
    if negb (click_ok net) then (Some false, finish tid false (play_catch w1)) else
    if negb (load_ok net) then (Some false, finish tid false (play_catch w2)) else
    if negb (play_ok net) then (Some false, finish tid false (play_catch w3)) else
    (Some true, finish tid true (seq_finish view w3)).
Proof.
  intros Hm Hp tid w1 w2 w3. subst tid w1 w2 w3. unfold playStation.
  rewrite playStation_call_seq by assumption. cbn [snd].
  rewrite exec_settle_suspended by reflexivity.
  remember (suspend (nextTask w) (TPlayStation view s SeqClick)
              (take_handle (observe (OClick (stationuuid s)) w))) as w1 eqn:Hw1.
  assert (Hm2 : mounted (suspend (nextTask w) (TPlayStation view s SeqLoad)
                           (seq_load s w1)) = true).
  { subst w1. destruct w as [m st [asrc avol ap] [csrc cvol cp] fr cfr t nt tk ntk se tr0].
    exact Hm. }
  clear Hw1.
  destruct (await_fade_seq (nextTask w) view s _ Hm2) as (y & Hy & _).
  destruct net as [[] [] []]; cbn [click_ok load_ok play_ok negb]; step_call;
    try reflexivity; rewrite Hy; step_call; reflexivity.
Qed.

(** *** The fade-in after a station started *)

Section FadeInRun.

Variables (id : nat) (targetVolume volumeStep time : Q).
Variables (src : option string) (p : bool).

Local Notation "'fading'" := (fading_in id targetVolume volumeStep time src p).


Lemma fading_in_step (k : nat) (x : World) :
  (k < steps)%nat -> fading k x -> fading (S k) (fire_fade x).
Proof.
  intros Hk (Hf & Ht & Hsrc & Hp).
  unfold fire_fade. rewrite Hf. unfold fire. rewrite Ht. cbn [ramp currentStep].
  apply Nat.leb_gt in Hk. rewrite Hk.
  destruct x as [m st [asrc avol ap] [csrc cvol cp] fr cfr t nt tk ntk se tr0].
  unfold fading_in. unfold_hook. hook_cbn. subst.
  repeat split; try reflexivity. apply lookup_insert_eq.
Qed.

Lemma fading_in_iter (k : nat) (x : World) :
  (k <= steps)%nat -> fading 0 x -> fading k (Nat.iter k fire_fade x).
Proof.
  intros Hk H0. induction k as [|k IH]; [exact H0|].
  rewrite Nat.iter_succ. apply fading_in_step; [lia|]. apply IH. lia.
Qed.

(** At the end of the ramp the element is at the target volume and the
    interval is gone. *)
Lemma fading_in_done (x : World) :
  fading 0 x ->
  audio (finish_fade x)
    = {| el_src := src; el_volume := targetVolume; el_paused := p |}
  /\ fadeIntervalRef (finish_fade x) = None
  /\ timers (finish_fade x) !! id = None.
Proof.
  intros H0. unfold finish_fade. rewrite Nat.iter_succ.
  pose proof (fading_in_iter steps x (Nat.le_refl _) H0) as H.
  set (y := Nat.iter steps fire_fade x) in *. clearbody y.
  destruct H as (Hf & Ht & Hsrc & Hp).
  unfold fire_fade. rewrite Hf. unfold fire. rewrite Ht. cbn [ramp currentStep].
  rewrite Nat.leb_refl.
  destruct y as [m st [asrc avol ap] [csrc cvol cp] fr cfr t nt tk ntk se tr0].
  unfold_hook. hook_cbn. subst. hook_cbn.
  repeat split; try reflexivity. apply lookup_delete_eq.
Qed.

End FadeInRun.

(** *** Uninterrupted calls are runs of the transition system *)


Lemma reachable_from_refl (w : World) : reachable_from w w.
Proof. exists []. reflexivity. Qed.

Lemma reachable_from_trans (w1 w2 w3 : World) :
  reachable_from w1 w2 -> reachable_from w2 w3 -> reachable_from w1 w3.
Proof.
  intros [l1 ->] [l2 ->]. exists (l1 ++ l2). unfold run. rewrite fold_left_app.
  reflexivity.
Qed.

Lemma reachable_from_exec (l : Label) (w : World) : reachable_from w (exec l w).
Proof. exists [l]. reflexivity. Qed.

Lemma reachable_from_fire_fade (w : World) : reachable_from w (fire_fade w).
Proof.
  unfold fire_fade. destruct (fadeIntervalRef w) as [id|].
  - apply (reachable_from_exec (Fire id)).
  - apply reachable_from_refl.
Qed.

Lemma reachable_from_iter (f : World -> World) (n : nat) (w : World) :
  (forall x, reachable_from x (f x)) -> reachable_from w (Nat.iter n f w).
Proof.
  intros H. induction n as [|n IH]; cbn [Nat.iter nat_rect];
    [apply reachable_from_refl|].
  eapply reachable_from_trans; [exact IH | apply H].
Qed.

Lemma reachable_from_finish_fade (w : World) : reachable_from w (finish_fade w).
Proof. apply reachable_from_iter. apply reachable_from_fire_fade. Qed.

Lemma reachable_from_playStation (net : Outcomes) (view : AudioPlayerState)
    (s : RadioStation) (w : World) :
  reachable_from w (snd (playStation net view s w)).
Proof.
  unfold playStation.
  destruct (playStation_call view s w) as [tid w1] eqn:Hc. cbn [snd].
  assert (H1 : reachable_from w w1).
  { change w1 with (snd (tid, w1)). rewrite <- Hc.
    apply (reachable_from_exec (CallPlayStation view s)). }
  eapply reachable_from_trans; [exact H1|].
  eapply reachable_from_trans; [apply reachable_from_exec|].
  eapply reachable_from_trans; [apply reachable_from_exec|].
  eapply reachable_from_trans; [|apply reachable_from_exec].
  apply reachable_from_iter. intros x. unfold await_step.
  destruct (tasks x !! tid) as [[? ? []|]|];
    first [apply reachable_from_fire_fade | apply reachable_from_refl].
Qed.

Lemma reachable_step (w w' : World) :
  reachable w -> reachable_from w w' -> reachable w'.
Proof. intros Hw Hw'. exact (reachable_from_trans init w w' Hw Hw'). Qed.

(** An invariant of [exec] that holds of [init] holds of every reachable
    world. *)
Lemma reachable_ind (P : World -> Prop) :
  P init -> (forall l w, P w -> P (exec l w)) -> forall w, reachable w -> P w.
Proof.
  intros H0 Hstep w [ls ->]. revert H0. generalize init.
  induction ls as [|l ls IH]; intros w0 H0; [exact H0|].
  cbn [run fold_left]. apply IH. apply Hstep. exact H0.
Qed.


Lemma transitional_silent_exec (l : Label) (w : World) :
  transitional_silent w -> transitional_silent (exec l w).
Proof.
  unfold transitional_silent, silent. destruct w. intros [[Hp Hv] Ht].
  destruct l; unfold_hook; split_cases;
    repeat first [ assumption | split | apply Forall_cons | reflexivity ].
Qed.

Lemma transitional_silent_reachable (w : World) :
  reachable w -> transitional_silent w.
Proof.
  apply reachable_ind.
  - repeat split. constructor.
  - apply transitional_silent_exec.
Qed.

(** *** The trace only grows *)

Ltac extends_by_some :=
  first [ exists []; reflexivity
        | eexists [_]; reflexivity
        | eexists [_; _]; reflexivity
        | eexists [_; _; _]; reflexivity
        | eexists [_; _; _; _]; reflexivity
        | eexists [_; _; _; _; _]; reflexivity
        | eexists [_; _; _; _; _; _]; reflexivity
        | eexists [_; _; _; _; _; _; _]; reflexivity
        | eexists [_; _; _; _; _; _; _; _]; reflexivity
        | eexists [_; _; _; _; _; _; _; _; _]; reflexivity ].

Lemma trace_extends_exec (l : Label) (w : World) :
  exists new, trace (exec l w) = new ++ trace w.
Proof.
  destruct w as [m st [asrc avol ap] [csrc cvol cp] fr cfr t nt tk ntk se tr0].
  destruct l; unfold_hook; split_cases; extends_by_some.
Qed.

Lemma trace_extends (w w' : World) :
  reachable_from w w' -> exists new, trace w' = new ++ trace w.
Proof.
  intros [ls ->]. revert w. induction ls as [|l ls IH]; intros w.
  - exists []. reflexivity.
  - cbn [run fold_left]. destruct (IH (exec l w)) as [n1 H1].
    destruct (trace_extends_exec l w) as [n2 H2].
    exists (n1 ++ n2). unfold run in H1. rewrite H1, H2. apply app_assoc.
Qed.

Lemma silent_not_audible (el : AudioElement) : silent el -> audible el = false.
Proof. intros [Hp _]. unfold audible. rewrite Hp. reflexivity. Qed.

(** A sequential transition that goes through, up to the return of
    [playStation]: the world [y] is the one in which the fade-out has just
    cleared its interval. *)
Lemma playStation_seq_ok (view : AudioPlayerState) (s : RadioStation) (w : World) :
  mounted w = true -> isCurrentlyPlaying view w = true ->
  exists y,
    playStation (mkOutcomes true true true) view s w
    = (Some true,
       finish (nextTask w) true
         (seq_finish view
            (suspend (nextTask w) (TPlayStation view s SeqPlay)
               (seq_switch (pauseOf Primary (setVolumeOf Primary 0 y))))))
    /\ mounted y = true
    /\ crossfadeAudio y
       = {| el_src := Some (stream_url s); el_volume := 0; el_paused := true |}
    /\ el_src (audio y) = el_src (audio w)
    /\ exists new,
         trace y = new ++ trace w
         /\ Forall (fun z => el_src (primaryThen z) = el_src (audio w)) new.
Proof.
  intros Hm Hp. rewrite playStation_seq by assumption.
  cbn [click_ok load_ok play_ok negb].
  rewrite playStation_call_seq by assumption. cbn [snd].
  set (x := suspend (nextTask w) (TPlayStation view s SeqLoad) _).
  assert (Hx : mounted x = true
               /\ crossfadeAudio x
                  = {| el_src := Some (stream_url s); el_volume := 0; el_paused := true |}
               /\ el_src (audio x) = el_src (audio w)
               /\ exists new, trace x = new ++ trace w
                    /\ Forall (fun z => el_src (primaryThen z) = el_src (audio w)) new).
  { subst x.
    destruct w as [m st [asrc avol ap] [csrc cvol cp] fr cfr t nt tk ntk se tr0].
    unfold_hook. hook_cbn. repeat split; try assumption.
    eexists [_; _; _; _]. split; [reflexivity|].
    repeat (apply Forall_cons; split; [reflexivity|]). constructor. }
  destruct Hx as (Hmx & Hcx & Hsx & newx & Htx & Hnx).
  destruct (await_fade_seq (nextTask w) view s x Hmx)
    as (y & Hy & Hmy & Hcy & Hsy & newy & Hty & Hny).
  exists y. rewrite Hy. split; [reflexivity|].
  split; [exact Hmy|]. split; [congruence|]. split; [congruence|].
  exists (newy ++ newx). split.
  - rewrite Hty, Htx. apply app_assoc.
  - apply Forall_app. split; [|exact Hnx].
    eapply Forall_impl; [exact Hny|]. intros z [Hz _]. congruence.
Qed.

(** C4: in a sequential transition the chronological trace has a point
    [switch] at which the primary element, still carrying the old stream,
    is at volume 0 and paused; at that point and at every point before it
    the new stream cannot be heard; the transitional element cannot be
    heard at any point; and at the end of the fade-in the primary element
    plays the new stream at the target volume. *)
Theorem sequential_transition_order (view : AudioPlayerState) (s : RadioStation)
    (w : World) :
  reachable w ->
  mounted w = true ->
  isCurrentlyPlaying view w = true ->
  el_src (audio w) <> Some (stream_url s) ->
  let r := playStation (mkOutcomes true true true) view s w in
  let w' := finish_fade (snd r) in
  fst r = Some true
  /\ (exists later switch earlier,
        trace w' = later ++ switch :: earlier ++ trace w
        /\ primaryThen switch
           = {| el_src := el_src (audio w); el_volume := 0; el_paused := true |}
        /\ Forall (fun x => stream_audible (stream_url s) x = false) (switch :: earlier)
        /\ Forall (fun x => audible (transitionalThen x) = false)
             (later ++ switch :: earlier))
  /\ audio w'
     = {| el_src := Some (stream_url s); el_volume := volume view; el_paused := false |}.
Proof.
  intros Hr Hm Hp Hsrc r w'.
  assert (Hr' : reachable w').
  { eapply reachable_step; [exact Hr|].
    eapply reachable_from_trans;
      [apply reachable_from_playStation | apply reachable_from_finish_fade]. }
  destruct (playStation_seq_ok view s w Hm Hp)
    as (y & Hy & Hmy & Hcy & Hsy & newy & Hty & Hny).
  subst w' r. rewrite Hy in *. cbn [fst snd] in *. clear Hy.
  set (wf := finish _ _ _) in *. set (w' := finish_fade wf) in *.
  (* the world when [playStation] returns *)
  assert (Hwf : fading_in (nextTimer y) (volume view) (volume view / 50)
                  (2 * 1000 / 50) (Some (stream_url s)) false 0 wf
                /\ exists l1 sw l0,
                     trace wf = l1 ++ sw :: l0 ++ trace y
                     /\ primaryThen sw
                        = {| el_src := el_src (audio y); el_volume := 0;
                             el_paused := true |}
                     /\ Forall (fun z => el_src (primaryThen z) = el_src (audio y)) l0).
  { subst wf.
    destruct y as [m st [asrc avol ap] [csrc cvol cp] fr cfr t nt tk ntk se tr0].
    hook_cbn. injection Hcy as -> -> ->. subst m.
    unfold fading_in. unfold_hook. hook_cbn. destruct fr; hook_cbn.
    all: split; [repeat split; try reflexivity; apply lookup_insert_eq|].
    all: eexists [_; _; _; _; _; _; _; _; _], _, [_].
    all: split; [reflexivity|]; split; [reflexivity|].
    all: repeat constructor. }
  destruct Hwf as (Hin & l1 & sw & l0 & Htf & Hsw & Hl0).
  destruct (fading_in_done _ _ _ _ _ _ wf Hin) as (Haudio & _ & _).
  split; [reflexivity|]. split; [|exact Haudio].
  destruct (trace_extends wf w' (reachable_from_finish_fade wf)) as [l2 Hl2].
  exists (l2 ++ l1), sw, (l0 ++ newy).
  assert (Htrace : trace w' = (l2 ++ l1) ++ sw :: (l0 ++ newy) ++ trace w).
  { rewrite Hl2, Htf, Hty. rewrite <- !app_assoc. reflexivity. }
  destruct (transitional_silent_reachable w' Hr') as [_ Hsil].
  rewrite Htrace in Hsil.
  assert (Hquiet : Forall (fun x => audible (transitionalThen x) = false)
                     ((l2 ++ l1) ++ sw :: l0 ++ newy)).
  { apply Forall_app in Hsil. destruct Hsil as [HA Hsil].
    apply Forall_cons in Hsil. destruct Hsil as [Hs Hsil].
    apply Forall_app in Hsil. destruct Hsil as [HB _].
    apply Forall_app. split; [|apply Forall_cons; split].
    - eapply Forall_impl; [exact HA|]. intros x Hx. apply silent_not_audible, Hx.
    - apply silent_not_audible, Hs.
    - eapply Forall_impl; [exact HB|]. intros x Hx. apply silent_not_audible, Hx. }
  split; [exact Htrace|]. split; [congruence|]. split; [|exact Hquiet].
  apply Forall_app in Hquiet. destruct Hquiet as [_ Hquiet].
  assert (Hold : Forall (fun z => el_src (primaryThen z) = el_src (audio w))
                   (sw :: l0 ++ newy)).
  { apply Forall_cons. split; [rewrite Hsw; exact Hsy|].
    apply Forall_app. split; [|exact Hny].
    eapply Forall_impl; [exact Hl0|]. intros z Hz. congruence. }
  clear -Hquiet Hold Hsrc.
  induction Hold as [|z l Hz Hl IH]; [constructor|].
  apply Forall_cons in Hquiet. destruct Hquiet as [Hq Hquiet].
  apply Forall_cons. split; [|apply IH; exact Hquiet].
  unfold stream_audible. rewrite Hq, andb_false_r, orb_false_r.
  rewrite bool_decide_eq_false_2; [reflexivity|]. congruence.
Qed.

Lemma sequential_transition_order_witness :
  let w := playing_world in
  let view := state w in
  let r := playStation all_ok view stationB w in
  reachable w
  /\ isCurrentlyPlaying view w = true
  /\ fst r = Some true
  /\ audio (finish_fade (snd r))
     = {| el_src := Some (stream_url stationB); el_volume := volume view;
          el_paused := false |}.
Proof.
  intros w view r.
  assert (Hr : reachable w) by (exists playing_run; reflexivity).
  assert (Hm : mounted w = true) by (vm_compute; reflexivity).
  assert (Hp : isCurrentlyPlaying view w = true) by (vm_compute; reflexivity).
  assert (Hs : el_src (audio w) <> Some (stream_url stationB))
    by (vm_compute; discriminate).
  destruct (sequential_transition_order view stationB w Hr Hm Hp Hs) as (H1 & _ & H3).
  split; [exact Hr|]. split; [exact Hp|]. split; [exact H1 | exact H3].
Defined.

(** *** The current station *)




(** *** Click registration *)

(** C9, as the code has it: with the load and [play()] ready to succeed,
    a failing click registration makes [playStation] throw before anything
    is loaded; with the click registered the same call plays the station. *)
Lemma click_failure_blocks_playback :
  let w := mount init in
  let failing := playStation {| click_ok := false; load_ok := true; play_ok := true |}
                   initialState stationA w in
  let passing := playStation all_ok initialState stationA w in
  (fst failing = Some false
   /\ el_src (audio (snd failing)) = None
   /\ el_paused (audio (snd failing)) = true
   /\ currentStation (state (snd failing)) = None)
  /\ (fst passing = Some true
      /\ el_src (audio (snd passing)) = Some (stream_url stationA)
      /\ el_paused (audio (snd passing)) = false).
Proof. vm_compute. repeat split; reflexivity. Qed.

(** C9, amended: click registration is awaited before the load; when it
    fails, [playStation] sets the error state and throws, the station is
    not put into an element, nothing is loaded or played, and the current
    station stays what it was.  All the call did is the click itself and,
    on the direct branch, the silencing of the primary element. *)
Theorem click_failure_aborts (net : Outcomes) (view : AudioPlayerState)
    (s : RadioStation) (w : World) :
  mounted w = true ->
  click_ok net = false ->
  let r := playStation net view s w in
  fst r = Some false
  /\ el_src (audio (snd r)) = el_src (audio w)
  /\ el_src (crossfadeAudio (snd r)) = el_src (crossfadeAudio w)
  /\ currentStation (state (snd r)) = currentStation (state w)
  /\ error (state (snd r)) = Some "Failed to play radio station"%string
  /\ map obs (trace (snd r))
     = (if isCurrentlyPlaying view w
        then [OClick (stationuuid s)]
        else [OClick (stationuuid s); OSetVolume Primary 0; OPause Primary])
       ++ map obs (trace w).
Proof.
  intros Hm Hc r. subst r. destruct (isCurrentlyPlaying view w) eqn:Hp.
  - rewrite playStation_seq by assumption. rewrite Hc. cbn [negb fst snd].
    rewrite playStation_call_seq by assumption.
    destruct w as [m st [asrc avol ap] [csrc cvol cp] fr cfr t nt tk ntk se tr0].
    repeat split; reflexivity.
  - rewrite playStation_direct by assumption. rewrite Hc. cbn [negb fst snd].
    rewrite playStation_call_direct by assumption.
    destruct w as [m st [asrc avol ap] [csrc cvol cp] fr cfr t nt tk ntk se tr0].
    unfold_hook. hook_cbn. destruct fr; repeat split; reflexivity.
Qed.

Lemma click_failure_aborts_witness :
  let net := {| click_ok := false; load_ok := true; play_ok := true |} in
  let w := playing_world in
  mounted w = true
  /\ fst (playStation net (state w) stationB w) = Some false
  /\ el_src (audio (snd (playStation net (state w) stationB w)))
     = Some (stream_url stationA).
Proof.
  intros net w.
  assert (Hm : mounted w = true) by (vm_compute; reflexivity).
  destruct (click_failure_aborts net (state w) stationB w Hm eq_refl)
    as (H1 & H2 & _).
  split; [exact Hm|]. split; [exact H1|]. rewrite H2. vm_compute. reflexivity.
Defined.

(** *** Intervals *)

Ltac map_cases :=
  repeat match goal with
  | H : <[?a := _]> _ !! ?b = Some _ |- _ =>
      destruct (decide (a = b));
      [ subst; rewrite lookup_insert_eq in H
      | rewrite lookup_insert_ne in H by assumption ]
  | H : delete ?a _ !! ?b = Some _ |- _ =>
      destruct (decide (a = b));
      [ subst; rewrite lookup_delete_eq in H; discriminate
      | rewrite lookup_delete_ne in H by assumption ]
  | H : Some _ = Some _ |- _ => injection H as H; try subst
  end.

Ltac use_wf H1 H2 :=
  repeat match goal with
  | Hl : ?t !! ?i = Some ?iv |- _ =>
      lazymatch goal with
      | _ : (i < _)%nat |- _ => fail
      | _ => pose proof (H1 i iv Hl)
      end
  end;
  repeat match goal with
  | Hl : ?t !! ?i = Some ?iv, Hf : is_fade ?iv = true |- _ =>
      lazymatch goal with
      | _ : _ = Some i |- _ => fail
      | _ => pose proof (H2 i iv Hl Hf)
      end
  end.

Lemma timers_wf_exec (l : Label) (w : World) :
  timers_wf w -> timers_wf (exec l w).
Proof.
  unfold timers_wf.
  destruct w as [m st [asrc avol ap] [csrc cvol cp] fr cfr t nt tk ntk se tr0].
  hook_cbn. intros (H1 & H2 & H3).
  destruct l; unfold_hook; split_cases;
    (split; [|split]); hook_cbn; intros; map_cases; use_wf H1 H2;
    unfold is_fade in *; hook_cbn;
    repeat match goal with
    | H : ramp ?i = _, H' : context [ramp ?i] |- _ => rewrite H in H'
    | H : negb ?b = false |- _ => destruct b; [clear H | discriminate H]
    end;
    try solve [ eauto | lia | congruence | discriminate
              | exfalso; lia
              | eapply H3; eauto
              | eapply H2;
                [ eassumption
                | match goal with H : ramp _ = _ |- _ => rewrite H; reflexivity end ] ].
Qed.

Lemma timers_wf_reachable (w : World) : reachable w -> timers_wf w.
Proof.
  apply reachable_ind.
  - repeat split; intros; discriminate.
  - apply timers_wf_exec.
Qed.


Lemma cancelled_exec (id count : nat) (l : Label) (w : World) :
  cancelled id count w -> cancelled id count (exec l w).
Proof.
  unfold cancelled.
  destruct w as [m st [asrc avol ap] [csrc cvol cp] fr cfr t nt tk ntk se tr0].
  hook_cbn. intros (H1 & H2 & H3).
  destruct l; unfold_hook; split_cases;
    (split; [|split]); hook_cbn; cbn [fired_count obs];
    repeat match goal with
    | |- context [decide (?a = ?b)] =>
        destruct (decide (a = b)); [subst; congruence|]
    end;
    try solve [ assumption | lia
              | rewrite lookup_insert_ne by lia; assumption
              | rewrite lookup_insert_ne by congruence; assumption
              | rewrite lookup_delete_ne by congruence; assumption
              | rewrite lookup_insert_ne by lia;
                rewrite lookup_delete_ne by congruence; assumption
              | match goal with
                | |- delete ?a _ !! ?b = None =>
                    destruct (decide (a = b));
                    [ subst; apply lookup_delete_eq
                    | rewrite lookup_delete_ne by assumption; assumption ]
                | |- <[?c := _]> (delete ?a _) !! ?b = None =>
                    rewrite lookup_insert_ne by lia;
                    destruct (decide (a = b));
                    [ subst; apply lookup_delete_eq
                    | rewrite lookup_delete_ne by assumption; assumption ]
                end ].
Qed.

End AudioFacts.

(** * The timer and the player together *)

Module EngineFacts.
Import useAudioPlayer usePomodoro AudioFacts.

Lemma cancelled_run (id count : nat) (ls : list Label) :
  forall w, cancelled id count w -> cancelled id count (run ls w).
Proof.
  induction ls as [|l ls IH]; intros w H; [exact H|].
  cbn [run fold_left]. apply IH. apply cancelled_exec. exact H.
Qed.

(** [stop()] on a world with a fade ramp in [fadeIntervalRef]. *)
Lemma stop_cancels (w : World) (T : nat) (iv : Interval) :
  timers_wf w ->
  fadeIntervalRef w = Some T ->
  timers w !! T = Some iv ->
  currentStation (state (stop w)) = None
  /\ isPlaying (state (stop w)) = false
  /\ el_paused (audio (stop w)) = true
  /\ el_volume (audio (stop w)) = 0%Q
  /\ fadeIntervalRef (stop w) = None
  /\ (forall id iv', timers (stop w) !! id = Some iv' -> is_fade iv' = false)
  /\ cancelled T (fired_count T (trace w)) (stop w).
Proof.
  intros (H1 & H2 & H3) Hf Ht.
  assert (Hm : mounted w = true) by (apply (H3 T); exact Hf).
  destruct w as [m st [asrc avol ap] [csrc cvol cp] fr cfr t nt tk ntk se tr0].
  hook_cbn. subst. unfold_hook. hook_cbn.
  do 5 (split; [reflexivity|]). split.
  - intros id iv' Hl. destruct (decide (T = id)) as [->|Hne].
    + rewrite lookup_delete_eq in Hl. discriminate.
    + rewrite lookup_delete_ne in Hl by assumption.
      destruct (is_fade iv') eqn:E; [|reflexivity].
      specialize (H2 id iv' Hl E). congruence.
  - unfold cancelled. hook_cbn. cbn [fired_count obs].
    split; [apply lookup_delete_eq|]. split; [apply (H1 T iv Ht) | reflexivity].
Qed.

(** C7, as the code has it: [reset] calls [stop] only when its snapshot
    of the audio state shows something playing or a current station.  With
    a fade-out running on a silent player it leaves the interval alone, and
    the next callback of the ramp runs. *)
Lemma reset_leaves_idle_fade :
  let h := {| pstate := initialState DEFAULT_SETTINGS; timerRef := Some 7%nat;
              player := idle_fade_world |} in
  let h' := reset DEFAULT_SETTINGS (state idle_fade_world) h in
  fadeIntervalRef idle_fade_world = Some 1%nat
  /\ is_Some (timers idle_fade_world !! 1%nat)
  /\ currentStation (state (player h')) = None
  /\ isPlaying (state (player h')) = false
  /\ is_Some (timers (player h') !! 1%nat)
  /\ fired_count 1 (trace (exec (Fire 1) (player h')))
     = S (fired_count 1 (trace (player h'))).
Proof.
  vm_compute. repeat split; try reflexivity; eexists; reflexivity.
Qed.

(** A ramp of [crossfade] is not in [fadeIntervalRef]: [stop] does not
    clear it. *)
Lemma stop_leaves_crossfade :
  let w := run [Mount; CallPlayStation useAudioPlayer.initialState stationA;
                Settle 0 Click true; Settle 0 CanPlay true;
                CallCrossfade useAudioPlayer.initialState 1 4] init in
  crossfadeIntervalRef w = Some 1%nat
  /\ currentStation (state w) = Some stationA
  /\ is_Some (timers (stop w) !! 1%nat)
  /\ fired_count 1 (trace (exec (Fire 1) (stop w)))
     = S (fired_count 1 (trace (stop w))).
Proof.
  vm_compute. repeat split; try reflexivity; eexists; reflexivity.
Qed.

(** C7, amended: when [reset] is called while a ramp of [fadeIn] or
    [fadeOut] is in progress and its snapshot of the audio state shows
    something playing or a current station, the pomodoro state is the
    initial one, the current station is null, [isPlaying] is false, the
    primary element is paused at volume 0, no fade ramp is left, and
    whatever happens afterwards the cleared interval is never live again
    and its callback never runs again. *)
Theorem reset_cancels_fade (st : PomodoroSettings) (view : AudioPlayerState)
    (h : Pomodoro) (T : nat) (iv : Interval) :
  reachable (player h) ->
  fadeIntervalRef (player h) = Some T ->
  timers (player h) !! T = Some iv ->
  audio_active view = true ->
  let h' := reset st view h in
  pstate h' = initialState st
  /\ timerRef h' = None
  /\ currentStation (state (player h')) = None
  /\ isPlaying (state (player h')) = false
  /\ el_paused (audio (player h')) = true
  /\ el_volume (audio (player h')) = 0%Q
  /\ fadeIntervalRef (player h') = None
  /\ (forall id iv', timers (player h') !! id = Some iv' -> is_fade iv' = false)
  /\ (forall ls,
        timers (run ls (player h')) !! T = None
        /\ fired_count T (trace (run ls (player h')))
           = fired_count T (trace (player h))).
Proof.
  intros Hr Hf Ht Ha h'. subst h'. unfold reset. cbn [pstate timerRef player].
  rewrite Ha.
  destruct (stop_cancels (player h) T iv (timers_wf_reachable _ Hr) Hf Ht)
    as (H1 & H2 & H3 & H4 & H5 & H6 & H7).
  do 2 (split; [reflexivity|]).
  split; [exact H1|]. split; [exact H2|]. split; [exact H3|]. split; [exact H4|].
  split; [exact H5|]. split; [exact H6|].
  intros ls. destruct (cancelled_run T _ ls _ H7) as (Hc1 & _ & Hc3).
  split; assumption.
Qed.

Lemma reset_cancels_fade_witness :
  let h := {| pstate := initialState DEFAULT_SETTINGS; timerRef := Some 7%nat;
              player := mid_fade_world |} in
  let h' := reset DEFAULT_SETTINGS (state mid_fade_world) h in
  (isCrossfading (state mid_fade_world) = true
   /\ el_volume (audio mid_fade_world) == 4 # 10)
  /\ reachable (player h)
  /\ currentStation (state (player h')) = None
  /\ isPlaying (state (player h')) = false
  /\ timers (run (repeat (Fire 2) 30) (player h')) !! 2%nat = None.
Proof.
  intros h h'.
  assert (Hr : reachable (player h)) by (exists mid_fade_run; reflexivity).
  assert (Hf : fadeIntervalRef (player h) = Some 2%nat) by (vm_compute; reflexivity).
  assert (Ht : timers (player h) !! 2%nat
               = Some {| ramp := FadeOutRamp (8 # 10) (8 # 500) (Some 1%nat);
                         stepTime := 2000 # 50; currentStep := 26 |})
    by (vm_compute; reflexivity).
  assert (Ha : audio_active (state mid_fade_world) = true) by (vm_compute; reflexivity).
  destruct (reset_cancels_fade DEFAULT_SETTINGS (state mid_fade_world) h 2 _ Hr Hf Ht Ha)
    as (_ & _ & H3 & H4 & _ & _ & _ & _ & H9).
  split; [split; [vm_compute; reflexivity | vm_compute; reflexivity]|].
  split; [exact Hr|]. split; [exact H3|]. split; [exact H4|].
  exact (proj1 (H9 (repeat (Fire 2) 30))).
Defined.

(** *** The station search *)

Lemma randomIndexOf_lt (random : nat -> Q) (k n : nat) :
  (0 <= random k)%Q -> (random k < 1)%Q -> (0 < n)%nat ->
  (randomIndexOf random k n < n)%nat.
Proof.
  intros H0 H1 Hn. unfold randomIndexOf.
  set (q := (random k * inject_Z (Z.of_nat n))%Q).
  assert (Hn' : (0 < inject_Z (Z.of_nat n))%Q).
  { change (inject_Z 0 < inject_Z (Z.of_nat n))%Q. rewrite <- Zlt_Qlt. lia. }
  assert (Hlo : (0 <= Qfloor q)%Z).
  { rewrite <- (Qfloor_Z 0). apply Qfloor_resp_le.
    change (inject_Z 0) with 0%Q. apply Qmult_le_0_compat; [exact H0|].
    apply Qlt_le_weak. exact Hn'. }
  assert (Hhi : (Qfloor q < Z.of_nat n)%Z).
  { rewrite Zlt_Qlt. eapply Qle_lt_trans; [apply Qfloor_le|].
    unfold q. rewrite <- (Qmult_1_l (inject_Z (Z.of_nat n))) at 2.
    apply Qmult_lt_compat_r; assumption. }
  lia.
Qed.

Lemma tried_cons_tried (s : RadioStation) (ok : bool) (l : list Event) :
  tried (Tried s ok :: l) = tried l ++ [s].
Proof. reflexivity. Qed.

Lemma tried_cons_waited (l : list Event) : tried (Waited :: l) = tried l.
Proof. reflexivity. Qed.

Lemma tried_cons_selected (s : RadioStation) (l : list Event) :
  tried (Selected s :: l) = tried l.
Proof. reflexivity. Qed.

Lemma selected_cons_tried (s : RadioStation) (ok : bool) (l : list Event) :
  selected (Tried s ok :: l) = selected l.
Proof. reflexivity. Qed.

Lemma selected_cons_waited (l : list Event) : selected (Waited :: l) = selected l.
Proof. reflexivity. Qed.


Section Round.

Context {W : Type}.
Variable audio_playStation : RadioStation -> W -> option bool * W.
Variable onStationSelected : option (RadioStation -> W -> W).
Variable random : nat -> Q.
Variable sleep : W -> W.

Local Notation "'retry'" :=
  (usePomodoro.retry audio_playStation onStationSelected random sleep).

(** The loop ends within its fuel, sees at most [maxRetries - attempts]
    calls of [playStation] settle whatever they answer, and writes to no
    array but [availableStations]. *)
Lemma retry_bounded (fuel : nat) :
  forall (attempts a : nat) (r : Round (W:=W)),
    (attempts <= maxRetries)%nat -> (maxRetries < attempts + fuel)%nat ->
    fst (retry fuel attempts a r) <> OutOfFuel
    /\ (length (tried (log (snd (retry fuel attempts a r))))
        <= length (tried (log r)) + (maxRetries - attempts))%nat
    /\ (forall b, b <> a ->
          arrays (snd (retry fuel attempts a r)) !! b = arrays r !! b).
Proof.
  induction fuel as [|fuel IH]; intros attempts a r Hle Hfuel; [lia|].
  cbn [usePomodoro.retry].
  destruct ((attempts <? maxRetries)%nat && (0 <? length (array_at a r))%nat) eqn:Hc;
    [|cbn [fst snd]; split; [discriminate | split; [lia | reflexivity]]].
  apply andb_prop in Hc. destruct Hc as [Ha Hp]. apply Nat.ltb_lt in Ha.
  destruct (array_at a r !! randomIndexOf random attempts (length (array_at a r)))
    as [station|]; [|cbn [fst snd]; split; [discriminate | split; [lia | reflexivity]]].
  destruct (audio_playStation station (world r)) as [[[|]|] w].
  - destruct onStationSelected; cbn [fst snd log arrays];
      (split; [discriminate|]; split; [|reflexivity]);
      rewrite ?tried_cons_selected, tried_cons_tried, length_app; cbn [length]; lia.
  - match goal with |- context [usePomodoro.retry _ _ _ _ fuel ?n a ?r'] =>
      destruct (IH n a r') as (H1 & H2 & H3); [lia | lia |] end.
    split; [exact H1|]. split.
    + etransitivity; [exact H2|]. cbn [log].
      match goal with |- context [if ?b then _ else _] => destruct b end;
        cbn [app]; rewrite ?tried_cons_waited, tried_cons_tried, length_app;
        cbn [length]; lia.
    + intros b Hb. rewrite H3 by exact Hb. cbn [arrays].
      apply lookup_insert_ne. congruence.
  - cbn [fst snd log arrays]. split; [discriminate | split; [lia | reflexivity]].
Qed.

(** What the calls may rely on ([Inv]) and what a call that resolves
    guarantees ([Post]). *)
Variable Inv : W -> Prop.
Variable Post : RadioStation -> W -> Prop.

Hypothesis play_spec :
  forall s w, Inv w ->
    match fst (audio_playStation s w) with
    | Some true => Post s (snd (audio_playStation s w))
    | Some false => Inv (snd (audio_playStation s w))
    | None => True
    end.
Hypothesis sleep_inv : forall w, Inv w -> Inv (sleep w).


Hypothesis always_fails :
  forall s w, Inv w -> fst (audio_playStation s w) = Some false.
Hypothesis random_unit : forall k, (0 <= random k)%Q /\ (random k < 1)%Q.

(** With every call failing, the loop tries
    [min (maxRetries - attempts) (length pool)] stations, each taken out
    of the pool, and ends at the [console.error]. *)
Lemma retry_all_fail (fuel : nat) :
  forall (attempts a : nat) (r : Round (W:=W)),
    Inv (world r) ->
    (attempts <= maxRetries)%nat -> (maxRetries < attempts + fuel)%nat ->
    fst (retry fuel attempts a r) = AllFailed
    /\ exists calls,
         tried (log (snd (retry fuel attempts a r))) = tried (log r) ++ calls
         /\ length calls = Nat.min (maxRetries - attempts) (length (array_at a r))
         /\ calls ++ array_at a (snd (retry fuel attempts a r)) ≡ₚ array_at a r
         /\ selected (log (snd (retry fuel attempts a r))) = selected (log r).
Proof.
  induction fuel as [|fuel IH]; intros attempts a r HI Hle Hfuel; [lia|].
  cbn [usePomodoro.retry].
  destruct ((attempts <? maxRetries)%nat && (0 <? length (array_at a r))%nat) eqn:Hc.
  2:{ cbn [fst snd]. split; [reflexivity|]. exists []. rewrite app_nil_r.
      split; [reflexivity|]. split; [|split; reflexivity].
      apply andb_false_iff in Hc. destruct Hc as [Hc|Hc].
      - apply Nat.ltb_ge in Hc. cbn [length]. lia.
      - apply Nat.ltb_ge in Hc. cbn [length]. lia. }
  apply andb_prop in Hc. destruct Hc as [Ha Hp].
  apply Nat.ltb_lt in Ha. apply Nat.ltb_lt in Hp.
  set (i := randomIndexOf random attempts (length (array_at a r))).
  assert (Hi : (i < length (array_at a r))%nat).
  { apply randomIndexOf_lt; [apply random_unit | apply random_unit | exact Hp]. }
  destruct (lookup_lt_is_Some_2 _ _ Hi) as [station Hst]. rewrite Hst.
  pose proof (always_fails station (world r) HI) as Hf.
  pose proof (play_spec station (world r) HI) as Hs. rewrite Hf in Hs.
  destruct (audio_playStation station (world r)) as [res w]. cbn [fst snd] in Hf, Hs.
  subst res.
  match goal with |- context [usePomodoro.retry _ _ _ _ fuel ?n a ?r'] =>
    set (r2 := r') in *
  end.
  assert (HI2 : Inv (world r2)).
  { subst r2. cbn [world]. destruct (_ && _); [apply sleep_inv|]; exact Hs. }
  destruct (IH (S attempts) a r2 HI2) as (H1 & calls & H2 & H3 & H4 & H5);
    [lia | lia |].
  assert (Hpool : array_at a r2 = delete i (array_at a r)).
  { unfold array_at at 1. subst r2. cbn [arrays]. rewrite lookup_insert_eq.
    reflexivity. }
  assert (Hlog : tried (log r2) = tried (log r) ++ [station]
                 /\ selected (log r2) = selected (log r)).
  { subst r2. cbn [log].
    match goal with |- context [if ?b then _ else _] => destruct b end;
      cbn [app]; rewrite ?tried_cons_waited, ?selected_cons_waited,
        tried_cons_tried, selected_cons_tried; split; reflexivity. }
  destruct Hlog as [Hl1 Hl2].
  split; [exact H1|]. exists (station :: calls).
  split; [rewrite H2, Hl1, <- app_assoc; reflexivity|].
  split.
  { cbn [length]. rewrite H3, Hpool, length_delete by (eexists; exact Hst). lia. }
  split; [|congruence].
  cbn [app]. rewrite H4, Hpool. symmetry. apply delete_Permutation. exact Hst.
Qed.

End Round.

(** *** The search on the audio player *)

Lemma mounted_exec (l : Label) (w : World) :
  mounted w = true -> mounted (exec l w) = true.
Proof.
  destruct w as [m st [asrc avol ap] [csrc cvol cp] fr cfr t nt tk ntk se tr0].
  hook_cbn. intros ->. destruct l; unfold_hook; split_cases; reflexivity.
Qed.

Lemma mounted_reachable_from (w w' : World) :
  reachable_from w w' -> mounted w = true -> mounted w' = true.
Proof.
  intros [ls ->]. revert w. induction ls as [|l ls IH]; intros w Hm; [exact Hm|].
  cbn [run fold_left]. apply IH. apply mounted_exec. exact Hm.
Qed.

(** On a mounted player [playStation] resolves exactly when the three
    promises do, and then the station plays. *)
Lemma playStation_result (net : Outcomes) (view : AudioPlayerState)
    (s : RadioStation) (w : World) :
  mounted w = true ->
  fst (playStation net view s w) = Some (negb (fails net))
  /\ (fails net = false -> playing s (snd (playStation net view s w))).
Proof.
  intros Hm. destruct (isCurrentlyPlaying view w) eqn:Hp.
  - destruct net as [[] [] []];
      try (rewrite playStation_seq by assumption; cbn [click_ok load_ok play_ok negb fst];
           split; [reflexivity | discriminate]).
    destruct (playStation_seq_ok view s w Hm Hp)
      as (y & Hy & Hmy & Hcy & Hsy & newy & Hty & Hny).
    rewrite Hy. cbn [fst snd]. split; [reflexivity|]. intros _.
    destruct y as [m st [asrc avol ap] [csrc cvol cp] fr cfr t nt tk ntk se tr0].
    hook_cbn. injection Hcy as -> -> ->. subst m.
    unfold playing. unfold_hook. hook_cbn. destruct fr; hook_cbn;
      (split; [reflexivity|]; split; [reflexivity|]);
      eexists;
      (split; [do 5 apply list_elem_of_further; apply list_elem_of_here|]);
      split; reflexivity.
  - rewrite playStation_direct by assumption.
    rewrite playStation_call_direct by assumption. cbn [snd].
    destruct net as [[] [] []]; cbn [click_ok load_ok play_ok negb fst snd];
      (split; [reflexivity|]); try discriminate. intros _.
    destruct w as [m st [asrc avol ap] [csrc cvol cp] fr cfr t nt tk ntk se tr0].
    hook_cbn. subst m.
    unfold playing. unfold_hook. hook_cbn. destruct fr; hook_cbn;
      (split; [reflexivity|]; split; [reflexivity|]);
      eexists;
      (split; [apply list_elem_of_further; apply list_elem_of_here|]);
      split; reflexivity.
Qed.

Section OnThePlayer.

Variable answers : nat -> option Outcomes.
Variable view : AudioPlayerState.
Variable ls : list Label.



Lemma player_play_spec (s : RadioStation) (p : Player) :
  ready p ->
  match fst (audio_playStation answers view s p) with
  | Some true => started s (snd (audio_playStation answers view s p))
  | Some false => ready (snd (audio_playStation answers view s p))
  | None => True
  end.
Proof.
  unfold ready, started, audio_playStation. intros Hm.
  destruct (answers (snd p)) as [net|]; [|exact I].
  destruct (playStation_result net view s (fst p) Hm) as [Hres Hplay].
  pose proof (reachable_from_playStation net view s (fst p)) as Hreach.
  destruct (playStation net view s (fst p)) as [res w]. cbn [fst snd] in *.
  subst res. destruct (fails net); cbn [negb].
  - eapply mounted_reachable_from; eassumption.
  - apply Hplay. reflexivity.
Qed.

Lemma player_sleep (p : Player) : ready p -> ready (idle ls p).
Proof.
  unfold ready, idle. cbn [fst]. apply mounted_reachable_from. exists ls. reflexivity.
Qed.

Lemma player_always_fails :
  (forall k, exists net, answers k = Some net /\ fails net = true) ->
  forall s p, ready p -> fst (audio_playStation answers view s p) = Some false.
Proof.
  intros Hall s p Hm. unfold audio_playStation.
  destruct (Hall (snd p)) as (net & -> & Hf).
  destruct (playStation_result net view s (fst p) Hm) as [Hres _].
  destruct (playStation net view s (fst p)) as [res w]. cbn [fst] in *.
  rewrite Hres, Hf. reflexivity.
Qed.

End OnThePlayer.


(** C3: with a non-empty catalog on which every call of [playStation]
    throws, [playRandomStation] ends at its [console.error] (it returns,
    it does not throw), after [min 5 (length catalog)] calls and so never
    a sixth; each station tried was taken out of [availableStations], a
    fresh array, so that the stations tried and those left in the pool are
    together the catalog; the catalog array and every other array are as
    they were; and the callback was not called. *)
Theorem playRandomStation_all_fail
    (answers : nat -> option Outcomes) (view : AudioPlayerState) (ls : list Label)
    (onStationSelected : option (RadioStation -> Player -> Player))
    (random : nat -> Q) (stationsRef : nat) (r : Round (W:=Player))
    (catalog : list RadioStation) :
  (forall k, exists net, answers k = Some net /\ fails net = true) ->
  (forall k, (0 <= random k)%Q /\ (random k < 1)%Q) ->
  mounted (fst (world r)) = true ->
  arrays r !! stationsRef = Some catalog ->
  catalog <> [] ->
  let res := playRandomStation (audio_playStation answers view) onStationSelected
               random (idle ls) stationsRef r in
  fst (fst res) = AllFailed
  /\ exists a calls,
       snd (fst res) = Some a
       /\ a <> stationsRef
       /\ tried (log (snd res)) = tried (log r) ++ calls
       /\ length calls = Nat.min maxRetries (length catalog)
       /\ (length calls <= 5)%nat
       /\ calls ++ array_at a (snd res) ≡ₚ catalog
       /\ arrays (snd res) !! stationsRef = Some catalog
       /\ (forall b, b <> a -> arrays (snd res) !! b = arrays r !! b)
       /\ selected (log (snd res)) = selected (log r).
Proof.
  intros Hfail Hrand Hm Hcat Hne res. subst res. unfold playRandomStation.
  assert (Harr : array_at stationsRef r = catalog).
  { unfold array_at. rewrite Hcat. reflexivity. }
  rewrite Harr.
  destruct (Nat.eqb_spec (length catalog) 0) as [E|_].
  { destruct catalog; [contradiction | discriminate]. }
  set (a := fresh (dom (arrays r))).
  assert (Ha : a <> stationsRef).
  { intros E. apply (is_fresh (dom (arrays r))). fold a. rewrite E.
    apply elem_of_dom. eexists. exact Hcat. }
  set (r1 := {| arrays := <[a := catalog]> (arrays r); world := world r; log := log r |}).
  assert (Hpool : array_at a r1 = catalog).
  { unfold array_at, r1. cbn [arrays]. rewrite lookup_insert_eq. reflexivity. }
  pose proof (retry_all_fail (audio_playStation answers view) onStationSelected
                random (idle ls) ready (started)
                (player_play_spec answers view) (player_sleep ls)
                (player_always_fails answers view Hfail) Hrand
                (S maxRetries) 0 a r1 Hm (Nat.le_0_l _) (Nat.lt_succ_diag_r _))
    as (H1 & calls & H2 & H3 & H4 & H5).
  pose proof (retry_bounded (audio_playStation answers view) onStationSelected
                random (idle ls) (S maxRetries) 0 a r1
                (Nat.le_0_l _) (Nat.lt_succ_diag_r _))
    as (_ & _ & H6).
  destruct (retry _ _ _ _ (S maxRetries) 0 a r1) as [o r'].
  cbn [fst snd] in *. split; [exact H1|].
  exists a, calls. split; [reflexivity|]. split; [exact Ha|].
  split; [exact H2|].
  rewrite Hpool, Nat.sub_0_r in H3. split; [exact H3|].
  split; [rewrite H3; unfold maxRetries; lia|].
  split; [rewrite Hpool in H4; exact H4|].
  split.
  { rewrite H6 by congruence. unfold r1. cbn [arrays].
    rewrite lookup_insert_ne by exact Ha. exact Hcat. }
  split; [|exact H5].
  intros b Hb. rewrite H6 by exact Hb. unfold r1. cbn [arrays].
  apply lookup_insert_ne. congruence.
Qed.

Lemma playRandomStation_all_fail_witness :
  let res := playRandomStation
               (audio_playStation no_stream useAudioPlayer.initialState) None
               sample_random (idle []) 0 sample_round in
  mounted (fst (world sample_round)) = true
  /\ fst (fst res) = AllFailed
  /\ length (tried (log (snd res))) = 5%nat
  /\ arrays (snd res) !! 0%nat = Some sample_catalog.
Proof.
  intros res.
  assert (Hm : mounted (fst (world sample_round)) = true) by (vm_compute; reflexivity).
  assert (Hf : forall k, exists net, no_stream k = Some net /\ fails net = true)
    by (intros k; eexists; split; reflexivity).
  assert (Hr : forall k, (0 <= sample_random k)%Q /\ (sample_random k < 1)%Q).
  { intros k. unfold sample_random.
    destruct (k mod 3)%nat as [|[|]]; split; unfold Qle, Qlt; cbn; lia. }
  assert (Hc : arrays sample_round !! 0%nat = Some sample_catalog) by reflexivity.
  assert (Hne : sample_catalog <> []) by discriminate.
  destruct (playRandomStation_all_fail no_stream useAudioPlayer.initialState []
              None sample_random 0 sample_round sample_catalog Hf Hr Hm Hc Hne)
    as (H1 & a & calls & _ & _ & H2 & H3 & _ & _ & H4 & _).
  split; [exact Hm|]. split; [exact H1|]. split; [|exact H4].
  fold res in H2. rewrite H2. exact H3.
Defined.




End EngineFacts.

(** * More of the timer: start, pause, reset and the display *)

Module TimerFacts.
Import usePomodoro.

(** An invariant of [dispatch] holds after every session. *)
Lemma session_ind (st : PomodoroSettings) (P : Clock -> Prop) :
  (forall e c, P c -> P (dispatch st e c)) ->
  forall es c, P c -> P (session st es c).
Proof.
  intros Hstep es. induction es as [|e es IH]; intros c Hc; [exact Hc|].
  cbn [session fold_left]. apply IH. apply Hstep. exact Hc.
Qed.

(** *** The counters *)

(** The state a transition out of [s] returns, whether [tick] or [skip]
    makes it. *)
Lemma counters_ok_next (st : PomodoroSettings) (s : PomodoroState) (t : Z) (r : bool) :
  counters_ok st s ->
  counters_ok st
    (if decide (phase s = work) then
       {| phase := getNextPhase st (phase s) (completedSessions s);
          timeRemaining := t; isRunning := r;
          completedSessions := completedSessions s + 1;
          currentCycle := currentCycle s |}
     else
       {| phase := getNextPhase st (phase s) (completedSessions s);
          timeRemaining := t; isRunning := r;
          completedSessions := completedSessions s;
          currentCycle :=
            if decide (getNextPhase st (phase s) (completedSessions s) = work)
            then currentCycle s + 1 else currentCycle s |}).
Proof.
  intros (Hp & Hc & Hw & Hb). unfold counters_ok.
  destruct (decide (phase s = work)) as [E|E]; cbn [phase completedSessions currentCycle].
  - rewrite E. cbn [getNextPhase].
    destruct (rem_is_zero (completedSessions s + 1) (sessionsUntilLongBreak st)) eqn:R.
    + split; [discriminate|]. split; [lia|]. split; [discriminate|].
      intros _. split; [apply Hw; exact E|]. split; [lia|]. split; auto.
    + split; [discriminate|]. split; [lia|]. split; [discriminate|].
      intros _. split; [apply Hw; exact E|]. split; [lia|].
      split; discriminate.
  - assert (N : getNextPhase st (phase s) (completedSessions s) = work)
      by (destruct (phase s); [contradiction | reflexivity..]).
    rewrite N. destruct (decide (work = work)) as [_|F]; [|contradiction].
    split; [discriminate|]. split; [exact Hc|]. split; [|intros F; contradiction].
    intros _. destruct (Hb E) as (H1 & _). lia.
Qed.

Lemma counters_ok_dispatch (st : PomodoroSettings) (e : Call) (c : Clock) :
  counters_ok st (current c) -> counters_ok st (current (dispatch st e c)).
Proof.
  intros H. destruct e as [render audio|render|audio| |id]; cbn [dispatch].
  - unfold start. destruct (isRunning render); [exact H|]. exact H.
  - unfold pause. destruct (negb (isRunning render)); [exact H|]. exact H.
  - cbn [current]. unfold counters_ok, initialState. cbn.
    split; [discriminate|]. split; [lia|]. split; [reflexivity|]. intros F; contradiction.
  - unfold skip.
    pose proof (counters_ok_next st (current c)
                  (getDurationForPhase st (getNextPhase st (phase (current c))
                                             (completedSessions (current c))))
                  (isRunning (current c)) H) as K.
    destruct (decide (phase (current c) = work)); cbn [current]; exact K.
  - destruct (intervals c !! id) as [audio|]; [|exact H].
    unfold tick.
    destruct (timeRemaining (current c) - 1 <=? 0).
    + pose proof (counters_ok_next st (current c)
                    (getDurationForPhase st (getNextPhase st (phase (current c))
                                               (completedSessions (current c))))
                    (isRunning (current c)) H) as K.
      destruct (decide (phase (current c) = work)); cbn [current]; exact K.
    + cbn [current]. exact H.
Qed.

(** X1: whatever is clicked and however the ticks fall, the phase is
    never the pseudo-phase 'paused'; in a work phase [currentCycle] is
    [completedSessions + 1] and in a break the two are equal; and a break
    is the long one exactly when the number of completed sessions is a
    multiple of [sessionsUntilLongBreak]. *)
Theorem counters_invariant (st : PomodoroSettings) (es : list Call) :
  sessionsUntilLongBreak st <> 0 ->
  let s := current (session st es (boot st)) in
  phase s <> paused
  /\ 0 <= completedSessions s
  /\ (phase s = work -> currentCycle s = completedSessions s + 1)
  /\ (isBreak (phase s) ->
        currentCycle s = completedSessions s
        /\ 0 < completedSessions s
        /\ (phase s = longBreak
            <-> completedSessions s mod sessionsUntilLongBreak st = 0)).
Proof.
  intros HN s.
  assert (H : counters_ok st s).
  { subst s. apply (session_ind st (fun c => counters_ok st (current c))).
    - apply counters_ok_dispatch.
    - unfold counters_ok, boot, initialState. cbn.
      split; [discriminate|]. split; [lia|]. split; [reflexivity|].
      intros F; contradiction. }
  destruct H as (Hp & Hc & Hw & Hb).
  split; [exact Hp|]. split; [exact Hc|]. split; [exact Hw|].
  intros B. assert (E : phase s <> work) by (destruct B as [B|B]; rewrite B; discriminate).
  destruct (Hb E) as (H1 & H2 & H3). split; [exact H1|]. split; [exact H2|].
  rewrite H3, PomodoroFacts.rem_is_zero_mod by exact HN.
  apply Z.eqb_eq.
Qed.

Lemma counters_invariant_witness :
  let s := current (session DEFAULT_SETTINGS sample_session (boot DEFAULT_SETTINGS)) in
  phase s = longBreak /\ completedSessions s = 4 /\ currentCycle s = 4.
Proof.
  intros s.
  assert (HN : sessionsUntilLongBreak DEFAULT_SETTINGS <> 0) by (cbn; lia).
  destruct (counters_invariant DEFAULT_SETTINGS sample_session HN) as (_ & _ & _ & H).
  fold s in H.
  assert (E : phase s = longBreak) by (vm_compute; reflexivity).
  destruct (H (or_intror E)) as (H1 & _ & _).
  split; [exact E|]. split; [vm_compute; reflexivity|]. rewrite H1. vm_compute. reflexivity.
Defined.

(** *** The time on the clock *)

Lemma duration_pos (st : PomodoroSettings) (p : PomodoroPhase) :
  0 < workDuration st -> 0 < shortBreakDuration st -> 0 < longBreakDuration st ->
  60 <= getDurationForPhase st p.
Proof. intros. destruct p; cbn [getDurationForPhase]; lia. Qed.

Lemma time_ok_dispatch (st : PomodoroSettings) (e : Call) (c : Clock) :
  0 < workDuration st -> 0 < shortBreakDuration st -> 0 < longBreakDuration st ->
  time_ok st (current c) -> time_ok st (current (dispatch st e c)).
Proof.
  intros Hw Hs Hl H. unfold time_ok in *.
  pose proof (duration_pos st) as D.
  destruct e as [render audio|render|audio| |id]; cbn [dispatch].
  - unfold start. destruct (isRunning render); [exact H|]. exact H.
  - unfold pause. destruct (negb (isRunning render)); [exact H|]. exact H.
  - cbn [current]. unfold initialState. cbn. lia.
  - unfold skip. destruct (decide (phase (current c) = work));
      cbn [current phase timeRemaining];
      specialize (D (getNextPhase st (phase (current c)) (completedSessions (current c)))
                    Hw Hs Hl);
      lia.
  - destruct (intervals c !! id) as [audio|]; [|exact H].
    unfold tick.
    destruct (Z.leb_spec (timeRemaining (current c) - 1) 0).
    + destruct (decide (phase (current c) = work));
        cbn [current phase timeRemaining];
        specialize (D (getNextPhase st (phase (current c))
                         (completedSessions (current c))) Hw Hs Hl);
        lia.
    + cbn [current phase timeRemaining]. lia.
Qed.

(** X2: with durations of at least a minute, the time remaining is at
    every moment between 1 second and the full duration of the phase: the
    tick that would bring it to 0 goes straight to the next phase, so the
    state never holds 0. *)
Theorem timeRemaining_invariant (st : PomodoroSettings) (es : list Call) :
  0 < workDuration st -> 0 < shortBreakDuration st -> 0 < longBreakDuration st ->
  let s := current (session st es (boot st)) in
  1 <= timeRemaining s <= getDurationForPhase st (phase s).
Proof.
  intros Hw Hs Hl s. subst s.
  apply (session_ind st (fun c => time_ok st (current c))).
  - intros e c. apply time_ok_dispatch; assumption.
  - unfold time_ok, boot, initialState. cbn. lia.
Qed.

Lemma timeRemaining_invariant_witness :
  let s := current (session DEFAULT_SETTINGS sample_session (boot DEFAULT_SETTINGS)) in
  1 <= timeRemaining s <= 900.
Proof.
  intros s.
  assert (H : 1 <= timeRemaining s <= getDurationForPhase DEFAULT_SETTINGS (phase s)).
  { apply (timeRemaining_invariant DEFAULT_SETTINGS sample_session); cbn; lia. }
  assert (E : getDurationForPhase DEFAULT_SETTINGS (phase s) = 900)
    by (vm_compute; reflexivity).
  rewrite E in H. exact H.
Defined.

(** *** The tick interval *)

Lemma synced_dispatch (st : PomodoroSettings) (e : Call) (c : Clock) :
  latest e c -> synced c -> synced (dispatch st e c).
Proof.
  intros L HS. pose proof HS as [H1 H2].
  assert (Hclear : forall id, ~ is_Some (clearTimer c !! id)).
  { intros id. unfold clearTimer. destruct (timer c) as [h|] eqn:Eh.
    - destruct (decide (h = id)) as [->|Hne].
      + rewrite lookup_delete_eq. intros [? ?]; discriminate.
      + rewrite lookup_delete_ne by exact Hne. rewrite H2. congruence.
    - rewrite H2. congruence. }
  destruct e as [render audio|render|audio| |id]; cbn [dispatch latest] in *.
  - subst render. unfold start. destruct (isRunning (current c)) eqn:R; [exact HS|].
    assert (Hn : timer c = None).
    { destruct (timer c) eqn:Eh; [|reflexivity].
      assert (F : false = true) by (apply H1; eauto). discriminate. }
    split; cbn [current timer intervals isRunning].
    + split; eauto.
    + intros id. destruct (decide (nextHandle c = id)) as [->|Hne].
      * rewrite lookup_insert_eq. split; eauto.
      * rewrite lookup_insert_ne by exact Hne. rewrite H2, Hn.
        split; [discriminate | congruence].
  - subst render. unfold pause. destruct (isRunning (current c)) eqn:R; cbn [negb];
      [|exact HS].
    split; cbn [current timer intervals isRunning].
    + split; [discriminate | intros [? ?]; discriminate].
    + intros id. split; [intros F; destruct (Hclear id F) | discriminate].
  - split; cbn [current timer intervals isRunning initialState].
    + split; [discriminate | intros [? ?]; discriminate].
    + intros id. split; [intros F; destruct (Hclear id F) | discriminate].
  - unfold skip. destruct (decide (phase (current c) = work));
      split; cbn [current timer intervals isRunning]; assumption.
  - destruct (intervals c !! id) as [audio|]; [|exact HS].
    unfold tick. destruct (timeRemaining (current c) - 1 <=? 0);
      [destruct (decide (phase (current c) = work))|];
      split; cbn [current timer intervals isRunning]; assumption.
Qed.

(** X3: when [start] and [pause] are called from the latest render, the
    timer runs exactly when [timerRef] holds an interval, and that
    interval is the only live one: no second tick interval is ever
    started and none is left behind by [pause] or [reset]. *)
Theorem one_interval_while_running (st : PomodoroSettings) (es : list Call) :
  in_sync st es (boot st) ->
  let c := session st es (boot st) in
  (isRunning (current c) = true <-> is_Some (timer c))
  /\ (forall id, is_Some (intervals c !! id) <-> timer c = Some id).
Proof.
  intros Hs c. subst c.
  assert (H0 : synced (boot st)).
  { split; cbn.
    - split; [discriminate | intros [? ?]; discriminate].
    - intros id. rewrite lookup_empty. split; [intros [? ?]; discriminate | discriminate]. }
  revert Hs H0. generalize (boot st).
  induction es as [|e es IH]; intros c Hs H0; [exact H0|].
  destruct Hs as [L Hs]. cbn [session fold_left]. apply IH; [exact Hs|].
  apply synced_dispatch; assumption.
Qed.

Lemma one_interval_while_running_witness :
  let c := session DEFAULT_SETTINGS start_pause_start (boot DEFAULT_SETTINGS) in
  timer c = Some 2%nat
  /\ is_Some (intervals c !! 2%nat)
  /\ ~ is_Some (intervals c !! 1%nat).
Proof.
  intros c.
  assert (Hs : in_sync DEFAULT_SETTINGS start_pause_start (boot DEFAULT_SETTINGS))
    by (vm_compute; repeat split).
  destruct (one_interval_while_running DEFAULT_SETTINGS start_pause_start Hs) as [_ H].
  fold c in H.
  assert (E : timer c = Some 2%nat) by (vm_compute; reflexivity).
  split; [exact E|]. split; [apply H; exact E|].
  rewrite H, E. intros F. discriminate F.
Defined.

(** *** The failsafe at the end of a break *)

Lemma closure_ok_dispatch (st : PomodoroSettings) (id : nat) (audio : AudioPlayerState)
    (e : Call) (c : Clock) :
  closure_ok id audio c -> closure_ok id audio (dispatch st e c).
Proof.
  intros [H1 H2].
  assert (Hclear : clearTimer c !! id = None \/ clearTimer c !! id = Some audio).
  { unfold clearTimer. destruct (timer c) as [h|]; [|exact H2].
    destruct (decide (h = id)) as [->|Hne].
    - left. apply lookup_delete_eq.
    - rewrite lookup_delete_ne by exact Hne. exact H2. }
  destruct e as [render a|render|a| |id']; cbn [dispatch].
  - unfold start. destruct (isRunning render); [split; assumption|].
    split; cbn [nextHandle intervals]; [lia|].
    rewrite lookup_insert_ne by lia. exact H2.
  - unfold pause. destruct (negb (isRunning render)); [split; assumption|].
    split; cbn [nextHandle intervals]; assumption.
  - split; cbn [nextHandle intervals]; assumption.
  - destruct (skip st (current c)). split; cbn [nextHandle intervals]; assumption.
  - destruct (intervals c !! id'); [|split; assumption].
    destruct (tick st a (current c)). split; cbn [nextHandle intervals]; assumption.
Qed.

(** [tick] calls [audio.stop()] at the end of a break, and only then,
    when its snapshot of the audio state shows something playing or a
    current station. *)
Lemma tick_failsafe (st : PomodoroSettings) (audio : AudioPlayerState)
    (s : PomodoroState) :
  ForceStop ∈ snd (tick st audio s)
  <-> audio_active audio = true /\ timeRemaining s - 1 <= 0 /\ phase s <> work.
Proof.
  unfold tick, preTransition.
  destruct (Z.leb_spec (timeRemaining s - 1) 0) as [L|L];
    destruct (timeRemaining s - 1 =? 3);
    destruct (decide (phase s = work)) as [W|W];
    destruct (audio_active audio);
    cbn [snd app]; rewrite ?elem_of_cons, ?elem_of_nil;
    (split;
     [ intros F; repeat (destruct F as [F|F]); try discriminate F; try destruct F;
       repeat split; solve [assumption | lia]
     | intros (F1 & F2 & F3); try discriminate F1; try contradiction; try lia;
       auto ]).
Qed.

(** X4: the interval created by [start] keeps calling the [tick] of the
    render [start] was called in.  So the failsafe at the end of a break
    ([audio.stop()] when [audio.isPlaying || audio.currentStation]) reads
    the audio state as it was when the timer was started: whatever has
    happened since, a tick of that interval stops the audio exactly when
    it ends a break and the audio was active at the start. *)
Theorem failsafe_reads_start_render (st : PomodoroSettings) (es0 es : list Call)
    (render : PomodoroState) (audio : AudioPlayerState) :
  isRunning render = false ->
  let c0 := session st es0 (boot st) in
  let id := nextHandle c0 in
  let c := session st es (start render audio c0) in
  timer (start render audio c0) = Some id
  /\ exists new,
       issued (dispatch st (Tick id) c) = new ++ issued c
       /\ (ForceStop ∈ new
           <-> audio_active audio = true
               /\ is_Some (intervals c !! id)
               /\ timeRemaining (current c) - 1 <= 0
               /\ phase (current c) <> work).
Proof.
  intros Hr c0 id c.
  split; [unfold start; rewrite Hr; reflexivity|].
  assert (H : closure_ok id audio c).
  { subst c. apply session_ind; [intros; apply closure_ok_dispatch; assumption|].
    unfold start. rewrite Hr. split; cbn [nextHandle intervals]; [subst id; lia|].
    right. apply lookup_insert_eq. }
  destruct H as [_ [H|H]]; cbn [dispatch]; rewrite H.
  - exists []. split; [reflexivity|]. rewrite elem_of_nil.
    split; [intros [] | intros (_ & [? F] & _); discriminate F].
  - pose proof (tick_failsafe st audio (current c)) as K.
    destruct (tick st audio (current c)) as [s fx]. cbn [issued snd] in *.
    exists (rev fx). split; [reflexivity|].
    assert (R : ForceStop ∈ rev fx <-> ForceStop ∈ fx).
    { rewrite !list_elem_of_In. symmetry. apply in_rev. }
    rewrite R, K. split.
    + intros (F1 & F2 & F3). repeat split; eauto.
    + intros (F1 & _ & F2 & F3). repeat split; assumption.
Qed.

Lemma failsafe_reads_start_render_witness :
  let c := session DEFAULT_SETTINGS quiet_break
             (start (initialState DEFAULT_SETTINGS) useAudioPlayer.initialState
                (boot DEFAULT_SETTINGS)) in
  (phase (current c) = shortBreak /\ timeRemaining (current c) = 1)
  /\ ForceStop ∉ issued (dispatch DEFAULT_SETTINGS (Tick 1) c).
Proof.
  intros c.
  split; [split; vm_compute; reflexivity|].
  destruct (failsafe_reads_start_render DEFAULT_SETTINGS [] quiet_break
              (initialState DEFAULT_SETTINGS) useAudioPlayer.initialState eq_refl)
    as (_ & new & E & H).
  change (issued (dispatch DEFAULT_SETTINGS (Tick 1) c) = new ++ issued c) in E.
  rewrite E, elem_of_app. intros [F|F].
  - apply H in F. destruct F as (F & _). discriminate F.
  - assert (I : issued c = [StopWithFade 3; SearchStation]) by (vm_compute; reflexivity).
    rewrite I in F.
    repeat match goal with
    | F : _ ∈ _ :: _ |- _ => apply elem_of_cons in F; destruct F as [F|F]; [discriminate F|]
    end.
    apply elem_of_nil in F. exact F.
Defined.

(** *** The display *)

Lemma formatTime_table :
  forallb (fun n => String.eqb (formatTime (Z.of_nat n)) (clock_digits (Z.of_nat n)))
          (seq 0 (Z.to_nat 6000)) = true.
Proof. vm_compute. reflexivity. Qed.

(** X5: for a time below 100 minutes [formatTime] gives exactly five
    characters: the two digits of the minutes, a colon, and the two digits
    of the seconds within the minute. *)
Theorem formatTime_digits (seconds : Z) :
  0 <= seconds < 6000 ->
  formatTime seconds = clock_digits seconds.
Proof.
  intros H. pose proof formatTime_table as T.
  rewrite forallb_forall in T.
  specialize (T (Z.to_nat seconds)).
  rewrite Z2Nat.id in T by lia.
  apply String.eqb_eq, T, in_seq. lia.
Qed.

Lemma formatTime_digits_witness :
  formatTime 1500 = "25:00"%string.
Proof. rewrite (formatTime_digits 1500) by lia. reflexivity. Defined.

Lemma length_padStart (n : nat) (c : ascii) (s : string) :
  String.length (padStart n c s) = Nat.max n (String.length s).
Proof.
  unfold padStart.
  assert (L : forall l s', String.length (string_of_list_ascii l ++ s')
                            = (length l + String.length s')%nat).
  { induction l as [|a l IH]; intros s'; simpl; [reflexivity|]. rewrite IH. reflexivity. }
  rewrite L, repeat_length. lia.
Qed.

Lemma length_append (a b : string) :
  String.length (a ++ b) = (String.length a + String.length b)%nat.
Proof. induction a as [|c a IH]; simpl; [reflexivity|]. rewrite IH. reflexivity. Qed.

(** A number written with at most two characters is below 100. *)
Lemma short_numbers (z : Z) :
  0 <= z -> (String.length (toString z) <= 2)%nat -> z < 100.
Proof.
  intros Hz Hl. unfold toString in Hl.
  rewrite <- (DecimalZ.of_to z).
  destruct (Z.to_int z) as [u|u] eqn:E.
  - destruct u as [|u|u|u|u|u|u|u|u|u|u]; cbn in *; try lia;
      destruct u as [|u|u|u|u|u|u|u|u|u|u]; cbn in *; try lia;
      destruct u as [|u|u|u|u|u|u|u|u|u|u]; cbn in *; try lia.
  - destruct z; cbn in E; try discriminate E. lia.
Qed.

(** X6: [padStart] pads, it does not cut: from 100 minutes on the minutes
    take three characters or more and the display is longer than
    [MM:SS]. *)
Theorem formatTime_long_phase (seconds : Z) :
  6000 <= seconds ->
  (6 <= String.length (formatTime seconds))%nat.
Proof.
  intros H. unfold formatTime. cbv zeta.
  rewrite !length_append, !length_padStart. cbn [String.length].
  assert (Hm : 100 <= seconds / 60) by (apply Z.div_le_lower_bound; lia).
  assert (Hl : ~ (String.length (toString (seconds / 60)) <= 2)%nat).
  { intros F. apply short_numbers in F; lia. }
  lia.
Qed.

Lemma formatTime_long_phase_witness :
  formatTime 6000 = "100:00"%string /\ (6 <= String.length (formatTime 6000))%nat.
Proof.
  split; [vm_compute; reflexivity|]. apply (formatTime_long_phase 6000). lia.
Defined.

End TimerFacts.

(** * More of the station search *)

Module SearchFacts.
Import useAudioPlayer usePomodoro AudioFacts EngineFacts.

Section AnyRound.

Context {W : Type}.
Variable audio_playStation : RadioStation -> W -> option bool * W.
Variable onStationSelected : option (RadioStation -> W -> W).
Variable random : nat -> Q.
Variable sleep : W -> W.

Local Notation "'retry'" :=
  (usePomodoro.retry audio_playStation onStationSelected random sleep).

(** Whatever the calls answer, the stations the loop tried were picked
    from the pool, each from a different place of it. *)
Lemma retry_picks (fuel : nat) :
  forall (attempts a : nat) (r : Round (W:=W)),
    exists calls rest,
      tried (log (snd (retry fuel attempts a r))) = tried (log r) ++ calls
      /\ calls ++ rest ≡ₚ array_at a r.
Proof.
  induction fuel as [|fuel IH]; intros attempts a r;
    [exists [], (array_at a r); rewrite app_nil_r; split; reflexivity|].
  cbn [usePomodoro.retry].
  destruct ((attempts <? maxRetries)%nat && (0 <? length (array_at a r))%nat);
    [|exists [], (array_at a r); rewrite app_nil_r; split; reflexivity].
  set (i := randomIndexOf random attempts (length (array_at a r))).
  destruct (array_at a r !! i) as [station|] eqn:Hst;
    [|exists [], (array_at a r); rewrite app_nil_r; split; reflexivity].
  destruct (audio_playStation station (world r)) as [[[|]|] w].
  - exists [station], (delete i (array_at a r)). split.
    + destruct onStationSelected; cbn [fst snd log];
        rewrite ?tried_cons_selected, tried_cons_tried; reflexivity.
    + cbn [app]. symmetry. apply delete_Permutation. exact Hst.
  - match goal with |- context [usePomodoro.retry _ _ _ _ fuel ?n a ?r'] =>
      set (r2 := r') in *; destruct (IH n a r2) as (calls & rest & H1 & H2)
    end.
    assert (Hpool : array_at a r2 = delete i (array_at a r)).
    { unfold array_at at 1. subst r2. cbn [arrays]. rewrite lookup_insert_eq.
      reflexivity. }
    assert (Hlog : tried (log r2) = tried (log r) ++ [station]).
    { subst r2. cbn [log].
      match goal with |- context [if ?b then _ else _] => destruct b end;
        cbn [app]; rewrite ?tried_cons_waited, tried_cons_tried; reflexivity. }
    exists (station :: calls), rest. split.
    + rewrite H1, Hlog, <- app_assoc. reflexivity.
    + cbn [app]. rewrite H2, Hpool. symmetry. apply delete_Permutation. exact Hst.
  - exists [], (array_at a r). rewrite app_nil_r. split; reflexivity.
Qed.

(** When every call of [playStation] settles and [Math.random] stays in
    [[0, 1)], the loop leaves through one of its two exits: the [return]
    after a station played or the end of the [while]. *)
Lemma retry_returns (fuel : nat) :
  forall (attempts a : nat) (r : Round (W:=W)),
    (forall s w, fst (audio_playStation s w) <> None) ->
    (forall k, (0 <= random k)%Q /\ (random k < 1)%Q) ->
    (attempts <= maxRetries)%nat -> (maxRetries < attempts + fuel)%nat ->
    returned (fst (retry fuel attempts a r)).
Proof.
  induction fuel as [|fuel IH]; intros attempts a r Hs Hr Hle Hfuel; [lia|].
  cbn [usePomodoro.retry].
  destruct ((attempts <? maxRetries)%nat && (0 <? length (array_at a r))%nat) eqn:Hc;
    [|right; left; reflexivity].
  apply andb_prop in Hc. destruct Hc as [Ha Hp].
  apply Nat.ltb_lt in Ha. apply Nat.ltb_lt in Hp.
  set (i := randomIndexOf random attempts (length (array_at a r))).
  assert (Hi : (i < length (array_at a r))%nat).
  { apply randomIndexOf_lt; [apply Hr | apply Hr | exact Hp]. }
  destruct (lookup_lt_is_Some_2 _ _ Hi) as [station Hst]. rewrite Hst.
  pose proof (Hs station (world r)) as Hsettles.
  destruct (audio_playStation station (world r)) as [[[|]|] w];
    cbn [fst] in Hsettles; [| |contradiction].
  - destruct onStationSelected; right; right; eexists; reflexivity.
  - apply IH; [exact Hs | exact Hr | lia | lia].
Qed.

(** X7: whatever [playStation] answers and whatever [Math.random]
    returns, a round of [playRandomStation] on a catalog without
    duplicates settles at most 5 calls of [playStation], each on a station
    of the catalog and no two on the same station, and leaves the catalog
    array as it was.  The loop needs no more than the six iterations the
    model gives it, and when every call of [playStation] settles and
    [Math.random] stays in [[0, 1)], the round returns: after a station
    played, at the [console.error] after the loop, or at once on an empty
    catalog.  It hangs only on a [playStation] that never settles. *)
Theorem playRandomStation_never_repeats (stationsRef : nat) (r : Round (W:=W))
    (catalog : list RadioStation) :
  arrays r !! stationsRef = Some catalog ->
  NoDup catalog ->
  let res := playRandomStation audio_playStation onStationSelected random sleep
               stationsRef r in
  fst (fst res) <> OutOfFuel
  /\ ((forall s w, fst (audio_playStation s w) <> None) ->
      (forall k, (0 <= random k)%Q /\ (random k < 1)%Q) ->
      returned (fst (fst res)))
  /\ arrays (snd res) !! stationsRef = Some catalog
  /\ exists calls,
       tried (log (snd res)) = tried (log r) ++ calls
       /\ (length calls <= 5)%nat
       /\ NoDup calls
       /\ (forall s, s ∈ calls -> s ∈ catalog).
Proof.
  intros Hcat Hn res. subst res. unfold playRandomStation.
  assert (Harr : array_at stationsRef r = catalog).
  { unfold array_at. rewrite Hcat. reflexivity. }
  rewrite Harr.
  destruct (length catalog =? 0)%nat.
  { cbn [fst snd]. split; [discriminate|].
    split; [intros _ _; left; reflexivity|]. split; [exact Hcat|].
    exists []. rewrite app_nil_r. split; [reflexivity|]. split; [cbn; lia|].
    split; [apply NoDup_nil; exact I|]. intros s Hs. apply elem_of_nil in Hs. destruct Hs. }
  set (a := fresh (dom (arrays r))).
  assert (Ha : a <> stationsRef).
  { intros E. apply (is_fresh (dom (arrays r))). fold a. rewrite E.
    apply elem_of_dom. eexists. exact Hcat. }
  set (r1 := {| arrays := <[a := catalog]> (arrays r); world := world r; log := log r |}).
  assert (Hpool : array_at a r1 = catalog).
  { unfold array_at, r1. cbn [arrays]. rewrite lookup_insert_eq. reflexivity. }
  destruct (retry_picks (S maxRetries) 0 a r1) as (calls & rest & H1 & H2).
  pose proof (retry_bounded audio_playStation onStationSelected random sleep
                (S maxRetries) 0 a r1 (Nat.le_0_l _) (Nat.lt_succ_diag_r _))
    as (H3 & H4 & H5).
  pose proof (fun Hs Hr =>
                retry_returns (S maxRetries) 0 a r1 Hs Hr
                  (Nat.le_0_l _) (Nat.lt_succ_diag_r _))
    as H6.
  destruct (retry (S maxRetries) 0 a r1) as [o r'].
  cbn [fst snd] in *. split; [exact H3|]. split; [exact H6|]. split.
  { rewrite H5 by congruence. unfold r1. cbn [arrays].
    rewrite lookup_insert_ne by exact Ha. exact Hcat. }
  exists calls. split; [exact H1|].
  rewrite Hpool in H2. split.
  { rewrite H1, length_app in H4. unfold r1 in H4. cbn [log] in H4.
    unfold maxRetries in H4. lia. }
  assert (Hnd : NoDup (calls ++ rest)) by (rewrite H2; exact Hn).
  apply NoDup_app in Hnd. destruct Hnd as (Hnd & _ & _).
  split; [exact Hnd|].
  intros s Hs. rewrite <- H2. apply elem_of_app. left. exact Hs.
Qed.

End AnyRound.

Lemma settle_done (tid : nat) (a : Awaited) (ok : bool) (w : World) :
  tasks w !! tid = None -> exec (Settle tid a ok) w = w.
Proof. intros H. cbn [exec]. rewrite H. reflexivity. Qed.

Lemma await_fade_done (tid : nat) (w : World) :
  tasks w !! tid = None -> await_fade tid w = w.
Proof.
  intros H. unfold await_fade. generalize (S steps) as n.
  induction n as [|n IH]; [reflexivity|].
  rewrite Nat.iter_succ, IH. unfold await_step. rewrite H. reflexivity.
Qed.

(** A call that nothing interrupts settles, whatever the world it starts
    in. *)
Lemma playStation_settles (net : Outcomes) (view : AudioPlayerState)
    (s : RadioStation) (w : World) :
  fst (playStation net view s w) <> None.
Proof.
  destruct (mounted w) eqn:Hm.
  - rewrite (proj1 (playStation_result net view s w Hm)). discriminate.
  - unfold playStation, playStation_call. rewrite Hm. cbn [negb].
    unfold spawn. cbn [fst snd].
    set (tid := nextTask w).
    set (w0 := finish tid true (suspend tid (TPlayStation view s DirClick)
                                  (take_handle w))).
    assert (Ht : tasks w0 !! tid = None).
    { subst w0. destruct w. cbv [finish suspend take_handle update_settled
                                  update_tasks tasks].
      apply lookup_delete_eq. }
    assert (Hs : settled w0 !! tid = Some true).
    { subst w0. destruct w. cbv [finish suspend take_handle update_settled
                                  update_tasks settled].
      apply lookup_insert_eq. }
    rewrite (settle_done tid Click _ w0 Ht), (settle_done tid CanPlay _ w0 Ht),
      (await_fade_done tid w0 Ht), (settle_done tid PlayPromise _ w0 Ht).
    cbn [fst]. rewrite Hs. discriminate.
Qed.

Lemma audio_playStation_settles (answers : nat -> option Outcomes)
    (view : AudioPlayerState) :
  (forall k, answers k <> None) ->
  forall s p, fst (audio_playStation answers view s p) <> None.
Proof.
  intros Ha s p. unfold audio_playStation.
  specialize (Ha (snd p)). destruct (answers (snd p)) as [net|]; [|contradiction].
  pose proof (playStation_settles net view s (fst p)) as H.
  destruct (playStation net view s (fst p)) as [res w]. exact H.
Qed.

Lemma playRandomStation_never_repeats_witness :
  let res := playRandomStation
               (audio_playStation third_plays useAudioPlayer.initialState) None
               sample_random (idle []) 0 sample_round in
  NoDup sample_catalog
  /\ returned (fst (fst res))
  /\ length (tried (log (snd res))) = 3%nat
  /\ NoDup (tried (log (snd res))).
Proof.
  intros res.
  assert (Hn : NoDup sample_catalog).
  { unfold sample_catalog. cbn [map].
    repeat (apply NoDup_cons; split;
            [rewrite ?not_elem_of_cons; repeat split; try discriminate;
             apply not_elem_of_nil|]).
    apply NoDup_nil. exact I. }
  assert (Hs : forall s p,
             fst (audio_playStation third_plays useAudioPlayer.initialState s p)
             <> None).
  { apply audio_playStation_settles. intros k. unfold third_plays, no_stream.
    destruct (k <? 2)%nat; discriminate. }
  assert (Hr : forall k, (0 <= sample_random k)%Q /\ (sample_random k < 1)%Q).
  { intros k. unfold sample_random.
    destruct (k mod 3)%nat as [|[|]]; split; unfold Qle, Qlt; cbn; lia. }
  destruct (playRandomStation_never_repeats
              (audio_playStation third_plays useAudioPlayer.initialState) None
              sample_random (idle []) 0 sample_round sample_catalog eq_refl Hn)
    as (_ & Hret & _ & calls & H1 & _ & H3 & _).
  split; [exact Hn|]. split; [exact (Hret Hs Hr)|].
  split; [vm_compute; reflexivity|].
  fold res in H1. rewrite H1. exact H3.
Defined.

End SearchFacts.

(** * More of the audio player *)

Module PlayerFacts.
Import useAudioPlayer AudioFacts EngineFacts.

(** *** Who sets [isPlaying] *)

(** isPlaying *)
Lemma isPlaying_exec (l : Label) (w : World) :
  l <> Media play_event ->
  isPlaying (state w) = false -> isPlaying (state (exec l w)) = false.
Proof.
  intros Hl H. destruct w as [m [ip il v cs er ic] a ca fr cfr t nt tk ntk se tr0].
  hook_cbn. subst ip.
  destruct l as [| | | | | | | | | | | |e|]; try (destruct e; try contradiction);
    unfold_hook; split_cases; reflexivity.
Qed.

(** X8: [isPlaying] is set by the 'play' listener of the primary element
    and by nothing else: in a run in which the browser never dispatches
    that event the flag stays false, whatever is called and whatever
    [play()] resolves. *)
Theorem isPlaying_needs_play_event (ls : list Label) :
  Media play_event ∉ ls -> isPlaying (state (run ls init)) = false.
Proof.
  assert (G : forall w, isPlaying (state w) = false ->
                        Media play_event ∉ ls -> isPlaying (state (run ls w)) = false).
  { induction ls as [|l ls IH]; intros w Hw Hn; [exact Hw|].
    apply not_elem_of_cons in Hn. destruct Hn as [H1 H2].
    cbn [run fold_left]. apply IH; [|exact H2].
    apply isPlaying_exec; [congruence | exact Hw]. }
  apply G. reflexivity.
Qed.

Lemma isPlaying_needs_play_event_witness :
  el_paused (audio (run silent_events_run init)) = false
  /\ isPlaying (state (run silent_events_run init)) = false.
Proof.
  split; [vm_compute; reflexivity|].
  apply (isPlaying_needs_play_event silent_events_run).
  unfold silent_events_run. rewrite !not_elem_of_cons. repeat split; try discriminate.
  apply not_elem_of_nil.
Defined.

(** *** The range of the volumes *)

Lemma in_unit_0 : in_unit 0.
Proof. split; unfold Qle; cbn; lia. Qed.

Lemma in_unit_clamp (v : Q) : in_unit (Qmax 0 (Qmin 1 v)).
Proof.
  split.
  - apply Q.le_max_l.
  - apply Q.max_lub; [unfold Qle; cbn; lia | apply Q.le_min_l].
Qed.

Lemma step_nonneg (v : Q) : (0 <= v)%Q -> (0 <= v / 50)%Q.
Proof.
  intros H. apply Qle_shift_div_l; [reflexivity|]. rewrite Qmult_0_l. exact H.
Qed.

Lemma count_nonneg (k : nat) : (0 <= inject_Z (Z.of_nat k))%Q.
Proof. change 0%Q with (inject_Z 0). rewrite <- Zle_Qle. lia. Qed.

Lemma in_unit_fadeIn (targetVolume volumeStep : Q) (k : nat) :
  in_unit targetVolume -> (0 <= volumeStep)%Q ->
  in_unit (Qmin (volumeStep * inject_Z (Z.of_nat k)) targetVolume).
Proof.
  intros [H0 H1] Hs. split.
  - apply Q.min_glb; [|exact H0].
    apply Qmult_le_0_compat; [exact Hs | apply count_nonneg].
  - eapply Qle_trans; [apply Q.le_min_r | exact H1].
Qed.

Lemma in_unit_fadeOut (startVolume volumeStep : Q) (k : nat) :
  in_unit startVolume -> (0 <= volumeStep)%Q ->
  in_unit (Qmax (startVolume - volumeStep * inject_Z (Z.of_nat k)) 0).
Proof.
  intros [H0 H1] Hs. split.
  - apply Q.le_max_r.
  - apply Q.max_lub; [|unfold Qle; cbn; lia].
    pose proof (Qmult_le_0_compat _ _ Hs (count_nonneg k)). lra.
Qed.

Ltac volume_facts :=
  repeat match goal with
  | H : forall id iv, ?t !! id = Some iv -> ramp_ok iv, E : ?t !! ?i = Some ?v |- _ =>
      lazymatch goal with
      | _ : ramp_ok v |- _ => fail
      | _ => pose proof (H i v E)
      end
  | H : forall tid t, ?tk !! tid = Some t -> task_ok t, E : ?tk !! ?i = Some ?v |- _ =>
      lazymatch goal with
      | _ : task_ok v |- _ => fail
      | _ => pose proof (H i v E)
      end
  end;
  unfold ramp_ok, task_ok in *; hook_cbn;
  repeat match goal with
  | H : ramp ?i = _, H' : context [ramp ?i] |- _ => rewrite H in H'
  | H : _ /\ _ |- _ => destruct H
  end.

Ltac volume_goal :=
  first
    [ assumption
    | exact in_unit_0
    | exact I
    | apply in_unit_clamp
    | apply in_unit_fadeIn; assumption
    | apply in_unit_fadeOut; assumption
    | apply step_nonneg; assumption
    | split; assumption
    | match goal with H : in_unit _ |- _ => destruct H; split; assumption end
    | match goal with H : in_unit ?v |- (0 <= ?v / 50)%Q =>
        apply step_nonneg; exact (proj1 H) end
    | match goal with H : in_unit ?v |- in_unit (Qmin (?v / 50 * _) ?v) =>
        apply in_unit_fadeIn; [exact H | apply step_nonneg; exact (proj1 H)] end
    | match goal with H : in_unit ?v |- in_unit (Qmax (?v - ?v / 50 * _) 0) =>
        apply in_unit_fadeOut; [exact H | apply step_nonneg; exact (proj1 H)] end ].

Lemma volumes_ok_exec (l : Label) (w : World) :
  (forall view, view_of l = Some view -> in_unit (volume view)) ->
  from_element l ->
  volumes_ok w -> volumes_ok (exec l w).
Proof.
  unfold volumes_ok.
  destruct w as [m [ip il v cs er ic] [asrc avol ap] [csrc cvol cp] fr cfr t nt tk ntk se tr0].
  hook_cbn. intros Hl Hfrom (H1 & H2 & H3 & H4 & H5 & H6).
  destruct l; cbn [view_of] in Hl; cbn [from_element] in Hfrom;
    try (pose proof (Hl _ eq_refl) as Hview);
    unfold_hook; split_cases;
    (split; [|split; [|split; [|split; [|split]]]]); hook_cbn;
    try (intros ? ? Hlk; map_cases);
    volume_facts;
    repeat (apply Forall_cons; split; [unfold write_ok; hook_cbn|]);
    try volume_goal;
    try (unfold ramp_ok, task_ok; hook_cbn; try (split; volume_goal); volume_goal).
Qed.

Lemma volumes_ok_run (ls : list Label) :
  forall w renders,
    volumes_ok w ->
    Forall (fun r => in_unit (volume r)) renders ->
    rendered ls w renders ->
    Forall from_element ls ->
    volumes_ok (run ls w).
Proof.
  induction ls as [|l ls IH]; intros w renders Hw Hr Hs Hf; [exact Hw|].
  destruct Hs as [Hv Hs]. apply Forall_cons in Hf. destruct Hf as [Hf1 Hf].
  cbn [run fold_left].
  assert (Hw' : volumes_ok (exec l w)).
  { apply volumes_ok_exec; [|exact Hf1|exact Hw].
    intros view E. rewrite Forall_forall in Hr. apply Hr, Hv, E. }
  apply (IH _ (state (exec l w) :: renders)); [exact Hw'| |exact Hs|exact Hf].
  apply Forall_cons. split; [exact (proj1 Hw') | exact Hr].
Qed.

(** X9: volumes are numbers here, so a [setVolume(NaN)] is left out.
    In a run whose callbacks come from renders of the run, and in which
    the [fromAudio] handed to [crossfade] has the volume of a media
    element, the target volume and the volume of both elements of the hook
    are between 0 and 1 at every point, and so is every value the hook
    writes to a [volume] attribute, of its own elements or of those handed
    to [crossfade]: [setVolume] clamps, and the ramps of [fadeIn],
    [fadeOut] and [crossfade] stay between 0 and the volume they start
    from or aim at. *)
Theorem volumes_stay_in_range (ls : list Label) :
  rendered ls init [initialState] ->
  Forall from_element ls ->
  let w := run ls init in
  in_unit (volume (state w))
  /\ in_unit (el_volume (audio w))
  /\ in_unit (el_volume (crossfadeAudio w))
  /\ (forall x e v, x ∈ trace w -> obs x = OSetVolume e v -> in_unit v)
  /\ (forall x e v, x ∈ trace w -> obs x = OCallerVolume e v -> in_unit v).
Proof.
  intros Hs Hf w.
  assert (H0 : volumes_ok init).
  { unfold volumes_ok, init. hook_cbn.
    split; [split; unfold Qle; cbn; lia|].
    do 2 (split; [exact in_unit_0|]).
    split; [intros id iv H; rewrite lookup_empty in H; discriminate H|].
    split; [intros id iv H; rewrite lookup_empty in H; discriminate H | constructor]. }
  assert (Hr : Forall (fun r => in_unit (volume r)) [initialState]).
  { apply Forall_cons. split; [exact (proj1 H0) | constructor]. }
  destruct (volumes_ok_run ls init _ H0 Hr Hs Hf) as (H1 & H2 & H3 & _ & _ & H6).
  split; [exact H1|]. split; [exact H2|]. split; [exact H3|].
  split; intros x e v Hx Ho; rewrite Forall_forall in H6; specialize (H6 x Hx);
    unfold write_ok in H6; rewrite Ho in H6; exact H6.
Qed.

Lemma volumes_stay_in_range_witness :
  el_volume (audio (run loud_run init)) == 2 # 50
  /\ in_unit (el_volume (audio (run loud_run init)))
  /\ (forall x e v, x ∈ trace (run crossfade_run init) ->
         obs x = OCallerVolume e v -> in_unit v).
Proof.
  split; [vm_compute; reflexivity|]. split.
  - refine (proj1 (proj2 (volumes_stay_in_range loud_run _ _))).
    + unfold loud_run. cbn [rendered view_of].
      repeat (split;
              [ intros view E; first [discriminate E | injection E as <-];
                repeat first [apply list_elem_of_here | apply list_elem_of_further]
              | ]).
      exact I.
    + unfold loud_run. repeat (apply Forall_cons; split; [exact I|]). constructor.
  - refine (proj2 (proj2 (proj2 (proj2 (volumes_stay_in_range crossfade_run _ _))))).
    + unfold crossfade_run. cbn [rendered view_of app repeat].
      repeat (split;
              [ intros view E; first [discriminate E | injection E as <-];
                repeat first [apply list_elem_of_here | apply list_elem_of_further]
              | ]).
      exact I.
    + unfold crossfade_run. cbn [app repeat].
      repeat (apply Forall_cons; split;
              [first [exact I | split; unfold Qle; cbn; lia]|]).
      constructor.
Defined.

(** *** The intervals and the two refs *)

Lemma crossfade_wf_exec (l : Label) (w : World) :
  timers_wf w -> crossfade_wf w -> crossfade_wf (exec l w).
Proof.
  unfold timers_wf, crossfade_wf.
  destruct w as [m st [asrc avol ap] [csrc cvol cp] fr cfr t nt tk ntk se tr0].
  hook_cbn. intros (H1 & H2 & H3) H4.
  destruct l; unfold_hook; split_cases; hook_cbn; intros id' iv' Hlk Hfade;
    map_cases;
    repeat match goal with
    | Hl : ?t !! ?i = Some ?iv |- _ =>
        lazymatch goal with
        | _ : (i < _)%nat |- _ => fail
        | _ => pose proof (H1 i iv Hl)
        end
    end;
    unfold is_fade in *; hook_cbn;
    repeat match goal with
    | H : ramp ?i = _, H' : context [ramp ?i] |- _ => rewrite H in H'
    end;
    try solve [ eauto | lia | congruence | discriminate | exfalso; lia
              | eapply H4; eauto
              | exfalso;
                match goal with
                | Hl : t !! ?i = Some ?iv, Hf : _ = false |- _ =>
                    pose proof (H4 i iv Hl Hf); congruence
                end
              | exfalso;
                match goal with
                | Hl : t !! ?i = Some ?iv, Hr : ramp ?iv = _ |- _ =>
                    assert (fr = Some i)
                      by (eapply H2; [exact Hl | rewrite Hr; reflexivity]);
                    congruence
                end
              | match goal with
                | Hl : t !! ?i = Some ?iv, Hr : ramp ?iv = CrossfadeRamp _ _ |- _ =>
                    assert (cfr = Some i)
                      by (eapply H4; [exact Hl | rewrite Hr; reflexivity]);
                    congruence
                end ].
Qed.

Lemma crossfade_wf_reachable (w : World) : reachable w -> timers_wf w /\ crossfade_wf w.
Proof.
  revert w. apply (reachable_ind (fun w => timers_wf w /\ crossfade_wf w)).
  - split; [apply timers_wf_reachable; exists []; reflexivity|].
    intros id iv H. unfold init in H. cbn [timers] in H.
    rewrite lookup_empty in H. discriminate H.
  - intros l w [H1 H2]. split; [apply timers_wf_exec; exact H1|].
    apply crossfade_wf_exec; assumption.
Qed.

(** X10: every live interval is held by [fadeIntervalRef] or by
    [crossfadeIntervalRef], so the cleanup at unmount clears them all; it
    leaves the elements as they are (a stream that plays goes on
    playing). *)
Theorem unmount_clears_intervals (w : World) :
  reachable w ->
  (forall id iv, timers w !! id = Some iv ->
     fadeIntervalRef w = Some id \/ crossfadeIntervalRef w = Some id)
  /\ timers (unmount w) = ∅
  /\ audio (unmount w) = audio w.
Proof.
  intros Hr. destruct (crossfade_wf_reachable w Hr) as [(_ & H2 & _) H4].
  assert (H : forall id iv, timers w !! id = Some iv ->
                fadeIntervalRef w = Some id \/ crossfadeIntervalRef w = Some id).
  { intros id iv Hl. destruct (is_fade iv) eqn:E; [left | right]; eauto. }
  split; [exact H|].
  destruct w as [m st a ca fr cfr t nt tk ntk se tr0].
  unfold unmount. unfold_hook. hook_cbn.
  split; [|destruct fr, cfr; reflexivity].
  apply map_eq. intros i. rewrite lookup_empty.
  destruct fr as [f|], cfr as [c|]; hook_cbn;
    repeat match goal with
    | |- delete ?a _ !! ?b = None =>
        destruct (decide (a = b)) as [->|?];
        [apply lookup_delete_eq | rewrite lookup_delete_ne by assumption]
    end;
    (destruct (t !! i) as [iv|] eqn:E; [|reflexivity]);
    destruct (H i iv E) as [F|F]; congruence.
Qed.

Lemma unmount_clears_intervals_witness :
  is_Some (timers mid_fade_world !! 2%nat)
  /\ timers (unmount mid_fade_world) = ∅
  /\ el_paused (audio (unmount mid_fade_world)) = false.
Proof.
  assert (Hr : reachable mid_fade_world) by (exists mid_fade_run; reflexivity).
  destruct (unmount_clears_intervals mid_fade_world Hr) as (_ & H2 & H3).
  split; [vm_compute; eexists; reflexivity|]. split; [exact H2|].
  rewrite H3. vm_compute. reflexivity.
Defined.

(** *** Calls that wait for a fade-out *)

Ltac lookup_goal :=
  repeat match goal with
  | |- <[?a := _]> _ !! ?b = _ =>
      first [ rewrite lookup_insert_ne by first [lia | congruence]
            | rewrite (lookup_insert_eq _ a) ]
  | |- delete ?a _ !! ?b = _ =>
      first [ rewrite lookup_delete_ne by first [lia | congruence]
            | rewrite (lookup_delete_eq _ a) ]
  end.

Lemma stranded_exec (tid : nat) (t : Task) (l : Label) (w : World) :
  waits_for_fade t -> stranded tid t w -> stranded tid t (exec l w).
Proof.
  unfold stranded.
  destruct w as [m st [asrc avol ap] [csrc cvol cp] fr cfr tm nt tk ntk se tr0].
  hook_cbn. intros Hw (H1 & H2 & H3 & H4).
  destruct l; unfold_hook; split_cases;
    repeat match goal with
    | E : tk !! ?i = Some ?x |- _ =>
        lazymatch goal with
        | _ : i <> tid |- _ => fail
        | _ =>
            assert (i <> tid)
              by (intros ->; rewrite H1 in E; injection E as ->;
                  repeat match goal with p : PlayPoint |- _ => destruct p end;
                  cbn in *; try contradiction; try discriminate; congruence)
        end
    | E : tm !! ?i = Some ?iv, R : ramp ?iv = FadeOutRamp _ _ ?wt |- _ =>
        lazymatch goal with
        | _ : wt <> Some tid |- _ => fail
        | _ =>
            assert (wt <> Some tid)
              by (pose proof (H4 i iv E) as K; unfold waiter_of in K;
                  rewrite R in K; exact K)
        end
    end;
    (split; [|split; [|split]]); hook_cbn;
    try (intros id' iv' Hlk; map_cases; unfold waiter_of; hook_cbn);
    lookup_goal;
    try solve [ assumption | lia | congruence | discriminate
              | eapply H4; eassumption
              | intros F; injection F as F; lia
              | match goal with
                | E : tm !! ?i = Some ?iv |- waiter_of _ <> _ =>
                    exact (H4 i iv E)
                | E : tm !! ?i = Some ?iv |- match ramp ?iv with _ => _ end <> _ =>
                    exact (H4 i iv E)
                end ].
Qed.

Lemma stranded_run (tid : nat) (t : Task) (ls : list Label) :
  waits_for_fade t -> forall w, stranded tid t w -> stranded tid t (run ls w).
Proof.
  intros Hw. induction ls as [|l ls IH]; intros w H; [exact H|].
  cbn [run fold_left]. apply IH. apply stranded_exec; assumption.
Qed.

Lemma tasks_wf_exec (l : Label) (w : World) : tasks_wf w -> tasks_wf (exec l w).
Proof.
  unfold tasks_wf.
  destruct w as [m st [asrc avol ap] [csrc cvol cp] fr cfr tm nt tk ntk se tr0].
  hook_cbn. intros (H1 & H2).
  destruct l; unfold_hook; split_cases;
    repeat match goal with
    | E : tk !! ?i = Some ?x |- _ =>
        lazymatch goal with
        | _ : (i < ntk)%nat |- _ => fail
        | _ => destruct (H1 i x E)
        end
    end;
    split; hook_cbn; intros tid' x' Hlk; map_cases;
    repeat match goal with
    | E : tk !! ?i = Some ?x |- _ =>
        lazymatch goal with
        | _ : (i < ntk)%nat |- _ => fail
        | _ => destruct (H1 i x E)
        end
    | E : se !! ?i = Some ?x |- _ =>
        lazymatch goal with
        | _ : (i < ntk)%nat |- _ => fail
        | _ => pose proof (H2 i x E)
        end
    end;
    try split; lookup_goal;
    try solve [ assumption | lia | congruence | discriminate
              | eapply H1; eassumption | eapply H2; eassumption
              | match goal with
                | |- ?s !! ?i = None =>
                    destruct (s !! i) eqn:F; [apply H2 in F; lia | reflexivity]
                end ].
Qed.

Lemma tasks_wf_reachable (w : World) : reachable w -> tasks_wf w.
Proof.
  revert w. apply (reachable_ind tasks_wf).
  - split; intros tid x H; unfold init in H; cbn [tasks settled] in H;
      rewrite lookup_empty in H; discriminate H.
  - apply tasks_wf_exec.
Qed.

(** Clearing the fade interval strands whoever waits for it. *)
Lemma clearFadeInterval_strands (w : World) (tid : nat) (t : Task) :
  timers_wf w -> tasks_wf w -> tasks w !! tid = Some t ->
  stranded tid t (clearFadeInterval w).
Proof.
  intros (_ & H2 & _) (T1 & _) Ht. destruct (T1 tid t Ht) as [Hlt Hs].
  destruct w as [m st a ca fr cfr tm nt tk ntk se tr0].
  unfold stranded. unfold_hook. hook_cbn.
  assert (K : forall id iv, tm !! id = Some iv -> waiter_of iv <> Some tid ->
                waiter_of iv <> Some tid) by auto.
  destruct fr as [f|]; hook_cbn; (split; [exact Ht|]; split; [exact Hs|]; split; [exact Hlt|]);
    intros id iv Hl E; map_cases;
    assert (F : is_fade iv = true)
      by (unfold waiter_of in E; unfold is_fade; destruct (ramp iv); try discriminate E;
          reflexivity);
    specialize (H2 id iv Hl F); congruence.
Qed.

(** X11: the promise of [fadeOut] is resolved by the last callback of its
    interval and by nothing else.  When [stop] or [pause] clears that
    interval while [stopWithFade] or a sequential [playStation] awaits the
    fade-out, the call stays suspended whatever happens afterwards: its
    promise is never settled. *)
Theorem cleared_fade_strands_call (w : World) (tid : nat) (t : Task) (ls : list Label) :
  reachable w ->
  tasks w !! tid = Some t ->
  waits_for_fade t ->
  (tasks (run ls (stop w)) !! tid = Some t /\ settled (run ls (stop w)) !! tid = None)
  /\ (tasks (run ls (pause w)) !! tid = Some t
      /\ settled (run ls (pause w)) !! tid = None).
Proof.
  intros Hr Ht Hw.
  pose proof (clearFadeInterval_strands w tid t (timers_wf_reachable w Hr)
                (tasks_wf_reachable w Hr) Ht) as Hc.
  assert (Hn : stranded tid t w -> mounted w = false -> stranded tid t w) by auto.
  assert (H0 : mounted w = false -> stranded tid t w).
  { intros Hm. destruct (timers_wf_reachable w Hr) as (_ & H2 & H3).
    destruct (tasks_wf_reachable w Hr) as (T1 & _). destruct (T1 tid t Ht) as [Hlt Hs].
    split; [exact Ht|]. split; [exact Hs|]. split; [exact Hlt|].
    intros id iv Hl E.
    assert (F : is_fade iv = true)
      by (unfold waiter_of in E; unfold is_fade; destruct (ramp iv); try discriminate E;
          reflexivity).
    specialize (H2 id iv Hl F). specialize (H3 id H2). congruence. }
  assert (Hstop : stranded tid t (stop w)).
  { unfold stop. destruct (mounted w) eqn:Hm; cbn [negb]; [|apply H0; reflexivity].
    revert Hc. generalize (clearFadeInterval w). intros x Hx.
    destruct x as [m st a ca fr cfr tm nt tk ntk se tr0].
    unfold stranded in *. unfold_hook. hook_cbn. exact Hx. }
  assert (Hpause : stranded tid t (pause w)).
  { unfold pause. destruct (mounted w) eqn:Hm; cbn [negb]; [|apply H0; reflexivity].
    revert Hc. generalize (clearFadeInterval w). intros x Hx.
    destruct x as [m st a ca fr cfr tm nt tk ntk se tr0].
    unfold stranded in *. unfold_hook. hook_cbn. exact Hx. }
  split.
  - destruct (stranded_run tid t ls Hw _ Hstop) as (H1 & H2 & _). split; assumption.
  - destruct (stranded_run tid t ls Hw _ Hpause) as (H1 & H2 & _). split; assumption.
Qed.

Lemma cleared_fade_strands_call_witness :
  let t := TPlayStation (state playing_world) stationB SeqFadeOut in
  let w' := run (repeat (Fire 2) 60 ++ [Settle 1 PlayPromise true]) (stop mid_fade_world) in
  tasks mid_fade_world !! 1%nat = Some t
  /\ tasks w' !! 1%nat = Some t
  /\ settled w' !! 1%nat = None.
Proof.
  intros t w'.
  assert (Hr : reachable mid_fade_world) by (exists mid_fade_run; reflexivity).
  assert (Ht : tasks mid_fade_world !! 1%nat = Some t) by (vm_compute; reflexivity).
  split; [exact Ht|].
  exact (proj1 (cleared_fade_strands_call mid_fade_world 1 t
                  (repeat (Fire 2) 60 ++ [Settle 1 PlayPromise true]) Hr Ht I)).
Defined.

(** *** The ramp of a fade-in *)

Section FadeInValues.

Variables (id : nat) (targetVolume volumeStep time : Q).
Variables (src : option string) (p : bool).

Local Notation "'fading'" := (fading_in id targetVolume volumeStep time src p).

Lemma fading_in_value (k : nat) (x : World) :
  (k < steps)%nat -> fading k x ->
  el_volume (audio (fire_fade x))
  = Qmin (volumeStep * inject_Z (Z.of_nat k)) targetVolume.
Proof.
  intros Hk (Hf & Ht & Hsrc & Hp).
  unfold fire_fade. rewrite Hf. unfold fire. rewrite Ht. cbn [ramp currentStep].
  apply Nat.leb_gt in Hk. rewrite Hk.
  destruct x as [m st [asrc avol ap] [csrc cvol cp] fr cfr t nt tk ntk se tr0].
  unfold_hook. hook_cbn. reflexivity.
Qed.

Lemma fading_in_last (x : World) :
  fading steps x ->
  audio (fire_fade x) = {| el_src := src; el_volume := targetVolume; el_paused := p |}
  /\ fadeIntervalRef (fire_fade x) = None
  /\ timers (fire_fade x) !! id = None
  /\ state (fire_fade x) = state x.
Proof.
  intros (Hf & Ht & Hsrc & Hp).
  unfold fire_fade. rewrite Hf. unfold fire. rewrite Ht. cbn [ramp currentStep].
  rewrite Nat.leb_refl.
  destruct x as [m st [asrc avol ap] [csrc cvol cp] fr cfr t nt tk ntk se tr0].
  unfold_hook. hook_cbn. subst. hook_cbn.
  repeat split; try reflexivity. apply lookup_delete_eq.
Qed.

Lemma fading_in_state (k : nat) (x : World) :
  (k < steps)%nat -> fading k x -> state (fire_fade x) = state x.
Proof.
  intros Hk (Hf & Ht & Hsrc & Hp).
  unfold fire_fade. rewrite Hf. unfold fire. rewrite Ht. cbn [ramp currentStep].
  apply Nat.leb_gt in Hk. rewrite Hk.
  destruct x as [m st [asrc avol ap] [csrc cvol cp] fr cfr t nt tk ntk se tr0].
  unfold_hook. hook_cbn. reflexivity.
Qed.

(** From [k] callbacks in, the rest of the ramp. *)
Lemma fading_in_rest (n : nat) :
  forall (k : nat) (x : World),
    (k + n = steps)%nat -> fading k x ->
    audio (Nat.iter (S n) fire_fade x)
    = {| el_src := src; el_volume := targetVolume; el_paused := p |}
    /\ fadeIntervalRef (Nat.iter (S n) fire_fade x) = None
    /\ timers (Nat.iter (S n) fire_fade x) !! id = None
    /\ state (Nat.iter (S n) fire_fade x) = state x.
Proof.
  induction n as [|n IH]; intros k x Hk H.
  - replace k with steps in H by lia. cbn [Nat.iter nat_rect]. apply fading_in_last, H.
  - rewrite Nat.iter_succ_r.
    destruct (IH (S k) (fire_fade x)) as (H1 & H2 & H3 & H4);
      [lia | apply fading_in_step; [lia | exact H] |].
    rewrite H1, H2, H3, H4. rewrite (fading_in_state k x) by (first [lia | exact H]).
    repeat split; reflexivity.
Qed.

End FadeInValues.

Lemma fadeIn_starts (view : AudioPlayerState) (d : Q) (w : World) :
  mounted w = true ->
  fading_in (nextTimer w) (volume view) (volume view / 50) (d * 1000 / 50)
    (el_src (audio w)) (el_paused (audio w)) 0 (fadeIn view d w)
  /\ el_volume (audio (fadeIn view d w)) = 0%Q
  /\ state (fadeIn view d w) = state w.
Proof.
  intros Hm.
  destruct w as [m st [asrc avol ap] [csrc cvol cp] fr cfr t nt tk ntk se tr0].
  hook_cbn. subst m. unfold fading_in. unfold_hook. hook_cbn.
  destruct fr; hook_cbn; repeat split; try reflexivity; apply lookup_insert_eq.
Qed.

(** The value a callback of the ramp of [fadeIn] writes is between 0 and
    the target, and not below that of the callback before it. *)
Lemma ramp_bounds (v : Q) (k : nat) :
  (0 <= v)%Q ->
  (0 <= Qmin (v / 50 * inject_Z (Z.of_nat k)) v)%Q
  /\ (Qmin (v / 50 * inject_Z (Z.of_nat k)) v <= v)%Q
  /\ (Qmin (v / 50 * inject_Z (Z.of_nat k)) v
      <= Qmin (v / 50 * inject_Z (Z.of_nat (S k))) v)%Q.
Proof.
  intros Hv.
  pose proof (count_nonneg k) as Hq.
  assert (Hq' : (inject_Z (Z.of_nat k) <= inject_Z (Z.of_nat (S k)))%Q)
    by (rewrite <- Zle_Qle; lia).
  set (q := inject_Z (Z.of_nat k)) in *.
  set (q' := inject_Z (Z.of_nat (S k))) in *.
  assert (Hs : (0 <= v / 50)%Q).
  { apply Qle_shift_div_l; [reflexivity | lra]. }
  split; [|split].
  - apply Q.min_glb; [nra | exact Hv].
  - apply Q.le_min_r.
  - apply Q.min_le_compat_r. nra.
Qed.

(** X12: [fadeIn] sets the primary element to volume 0 and starts an
    interval.  Each of its first 50 callbacks writes a volume between 0
    and the target, not below the volume the element had before it, and
    leaves the interval running (the bounds come from [Math.min] and from
    the order of the products, not from how a double is rounded); the 51st
    writes the target itself and clears the interval.  The source and the
    paused flag of the element are not touched. *)
Theorem fadeIn_reaches_target (view : AudioPlayerState) (d : Q) (w : World) :
  mounted w = true ->
  (0 <= volume view)%Q ->
  let w0 := fadeIn view d w in
  el_volume (audio w0) = 0%Q
  /\ (forall k, (k < steps)%nat ->
        let before := Nat.iter k fire_fade w0 in
        let after := fire_fade before in
        (0 <= el_volume (audio after))%Q
        /\ (el_volume (audio after) <= volume view)%Q
        /\ (el_volume (audio before) <= el_volume (audio after))%Q
        /\ fadeIntervalRef after = Some (nextTimer w))
  /\ audio (finish_fade w0)
     = {| el_src := el_src (audio w); el_volume := volume view;
          el_paused := el_paused (audio w) |}
  /\ fadeIntervalRef (finish_fade w0) = None
  /\ timers (finish_fade w0) !! nextTimer w = None.
Proof.
  intros Hm Hv w0. subst w0.
  destruct (fadeIn_starts view d w Hm) as (H0 & Hz & _).
  split; [exact Hz|]. split.
  - intros k Hk. cbv zeta.
    pose proof (fading_in_iter _ _ _ _ _ _ k _ (Nat.lt_le_incl _ _ Hk) H0) as Hbefore.
    pose proof (fading_in_iter _ _ _ _ _ _ (S k) _ Hk H0) as Hafter.
    rewrite Nat.iter_succ in Hafter.
    rewrite (fading_in_value _ _ _ _ _ _ k _ Hk Hbefore).
    destruct (ramp_bounds (volume view) k Hv) as (B1 & B2 & B3).
    split; [exact B1|]. split; [exact B2|]. split; [|exact (proj1 Hafter)].
    destruct k as [|k].
    + cbn [Nat.iter nat_rect]. rewrite Hz. exact B1.
    + rewrite Nat.iter_succ.
      rewrite (fading_in_value _ _ _ _ _ _ k _ (Nat.lt_succ_l _ _ Hk)
                 (fading_in_iter _ _ _ _ _ _ k _
                    (Nat.lt_le_incl _ _ (Nat.lt_succ_l _ _ Hk)) H0)).
      apply (ramp_bounds (volume view) k Hv).
  - exact (fading_in_done _ _ _ _ _ _ _ H0).
Qed.

Lemma fadeIn_reaches_target_witness :
  let w0 := fadeIn initialState 3 (mount init) in
  (0 <= el_volume (audio (Nat.iter 26 fire_fade w0)))%Q
  /\ (el_volume (audio (Nat.iter 26 fire_fade w0)) <= 7 # 10)%Q
  /\ el_volume (audio (finish_fade w0)) = 7 # 10.
Proof.
  intros w0.
  destruct (fadeIn_reaches_target initialState 3 (mount init) eq_refl)
    as (_ & H2 & H3 & _).
  { unfold Qle; cbn; lia. }
  destruct (H2 25%nat) as (B1 & B2 & _); [unfold steps; lia|].
  rewrite <- Nat.iter_succ in B1, B2.
  split; [exact B1|]. split; [exact B2|].
  subst w0. rewrite H3. reflexivity.
Defined.

(** X13: the ramp of [fadeIn] aims at the volume of the render [fadeIn]
    was created in.  A [setVolume] during the ramp changes the target
    volume of the state (and, when its render saw the player playing and
    not crossfading, the element at once), but the callbacks that are left
    overwrite the element: at the end of the ramp it plays at the old
    target while the state shows the new one. *)
Theorem setVolume_during_fadeIn_is_undone (view view' : AudioPlayerState) (d v : Q)
    (k : nat) (w : World) :
  mounted w = true ->
  (k <= steps)%nat ->
  let x := setVolume view' v (Nat.iter k fire_fade (fadeIn view d w)) in
  let y := Nat.iter (S steps - k) fire_fade x in
  volume (state x) = Qmax 0 (Qmin 1 v)
  /\ (isPlaying view' = true -> isCrossfading view' = false ->
      el_volume (audio x) = Qmax 0 (Qmin 1 v))
  /\ el_volume (audio y) = volume view
  /\ volume (state y) = Qmax 0 (Qmin 1 v)
  /\ fadeIntervalRef y = None.
Proof.
  intros Hm Hk. cbv zeta.
  destruct (fadeIn_starts view d w Hm) as (H0 & _ & _).
  pose proof (fading_in_iter _ _ _ _ _ _ k _ Hk H0) as Hx0.
  assert (Hmx : mounted (Nat.iter k fire_fade (fadeIn view d w)) = true).
  { apply (mounted_reachable_from w); [|exact Hm].
    eapply reachable_from_trans; [apply (reachable_from_exec (CallFadeIn view d))|].
    apply reachable_from_iter, reachable_from_fire_fade. }
  clear H0.
  revert Hx0 Hmx. generalize (Nat.iter k fire_fade (fadeIn view d w)). intros x0 Hx0 Hmx.
  assert (Hx : fading_in (nextTimer w) (volume view) (volume view / 50) (d * 1000 / 50)
                 (el_src (audio w)) (el_paused (audio w)) k (setVolume view' v x0)
               /\ volume (state (setVolume view' v x0)) = Qmax 0 (Qmin 1 v)
               /\ (isPlaying view' = true -> isCrossfading view' = false ->
                   el_volume (audio (setVolume view' v x0)) = Qmax 0 (Qmin 1 v))).
  { destruct Hx0 as (Hf & Ht & Hsrc & Hp).
    destruct x0 as [m st [asrc avol ap] [csrc cvol cp] fr cfr t nt tk ntk se tr0].
    hook_cbn. subst m. unfold fading_in. unfold_hook. hook_cbn.
    destruct (isPlaying view' && negb (isCrossfading view')) eqn:Eb; hook_cbn;
      (split; [repeat split; assumption|]); (split; [reflexivity|]);
      intros E1 E2; rewrite E1, E2 in Eb; first [reflexivity | discriminate Eb]. }
  revert Hx. generalize (setVolume view' v x0). intros x (Hx & Hv & He).
  split; [exact Hv|]. split; [exact He|].
  replace (S steps - k)%nat with (S (steps - k)) by lia.
  destruct (fading_in_rest (nextTimer w) (volume view) (volume view / 50) (d * 1000 / 50)
              (el_src (audio w)) (el_paused (audio w)) (steps - k) k x)
    as (H1 & H2 & _ & H4); [lia | exact Hx |].
  rewrite H1, H2, H4. repeat split; try reflexivity. exact Hv.
Qed.

Lemma setVolume_during_fadeIn_is_undone_witness :
  let playing := {| isPlaying := true; isLoading := false; volume := 7 # 10;
                    currentStation := Some stationA; error := None;
                    isCrossfading := false |} in
  let x := setVolume playing (2 # 10)
             (Nat.iter 10 fire_fade (fadeIn initialState 3 (mount init))) in
  el_volume (audio x) == 2 # 10
  /\ el_volume (audio (Nat.iter 41 fire_fade x)) = 7 # 10
  /\ volume (state (Nat.iter 41 fire_fade x)) == 2 # 10.
Proof.
  intros playing x.
  destruct (setVolume_during_fadeIn_is_undone initialState playing 3 (2 # 10) 10
              (mount init) eq_refl) as (_ & H2 & H3 & H4 & _).
  { unfold steps. lia. }
  split; [|split].
  - subst x. rewrite (H2 eq_refl eq_refl). reflexivity.
  - exact H3.
  - change (S steps - 10)%nat with 41%nat in H4. subst x. rewrite H4. reflexivity.
Defined.

(** *** The fade-out of stopWithFade *)

Section StopRun.

Variables (tid id : nat) (startVolume volumeStep time : Q) (src : option string).

Local Notation "'winding'" := (stopping tid id startVolume volumeStep time src).

Lemma stopping_step (k : nat) (x : World) :
  (k < steps)%nat -> winding k x ->
  winding (S k) (await_step tid x)
  /\ el_volume (audio (await_step tid x))
     = Qmax (startVolume - volumeStep * inject_Z (Z.of_nat k)) 0.
Proof.
  intros Hk (Hm & Hsrc & Hf & Ht & Hw).
  unfold await_step. rewrite Hw. unfold fire_fade. rewrite Hf.
  unfold fire. rewrite Ht. cbn [ramp currentStep].
  apply Nat.leb_gt in Hk. rewrite Hk.
  destruct x as [m st [asrc avol ap] [csrc cvol cp] fr cfr t nt tk ntk se tr0].
  unfold stopping. unfold_hook. hook_cbn. subst.
  repeat split; try reflexivity; try assumption. apply lookup_insert_eq.
Qed.

Lemma stopping_iter (k : nat) (x : World) :
  (k <= steps)%nat -> winding 0 x -> winding k (Nat.iter k (await_step tid) x).
Proof.
  intros Hk H0. induction k as [|k IH]; [exact H0|].
  rewrite Nat.iter_succ. apply stopping_step; [lia|]. apply IH. lia.
Qed.

Lemma stopping_last (x : World) :
  winding steps x ->
  let y := await_step tid x in
  currentStation (state y) = None
  /\ isPlaying (state y) = false
  /\ error (state y) = None
  /\ volume (state y) = volume (state x)
  /\ el_paused (audio y) = true
  /\ el_volume (audio y) = 0%Q
  /\ el_src (audio y) = src
  /\ fadeIntervalRef y = None
  /\ timers y !! id = None
  /\ tasks y !! tid = None
  /\ settled y !! tid = Some true.
Proof.
  intros (Hm & Hsrc & Hf & Ht & Hw) y. subst y.
  unfold await_step. rewrite Hw. unfold fire_fade. rewrite Hf.
  unfold fire. rewrite Ht. cbn [ramp currentStep]. rewrite Nat.leb_refl.
  destruct x as [m st [asrc avol ap] [csrc cvol cp] fr cfr t nt tk ntk se tr0].
  unfold_hook. hook_cbn. subst. hook_cbn. rewrite Hw. hook_cbn.
  repeat split; try reflexivity;
    first [apply lookup_delete_eq | apply lookup_insert_eq].
Qed.

End StopRun.

Lemma stopWithFade_call_mounted (d : Q) (w : World) :
  mounted w = true ->
  fst (stopWithFade_call d w) = nextTask w
  /\ stopping (nextTask w) (nextTimer w) (el_volume (audio w)) (el_volume (audio w) / 50)
       (d * 1000 / 50) (el_src (audio w)) 0 (snd (stopWithFade_call d w))
  /\ state (snd (stopWithFade_call d w)) = state w
  /\ audio (snd (stopWithFade_call d w)) = audio w.
Proof.
  intros Hm.
  destruct w as [m st [asrc avol ap] [csrc cvol cp] fr cfr t nt tk ntk se tr0].
  hook_cbn. subst m. unfold stopping. unfold_hook. hook_cbn.
  destruct fr; hook_cbn; repeat split; try reflexivity; apply lookup_insert_eq.
Qed.

(** X14: [stopWithFade], with nothing else happening before its fade-out
    ends, always resolves, with the current station null and [isPlaying]
    false.  With the elements it also clears the error, leaves the primary
    element paused at volume 0 on the source it had, and leaves no fade
    interval; without them it touches neither the error nor anything
    else. *)
Theorem stopWithFade_completes (d : Q) (w : World) :
  let w' := stopWithFade d w in
  let tid := nextTask w in
  settled w' !! tid = Some true
  /\ tasks w' !! tid = None
  /\ currentStation (state w') = None
  /\ isPlaying (state w') = false
  /\ (mounted w = true ->
        error (state w') = None
        /\ audio w' = {| el_src := el_src (audio w); el_volume := 0; el_paused := true |}
        /\ fadeIntervalRef w' = None
        /\ timers w' !! nextTimer w = None)
  /\ (mounted w = false ->
        error (state w') = error (state w)
        /\ audio w' = audio w
        /\ timers w' = timers w).
Proof.
  intros w' tid. subst w' tid. unfold stopWithFade.
  destruct (mounted w) eqn:Hm.
  - destruct (stopWithFade_call_mounted d w Hm) as (Ht & H0 & _ & _).
    destruct (stopWithFade_call d w) as [tid w1]. cbn [fst snd] in *. subst tid.
    rewrite await_fade_unfold.
    pose proof (stopping_iter _ _ _ _ _ _ steps w1 (Nat.le_refl _) H0) as H50.
    destruct (stopping_last _ _ _ _ _ _ _ H50)
      as (H1 & H2 & H3 & _ & H5 & H6 & H7 & H8 & H9 & H10 & H11).
    split; [exact H11|]. split; [exact H10|]. split; [exact H1|]. split; [exact H2|].
    split; [|discriminate].
    intros _. split; [exact H3|]. split; [|split; [exact H8 | exact H9]].
    destruct (audio (await_step _ _)) as [s v p]. cbn in *. congruence.
  - unfold stopWithFade_call. rewrite Hm. cbn [negb].
    destruct w as [m st [asrc avol ap] [csrc cvol cp] fr cfr t nt tk ntk se tr0].
    unfold spawn. unfold_hook. hook_cbn.
    match goal with |- context [await_fade ?i ?x] =>
      assert (E : await_fade i x = x)
        by (apply iter_fixed; unfold await_step; hook_cbn;
            rewrite lookup_delete_eq; reflexivity)
    end.
    rewrite E. hook_cbn.
    split; [apply lookup_insert_eq|]. split; [apply lookup_delete_eq|].
    split; [reflexivity|]. split; [reflexivity|]. split; [discriminate|].
    intros _. repeat split; reflexivity.
Qed.

(** *** The two branches of playStation *)





End PlayerFacts.

(** * The client of the radio-browser API *)

Module ApiFacts.
Import radioApi.

Section Requests.

Context {T : Type}.
Variable fetch : nat -> Request -> Response T.
Variables (endpoint : string) (params : list (string * option string)).

Local Notation "'requestAt'" := (requestAt endpoint params).
Local Notation "'outcomeAt'" := (outcomeAt fetch endpoint params).
Local Notation "'asked'" := (asked endpoint params).

Lemma in_range_position (api : RadioAPI) :
  in_range api ->
  currentServerIndex api = At (position api)
  /\ (position api < length (servers api))%nat.
Proof. intros (i & Hi & Hl). unfold position. rewrite Hi. split; [reflexivity | exact Hl]. Qed.

Lemma requestAt_0 (api : RadioAPI) :
  in_range api ->
  exists s, servers api !! position api = Some s
            /\ getCurrentServer api = inr (url s)
            /\ requestAt api 0 = Some (requestTo (url s) endpoint params).
Proof.
  intros H. destruct (in_range_position api H) as [Hi Hl].
  destruct (lookup_lt_is_Some_2 (servers api) _ Hl) as [s Hs].
  exists s. split; [exact Hs|]. split.
  - unfold getCurrentServer. rewrite Hi, Hs.
    destruct (Nat.eqb_spec (length (servers api)) 0) as [E|_]; [lia | reflexivity].
  - unfold radioApi.requestAt. rewrite Nat.add_0_r, Nat.mod_small by exact Hl.
    rewrite Hs. reflexivity.
Qed.

Lemma failed_once_spec (api : RadioAPI) (r : Request) :
  in_range api ->
  in_range (failed_once api r)
  /\ servers (failed_once api r) = servers api
  /\ sent (failed_once api r) = r :: sent api
  /\ position (failed_once api r)
     = ((position api + 1) mod length (servers api))%nat
  /\ (forall j, requestAt (failed_once api r) j = requestAt api (S j))
  /\ (forall j, outcomeAt (failed_once api r) j = outcomeAt api (S j)).
Proof.
  intros H. destruct (in_range_position api H) as [Hi Hl].
  assert (Hn : length (servers api) <> 0%nat) by lia.
  assert (Hp : position (failed_once api r)
               = ((position api + 1) mod length (servers api))%nat).
  { unfold failed_once, rotateServer, position. cbn [currentServerIndex servers].
    rewrite Hi. destruct (Nat.eqb_spec (length (servers api)) 0); [lia | reflexivity]. }
  assert (Hr : forall j, requestAt (failed_once api r) j = requestAt api (S j)).
  { intros j. unfold radioApi.requestAt. rewrite Hp.
    change (servers (failed_once api r)) with (servers api).
    rewrite Nat.Div0.add_mod_idemp_l.
    replace (position api + 1 + j)%nat with (position api + S j)%nat by lia.
    reflexivity. }
  split.
  { exists ((position api + 1) mod length (servers api))%nat. split.
    - unfold failed_once, rotateServer. cbn [currentServerIndex servers]. rewrite Hi.
      destruct (Nat.eqb_spec (length (servers api)) 0); [lia | reflexivity].
    - apply Nat.mod_upper_bound. exact Hn. }
  split; [reflexivity|]. split; [reflexivity|]. split; [exact Hp|].
  split; [exact Hr|].
  intros j. unfold radioApi.outcomeAt. rewrite Hr.
  change (sent (failed_once api r)) with (r :: sent api). cbn [length].
  replace (S (length (sent api)) + j)%nat with (length (sent api) + S j)%nat by lia.
  reflexivity.
Qed.

Lemma attempt_spec (api : RadioAPI) :
  in_range api ->
  exists r, requestAt api 0 = Some r
    /\ outcomeAt api 0 = Some (settle (fetch (length (sent api)) r))
    /\ attempt fetch endpoint params api
       = (settle (fetch (length (sent api)) r),
          {| servers := servers api; currentServerIndex := currentServerIndex api;
             sent := r :: sent api |}).
Proof.
  intros H. destruct (requestAt_0 api H) as (s & Hs & Hg & Hr).
  exists (requestTo (url s) endpoint params). split; [exact Hr|]. split.
  - unfold radioApi.outcomeAt. rewrite Hr. cbn. rewrite Nat.add_0_r. reflexivity.
  - unfold attempt. rewrite Hg. reflexivity.
Qed.

Lemma asked_0 (api : RadioAPI) : asked 0 api api.
Proof. exists []. split; [reflexivity|]. split; [reflexivity|]. intros j Hj. lia. Qed.

Lemma asked_S (k : nat) (api api' : RadioAPI) (r : Request) :
  in_range api -> requestAt api 0 = Some r ->
  asked k (failed_once api r) api' -> asked (S k) api api'.
Proof.
  intros H Hr (reqs & Hs & Hl & Hj).
  destruct (failed_once_spec api r H) as (_ & _ & Hsent & _ & Hreq & _).
  exists (r :: reqs). split.
  - rewrite Hs, Hsent. cbn [rev]. rewrite <- app_assoc. reflexivity.
  - split; [cbn; lia|]. intros [|j] Hlt; cbn.
    + symmetry. exact Hr.
    + rewrite Hj by lia. apply Hreq.
Qed.

(** Every one of the [r] iterations fails. *)
Lemma rotation_all_fail (r : nat) :
  forall (api : RadioAPI) (last : option Error),
    in_range api ->
    (forall j, (j < r)%nat -> exists e, outcomeAt api j = Some (inl e)) ->
    exists e api',
      retry fetch r endpoint params last api = (inl e, api')
      /\ (r = 0%nat -> e = default AllServersFailed last)
      /\ (forall r', r = S r' -> outcomeAt api r' = Some (inl e))
      /\ servers api' = servers api
      /\ currentServerIndex api'
         = At ((position api + r) mod length (servers api))%nat
      /\ asked r api api'.
Proof.
  induction r as [|r IH]; intros api last H Hf.
  - destruct (in_range_position api H) as [Hi Hl].
    exists (default AllServersFailed last), api. cbn [retry].
    split; [reflexivity|]. split; [reflexivity|]. split; [discriminate|].
    split; [reflexivity|]. split; [|apply asked_0].
    rewrite Nat.add_0_r, Nat.mod_small by exact Hl. exact Hi.
  - destruct (attempt_spec api H) as (r0 & Hr0 & Ho0 & Ha).
    destruct (Hf 0%nat) as [e0 He0]; [lia|].
    rewrite Ho0 in He0. injection He0 as He0.
    destruct (failed_once_spec api r0 H) as (H1 & H2 & H3 & H4 & H5 & H6).
    destruct (IH (failed_once api r0) (Some e0) H1) as (e & api' & E1 & E2 & E3 & E4 & E5 & E6).
    { intros j Hj. rewrite H6. apply Hf. lia. }
    exists e, api'. cbn [retry]. rewrite Ha, He0.
    assert (G : getCurrentServer
                  {| servers := servers api; currentServerIndex := currentServerIndex api;
                     sent := r0 :: sent api |} = getCurrentServer api) by reflexivity.
    rewrite G. destruct (requestAt_0 api H) as (s & _ & Hg & _). rewrite Hg.
    fold (failed_once api r0). split; [exact E1|]. split; [discriminate|].
    split.
    { intros r' Hr'. injection Hr' as <-. destruct r as [|r''].
      - rewrite (E2 eq_refl). cbn [default]. rewrite Ho0, He0. reflexivity.
      - rewrite <- H6. apply E3. reflexivity. }
    split; [rewrite E4; exact H2|]. split.
    + rewrite E5, H4, H2. f_equal.
      destruct (in_range_position api H) as [_ Hl].
      rewrite Nat.Div0.add_mod_idemp_l. f_equal. lia.
    + apply (asked_S r api api' r0 H Hr0 E6).
Qed.

(** The first [k] iterations fail and the next one succeeds. *)
Lemma rotation_first_success (k : nat) :
  forall (r : nat) (api : RadioAPI) (last : option Error) (d : T),
    in_range api -> (k < r)%nat ->
    (forall j, (j < k)%nat -> exists e, outcomeAt api j = Some (inl e)) ->
    outcomeAt api k = Some (inr d) ->
    exists api',
      retry fetch r endpoint params last api = (inr d, api')
      /\ servers api' = servers api
      /\ currentServerIndex api'
         = At ((position api + k) mod length (servers api))%nat
      /\ asked (S k) api api'.
Proof.
  induction k as [|k IH]; intros r api last d H Hk Hf Hd.
  - destruct r as [|r]; [lia|].
    destruct (attempt_spec api H) as (r0 & Hr0 & Ho0 & Ha).
    rewrite Ho0 in Hd. injection Hd as Hd.
    eexists. cbn [retry]. rewrite Ha, Hd. split; [reflexivity|].
    split; [reflexivity|]. cbn [currentServerIndex servers sent]. split.
    + destruct (in_range_position api H) as [Hi Hl].
      rewrite Nat.add_0_r, Nat.mod_small by exact Hl. exact Hi.
    + exists [r0]. split; [reflexivity|]. split; [reflexivity|].
      intros [|j] Hj; [symmetry; exact Hr0 | lia].
  - destruct r as [|r]; [lia|].
    destruct (attempt_spec api H) as (r0 & Hr0 & Ho0 & Ha).
    destruct (Hf 0%nat) as [e0 He0]; [lia|].
    rewrite Ho0 in He0. injection He0 as He0.
    destruct (failed_once_spec api r0 H) as (H1 & H2 & H3 & H4 & H5 & H6).
    destruct (IH r (failed_once api r0) (Some e0) d H1) as (api' & E1 & E4 & E5 & E6).
    { lia. }
    { intros j Hj. rewrite H6. apply Hf. lia. }
    { rewrite H6. exact Hd. }
    exists api'. cbn [retry]. rewrite Ha, He0.
    assert (G : getCurrentServer
                  {| servers := servers api; currentServerIndex := currentServerIndex api;
                     sent := r0 :: sent api |} = getCurrentServer api) by reflexivity.
    rewrite G. destruct (requestAt_0 api H) as (s & _ & Hg & _). rewrite Hg.
    fold (failed_once api r0). split; [exact E1|].
    split; [rewrite E4; exact H2|]. split.
    + rewrite E5, H4, H2. f_equal.
      destruct (in_range_position api H) as [_ Hl].
      rewrite Nat.Div0.add_mod_idemp_l. f_equal. lia.
    + apply (asked_S (S k) api api' r0 H Hr0 E6).
Qed.

Lemma settle_from_network (r : Response T) (e : Error) :
  settle r = inl e -> from_network e.
Proof.
  destruct r as [m|[] st tx [d|]]; cbn; intros H; try discriminate H;
    injection H as <-; exact I.
Qed.

Lemma outcomeAt_is_Some (api : RadioAPI) (j : nat) :
  in_range api -> exists o, outcomeAt api j = Some o
                            /\ forall e, o = inl e -> from_network e.
Proof.
  intros H. destruct (in_range_position api H) as [_ Hl].
  unfold radioApi.outcomeAt, radioApi.requestAt.
  destruct (lookup_lt_is_Some_2 (servers api)
              ((position api + j) mod length (servers api))%nat) as [s Hs].
  { apply Nat.mod_upper_bound. lia. }
  rewrite Hs. cbn. eexists. split; [reflexivity|]. apply settle_from_network.
Qed.

(** Either the first [r] requests all fail, or one of them is the first
    to succeed. *)
Lemma first_success (api : RadioAPI) (r : nat) :
  in_range api ->
  (forall j, (j < r)%nat -> exists e, outcomeAt api j = Some (inl e))
  \/ (exists k d, (k < r)%nat
        /\ (forall j, (j < k)%nat -> exists e, outcomeAt api j = Some (inl e))
        /\ outcomeAt api k = Some (inr d)).
Proof.
  intros H. induction r as [|r IH].
  - left. intros j Hj. lia.
  - destruct IH as [IH|(k & d & Hk & Hf & Hd)].
    + destruct (outcomeAt_is_Some api r H) as ([e|d] & Ho & _).
      * left. intros j Hj. destruct (decide (j = r)) as [->|Hne]; [eauto|].
        apply IH. lia.
      * right. exists r, d. split; [lia|]. split; [exact IH | exact Ho].
    + right. exists k, d. split; [lia|]. split; assumption.
Qed.

Lemma makeRequest_fails (api : RadioAPI) :
  in_range api ->
  (forall j, (j < length (servers api))%nat ->
     exists e, outcomeAt api j = Some (inl e)) ->
  exists e api',
    makeRequest fetch endpoint params api = (inl e, api')
    /\ outcomeAt api (length (servers api) - 1) = Some (inl e)
    /\ servers api' = servers api
    /\ currentServerIndex api' = currentServerIndex api
    /\ asked (length (servers api)) api api'.
Proof.
  intros H Hf. destruct (in_range_position api H) as [Hi Hl].
  destruct (rotation_all_fail (length (servers api)) api None H Hf)
    as (e & api' & E1 & _ & E3 & E4 & E5 & E6).
  exists e, api'. split; [exact E1|]. split.
  { destruct (length (servers api)) as [|n] eqn:En; [lia|].
    cbn [Nat.sub]. rewrite Nat.sub_0_r. apply E3. reflexivity. }
  split; [exact E4|]. split; [|exact E6].
  rewrite E5, Hi. f_equal.
  rewrite <- Nat.Div0.add_mod_idemp_r, Nat.Div0.mod_same, Nat.add_0_r.
  apply Nat.mod_small. exact Hl.
Qed.

Lemma makeRequest_succeeds (api : RadioAPI) (k : nat) (d : T) :
  in_range api ->
  (k < length (servers api))%nat ->
  (forall j, (j < k)%nat -> exists e, outcomeAt api j = Some (inl e)) ->
  outcomeAt api k = Some (inr d) ->
  exists api',
    makeRequest fetch endpoint params api = (inr d, api')
    /\ servers api' = servers api
    /\ currentServerIndex api'
       = At ((position api + k) mod length (servers api))%nat
    /\ requestAt api' 0 = requestAt api k
    /\ asked (S k) api api'.
Proof.
  intros H Hk Hf Hd.
  destruct (rotation_first_success k (length (servers api)) api None d H Hk Hf Hd)
    as (api' & E1 & E2 & E3 & E4).
  exists api'. split; [exact E1|]. split; [exact E2|]. split; [exact E3|].
  split; [|exact E4].
  unfold radioApi.requestAt, position. rewrite E3, E2.
  rewrite Nat.add_0_r, Nat.Div0.mod_mod. reflexivity.
Qed.

Lemma steps_cons (s : Step) (ss : list Step) (c : Client T) :
  steps fetch (s :: ss) c = steps fetch ss (step fetch s c).
Proof. reflexivity. Qed.

(** An answer to a call that is not in flight changes nothing. *)
Lemma respond_idle (id n : nat) (c : Client T) :
  pending c !! id = None -> steps fetch (repeat (Respond id) n) c = c.
Proof.
  intros H. induction n as [|n IH]; [reflexivity|].
  cbn [repeat]. rewrite steps_cons. cbn [step]. unfold makeRequest_resume.
  rewrite H. exact IH.
Qed.

(** The loop of a call that runs on its own is the loop of [retry]. *)
Lemma loop_alone (remaining : nat) :
  forall (lastError : option Error) (id : nat) (c : Client T),
    pending c !! id = None ->
    steps fetch (repeat (Respond id) remaining)
      (makeRequest_loop fetch id endpoint params remaining lastError c)
    = {| instance := snd (retry fetch remaining endpoint params lastError (instance c));
         pending := pending c;
         results := <[id := fst (retry fetch remaining endpoint params lastError
                                   (instance c))]> (results c);
         nextCall := nextCall c |}.
Proof.
  induction remaining as [|r IH]; intros lastError id c Hid; [reflexivity|].
  cbn [makeRequest_loop retry]. unfold attempt.
  destruct (getCurrentServer (instance c)) as [thrown|s] eqn:Hg.
  - rewrite Hg. rewrite respond_idle by exact Hid. reflexivity.
  - cbn [repeat]. rewrite steps_cons. cbn [step]. unfold makeRequest_resume.
    cbn [pending instance results nextCall].
    rewrite lookup_insert_eq. cbn [awaited endpointOf paramsOf iterationsLeft].
    rewrite delete_insert_id by exact Hid.
    set (request := requestTo s endpoint params).
    assert (G : getCurrentServer
                  {| servers := servers (instance c);
                     currentServerIndex := currentServerIndex (instance c);
                     sent := request :: sent (instance c) |} = inr s)
      by (rewrite <- Hg; reflexivity).
    destruct (settle (fetch (length (sent (instance c))) request)) as [error|data].
    + rewrite G.
      match goal with |- context [makeRequest_loop _ _ _ _ r _ ?c'] =>
        rewrite (IH (Some error) id c' Hid) end.
      reflexivity.
    + rewrite respond_idle by exact Hid. reflexivity.
Qed.

Lemma handles_wf_step (s : Step) (c : Client T) :
  handles_wf c -> handles_wf (step fetch s c).
Proof.
  intros H. destruct s as [e p|id]; cbn [step].
  - unfold makeRequest_call, makeRequest_loop.
    destruct (length (servers (instance c))) as [|n];
      [intros id Hid; apply H; cbn in Hid; lia|].
    cbn [instance]. destruct (getCurrentServer (instance c));
      intros id Hid; cbn [pending nextCall leave] in *.
    + apply H. lia.
    + rewrite lookup_insert_ne by lia. apply H. lia.
  - unfold makeRequest_resume. destruct (pending c !! id) as [p|] eqn:Hp; [|exact H].
    assert (Hlt : (id < nextCall c)%nat).
    { destruct (Nat.lt_ge_cases id (nextCall c)) as [L|L]; [exact L|].
      rewrite (H id L) in Hp. discriminate. }
    assert (Hd : forall i, (nextCall c <= i)%nat -> delete id (pending c) !! i = None).
    { intros i Hi. rewrite lookup_delete_ne by lia. apply H. exact Hi. }
    destruct (settle (awaited p)); [|exact Hd].
    cbn [instance]. destruct (getCurrentServer (instance c)); [exact Hd|].
    unfold makeRequest_loop. destruct (iterationsLeft p); [exact Hd|].
    cbn [instance]. destruct (getCurrentServer (rotateServer (instance c)));
      [exact Hd|].
    intros i Hi. cbn [pending nextCall] in *.
    rewrite lookup_insert_ne by lia. apply Hd. exact Hi.
Qed.

Lemma handles_wf_steps (ss : list Step) :
  forall c : Client T, handles_wf c -> handles_wf (steps fetch ss c).
Proof.
  induction ss as [|s ss IH]; intros c H; [exact H|].
  rewrite steps_cons. apply IH. apply handles_wf_step. exact H.
Qed.

(** A call that runs on its own does what [makeRequest] does in one
    piece. *)
Lemma alone_makeRequest (c : Client T) :
  handles_wf c ->
  alone fetch endpoint params c
  = {| instance := snd (makeRequest fetch endpoint params (instance c));
       pending := pending c;
       results := <[nextCall c := fst (makeRequest fetch endpoint params (instance c))]>
                    (results c);
       nextCall := S (nextCall c) |}.
Proof.
  intros H. unfold alone. rewrite steps_cons. cbn [step]. unfold makeRequest_call.
  rewrite loop_alone; [reflexivity|]. cbn [pending]. apply H. lia.
Qed.

(** X17: in any state of the instance, a call that runs on its own (no
    other call resumes before it is over; others may be suspended) and
    finds every server failing has asked each server once, in the order
    of the list from the current server round to the one before it; it
    throws the error of the last attempt, leaves the current server where
    it was and the other calls as they were. *)
Theorem makeRequest_all_fail (ss : list Step) (api : RadioAPI) :
  let c := steps fetch ss (client api) in
  in_range (instance c) ->
  (forall j, (j < length (servers (instance c)))%nat ->
     exists e, outcomeAt (instance c) j = Some (inl e)) ->
  let c' := alone fetch endpoint params c in
  exists e,
    results c' !! nextCall c = Some (inl e)
    /\ outcomeAt (instance c) (length (servers (instance c)) - 1) = Some (inl e)
    /\ servers (instance c') = servers (instance c)
    /\ currentServerIndex (instance c') = currentServerIndex (instance c)
    /\ asked (length (servers (instance c))) (instance c) (instance c')
    /\ pending c' = pending c.
Proof.
  intros c Hr Hf c'. subst c'.
  assert (Hw : handles_wf c).
  { apply handles_wf_steps. intros id _. apply lookup_empty. }
  rewrite (alone_makeRequest c Hw).
  destruct (makeRequest_fails (instance c) Hr Hf)
    as (e & api' & E1 & E2 & E3 & E4 & E5).
  rewrite E1. cbn [fst snd instance results pending].
  exists e. split; [apply lookup_insert_eq|]. repeat split; assumption.
Qed.

(** X18: in any state of the instance, a call that runs on its own (no
    other call resumes before it is over; others may be suspended)
    returns what the first server that answers returns, after one request
    to each server before it in the round; the server that answered
    becomes the current one, so the next request starts with it. *)
Theorem makeRequest_first_success (ss : list Step) (api : RadioAPI) (k : nat) (d : T) :
  let c := steps fetch ss (client api) in
  in_range (instance c) ->
  (k < length (servers (instance c)))%nat ->
  (forall j, (j < k)%nat -> exists e, outcomeAt (instance c) j = Some (inl e)) ->
  outcomeAt (instance c) k = Some (inr d) ->
  let c' := alone fetch endpoint params c in
  results c' !! nextCall c = Some (inr d)
  /\ servers (instance c') = servers (instance c)
  /\ currentServerIndex (instance c')
     = At ((position (instance c) + k) mod length (servers (instance c)))%nat
  /\ requestAt (instance c') 0 = requestAt (instance c) k
  /\ asked (S k) (instance c) (instance c')
  /\ pending c' = pending c.
Proof.
  intros c Hr Hk Hf Hd c'. subst c'.
  assert (Hw : handles_wf c).
  { apply handles_wf_steps. intros id _. apply lookup_empty. }
  rewrite (alone_makeRequest c Hw).
  destruct (makeRequest_succeeds (instance c) k d Hr Hk Hf Hd)
    as (api' & E1 & E2 & E3 & E4 & E5).
  rewrite E1. cbn [fst snd instance results pending].
  split; [apply lookup_insert_eq|]. repeat split; assumption.
Qed.

End Requests.

Lemma makeRequest_all_fail_witness :
  let c := steps offline click_then_tags (client sample_api) in
  let c' := alone offline "/url/a" [] c in
  in_range (instance c)
  /\ is_Some (pending c !! 0%nat)
  /\ results c' !! 1%nat = Some (inl (FetchFailed "Failed to fetch"))
  /\ currentServerIndex (instance c') = At 0
  /\ length (sent (instance c')) = 6%nat
  /\ is_Some (pending c' !! 0%nat).
Proof.
  intros c c'.
  assert (R : in_range (instance c)) by (exists 0%nat; split; [reflexivity | cbn; lia]).
  assert (P : is_Some (pending c !! 0%nat)) by (eexists; vm_compute; reflexivity).
  split; [exact R|]. split; [exact P|].
  destruct (makeRequest_all_fail offline "/url/a" [] click_then_tags sample_api R)
    as (e & E1 & E2 & _ & E4 & (reqs & E5 & E6 & _) & E7).
  { intros j Hj. do 5 (destruct j as [|j]; [eexists; reflexivity|]). cbn in Hj. lia. }
  fold c in E1, E2, E4, E5, E6, E7. fold c' in E1, E4, E5, E7.
  injection E2 as <-.
  split; [exact E1|]. split; [rewrite E4; reflexivity|].
  split; [rewrite E5, length_app, length_rev, E6; reflexivity|].
  rewrite E7. exact P.
Defined.

Lemma makeRequest_first_success_witness :
  let c := client sample_api in
  let c' := alone only_at1 "/url/a" [] c in
  results c' !! 0%nat = Some (inr "clicked"%string)
  /\ currentServerIndex (instance c') = At 2
  /\ length (sent (instance c')) = 3%nat.
Proof.
  intros c c'.
  assert (R : in_range sample_api) by (exists 0%nat; split; [reflexivity | cbn; lia]).
  destruct (makeRequest_first_success only_at1 "/url/a" [] [] sample_api 2
              "clicked"%string R)
    as (E1 & _ & E3 & _ & (reqs & E5 & E6 & _) & _).
  { cbn. lia. }
  { intros j Hj. do 2 (destruct j as [|j]; [eexists; reflexivity|]). lia. }
  { reflexivity. }
  split; [exact E1|]. split; [exact E3|].
  change (sent (instance c') = rev reqs ++ sent sample_api) in E5.
  rewrite E5, length_app, length_rev, E6. reflexivity.
Defined.

(** Two clicks that overlap, with only at1 up: the first call rotates the
    index under the second and the second under the first.  The first
    call asks de1 twice and at1 never, and throws although at1 answers;
    the second gets its answer from at1, and the current server ends up
    being fi1, where neither call was answered. *)
Lemma overlapping_calls_miss_a_server :
  let c := steps only_at1 two_clicks (client sample_api) in
  results c !! 0%nat = Some (inl (Http 503 "Service Unavailable"))
  /\ results c !! 1%nat = Some (inr "clicked"%string)
  /\ currentServerIndex (instance c) = At 1
  /\ map server (rev (sent (instance c)))
     = ["https://de1.api.radio-browser.info"; "https://de1.api.radio-browser.info";
        "https://fi1.api.radio-browser.info"; "https://at1.api.radio-browser.info";
        "https://nl1.api.radio-browser.info"; "https://de2.api.radio-browser.info";
        "https://de1.api.radio-browser.info"]%string
  /\ fst (makeRequest only_at1 "/url/a" [] sample_api) = inr "clicked"%string.
Proof. vm_compute. repeat split; reflexivity. Qed.

Section Instance.

Context {T : Type}.
Variable fetch : nat -> Request -> Response T.

Lemma makeRequest_total (endpoint : string) (params : list (string * option string))
    (api : RadioAPI) :
  in_range api ->
  exists k,
    (1 <= k <= length (servers api))%nat
    /\ asked endpoint params k api (snd (makeRequest fetch endpoint params api))
    /\ servers (snd (makeRequest fetch endpoint params api)) = servers api
    /\ in_range (snd (makeRequest fetch endpoint params api))
    /\ match fst (makeRequest fetch endpoint params api) with
       | inl e => from_network e
       | inr _ => True
       end.
Proof.
  intros H. destruct (in_range_position api H) as [Hi Hl].
  destruct (first_success fetch endpoint params api (length (servers api)) H)
    as [Hf|(k & d & Hk & Hf & Hd)].
  - destruct (makeRequest_fails fetch endpoint params api H Hf)
      as (e & api' & E1 & E2 & E3 & E4 & E5).
    rewrite E1. cbn [fst snd]. exists (length (servers api)).
    split; [lia|]. split; [exact E5|]. split; [exact E3|]. split.
    + exists (position api). rewrite E4, E3. split; assumption.
    + destruct (outcomeAt_is_Some fetch endpoint params api
                  (length (servers api) - 1) H) as (o & Ho & Hn).
      rewrite Ho in E2. injection E2 as ->. apply Hn. reflexivity.
  - destruct (makeRequest_succeeds fetch endpoint params api k d H Hk Hf Hd)
      as (api' & E1 & E2 & E3 & _ & E5).
    rewrite E1. cbn [fst snd]. exists (S k).
    split; [lia|]. split; [exact E5|]. split; [exact E2|]. split; [|exact I].
    eexists. rewrite E3, E2. split; [reflexivity|].
    apply Nat.mod_upper_bound. lia.
Qed.

(** X19: on the instance of the application ([discoverServers] run once
    on a new object) the index of the current server always points into
    the list of five servers; every request sends between one and five
    fetches, each to the next server of the round, and the only errors
    [makeRequest] throws are those of the network: never 'No servers
    available', a [TypeError] or 'All servers failed'. *)
Theorem requests_stay_in_range (shuffle : list string -> list string)
    (calls : list (string * list (string * option string))) :
  shuffle knownServers ≡ₚ knownServers ->
  let api := serve fetch calls (discoverServers shuffle create) in
  length (servers api) = 5%nat
  /\ in_range api
  /\ forall endpoint params,
       (exists k, (1 <= k <= 5)%nat
          /\ asked endpoint params k api (snd (makeRequest fetch endpoint params api)))
       /\ match fst (makeRequest fetch endpoint params api) with
          | inl e => from_network e
          | inr _ => True
          end.
Proof.
  intros Hp api.
  assert (H : length (servers api) = 5%nat /\ in_range api).
  { subst api. unfold serve.
    assert (H0 : length (servers (discoverServers shuffle create)) = 5%nat
                 /\ in_range (discoverServers shuffle create)).
    { assert (L : length (servers (discoverServers shuffle create)) = 5%nat).
      { cbn [discoverServers servers]. rewrite length_map, Hp. reflexivity. }
      split; [exact L|]. exists 0%nat. split; [reflexivity | lia]. }
    revert H0. generalize (discoverServers shuffle create).
    induction calls as [|c cs IH]; intros a H0; [exact H0|].
    cbn [fold_left]. apply IH. destruct H0 as [L R].
    destruct (makeRequest_total (fst c) (snd c) a R) as (k & _ & _ & E & R' & _).
    split; [rewrite E; exact L | exact R']. }
  destruct H as [L R]. split; [exact L|]. split; [exact R|].
  intros endpoint params.
  destruct (makeRequest_total endpoint params api R) as (k & Hk & Ha & _ & _ & Hn).
  split; [|exact Hn]. exists k. split; [lia | exact Ha].
Qed.

End Instance.

Lemma requests_stay_in_range_witness :
  let api := serve only_at1 sample_calls (discoverServers (@rev string) create) in
  rev knownServers ≡ₚ knownServers
  /\ in_range api
  /\ match fst (makeRequest only_at1 "/countries" [] api) with
     | inl e => from_network e
     | inr _ => True
     end.
Proof.
  intros api.
  assert (P : rev knownServers ≡ₚ knownServers) by (symmetry; apply Permutation_rev).
  split; [exact P|].
  destruct (requests_stay_in_range only_at1 (@rev string) sample_calls P)
    as (_ & R & H).
  split; [exact R|]. exact (proj2 (H "/countries"%string [])).
Defined.

End ApiFacts.

(** * The markers on the globe *)

Module GlobeFacts.
Import RadioGlobe.

Lemma insertByVotes_perm (x : StationMarker) (l : list StationMarker) :
  insertByVotes x l ≡ₚ x :: l.
Proof.
  induction l as [|y l IH]; cbn [insertByVotes]; [reflexivity|].
  destruct (votes y <=? votes x); [reflexivity|].
  rewrite IH. apply perm_swap.
Qed.

Lemma sortByVotes_perm (l : list StationMarker) : sortByVotes l ≡ₚ l.
Proof.
  induction l as [|x l IH]; cbn [sortByVotes]; [reflexivity|].
  rewrite insertByVotes_perm, IH. reflexivity.
Qed.

(** The loop only adds stations of the list it walks, after the ones it
    started with. *)
Lemma select_extends (config : ZoomConfig) (cur : option StationMarker)
    (sorted : list StationMarker) :
  forall filtered,
    exists added,
      select config cur sorted filtered = filtered ++ added
      /\ (forall s, s ∈ added -> s ∈ sorted)
      /\ Forall (fun s => isCurrent cur s = false) added.
Proof.
  induction sorted as [|s rest IH]; intros filtered; cbn [select].
  - exists []. rewrite app_nil_r. split; [reflexivity|]. split; [auto | constructor].
  - destruct (isCurrent cur s) eqn:Ec.
    { destruct (IH filtered) as (a & E & S & F). exists a.
      split; [exact E|]. split; [|exact F].
      intros x Hx. apply list_elem_of_further, S, Hx. }
    destruct (full config filtered).
    { exists []. rewrite app_nil_r. split; [reflexivity|]. split; [|constructor].
      intros x Hx. apply elem_of_nil in Hx. destruct Hx. }
    destruct (tooClose config s filtered); cbn [negb].
    + destruct (IH filtered) as (a & E & S & F). exists a.
      split; [exact E|]. split; [|exact F].
      intros x Hx. apply list_elem_of_further, S, Hx.
    + destruct (IH (filtered ++ [s])) as (a & E & S & F). exists (s :: a).
      split; [rewrite E, <- app_assoc; reflexivity|].
      split; [|constructor; assumption].
      intros x Hx. apply elem_of_cons in Hx. destruct Hx as [->|Hx].
      * apply list_elem_of_here.
      * apply list_elem_of_further, S, Hx.
Qed.

Lemma find_elem (f : StationMarker -> bool) (l : list StationMarker) (m : StationMarker) :
  find f l = Some m -> m ∈ l /\ f m = true.
Proof.
  intros H. apply find_some in H. destruct H as [H1 H2].
  split; [apply list_elem_of_In; exact H1 | exact H2].
Qed.

Lemma getZoomConfig_max (altitude : Q) (m : nat) :
  maxStations (getZoomConfig altitude) = Some m -> (50 <= m)%nat.
Proof.
  unfold getZoomConfig.
  repeat match goal with |- context [if ?b then _ else _] => destruct b end;
    cbn [maxStations]; intros H; try discriminate H; injection H as <-; lia.
Qed.

Lemma select_bounded (config : ZoomConfig) (cur : option StationMarker) (m : nat)
    (sorted : list StationMarker) :
  maxStations config = Some m ->
  forall filtered,
    (length filtered <= m)%nat ->
    (length (select config cur sorted filtered) <= m)%nat.
Proof.
  intros Hm. induction sorted as [|s rest IH]; intros filtered Hl; cbn [select];
    [exact Hl|].
  destruct (isCurrent cur s); [apply IH; exact Hl|].
  unfold full. rewrite Hm. destruct (Nat.leb_spec m (length filtered)); [exact Hl|].
  destruct (tooClose config s filtered); cbn [negb]; apply IH; [exact Hl|].
  rewrite length_app. cbn. lia.
Qed.

Lemma spaced_snoc (config : ZoomConfig) (filtered : list StationMarker)
    (s : StationMarker) :
  spaced config filtered -> tooClose config s filtered = false ->
  spaced config (filtered ++ [s]).
Proof.
  induction filtered as [|x l IH]; cbn [spaced app tooClose existsb].
  - intros _ _. split; [constructor | exact I].
  - intros [H1 H2] Ht. apply orb_false_iff in Ht. destruct Ht as [Hx Hl].
    split.
    + apply Forall_app. split; [exact H1|]. constructor; [exact Hx | constructor].
    + apply IH; assumption.
Qed.

Lemma select_spaced (config : ZoomConfig) (cur : option StationMarker)
    (sorted : list StationMarker) :
  forall filtered,
    spaced config filtered -> spaced config (select config cur sorted filtered).
Proof.
  induction sorted as [|s rest IH]; intros filtered H; cbn [select]; [exact H|].
  destruct (isCurrent cur s); [apply IH; exact H|].
  destruct (full config filtered); [exact H|].
  destruct (tooClose config s filtered) eqn:Et; cbn [negb]; apply IH; [exact H|].
  apply spaced_snoc; assumption.
Qed.

(** X20: whatever the zoom level and the current station, every marker
    the filter shows is a station of the list it was given, there are at
    most [maxStations] of them, and none is nearer than [minDistance] to a
    marker that was taken before it. *)
Theorem filter_within_limits (currentStation : option RadioStation)
    (allStations : list StationMarker) (altitude : Q) :
  let shown := filterStationsByZoom currentStation allStations altitude in
  let config := getZoomConfig altitude in
  (forall s, s ∈ shown -> s ∈ allStations)
  /\ (forall m, maxStations config = Some m -> (length shown <= m)%nat)
  /\ spaced config shown.
Proof.
  intros shown config. subst shown config. unfold filterStationsByZoom.
  destruct (length allStations =? 0)%nat.
  { split; [intros s Hs; apply elem_of_nil in Hs; destruct Hs|].
    split; [intros; cbn; lia | exact I]. }
  set (cur := match currentStation with Some c => _ | None => None end).
  split; [|split].
  - destruct (select_extends (getZoomConfig altitude) cur (sortByVotes allStations)
                (match cur with Some m => [m] | None => [] end)) as (a & E & S & _).
    rewrite E. intros x Hx. apply elem_of_app in Hx. destruct Hx as [Hx|Hx].
    + destruct cur as [m|] eqn:Em; [|apply elem_of_nil in Hx; destruct Hx].
      apply list_elem_of_singleton in Hx. subst x.
      subst cur. destruct currentStation as [c|]; [|discriminate].
      apply find_elem in Em. tauto.
    + apply S in Hx. rewrite sortByVotes_perm in Hx. exact Hx.
  - intros m Hm. apply (select_bounded _ _ m); [exact Hm|].
    pose proof (getZoomConfig_max altitude m Hm).
    destruct cur; cbn; lia.
  - apply select_spaced. destruct cur; cbn; [split; [constructor | exact I] | exact I].
Qed.

(** X21: when the current station is in the list, its marker (the first
    with its uuid) is shown whatever the zoom level, as the first marker,
    and no other marker has its uuid. *)
Theorem current_station_shown_first (c : RadioStation)
    (allStations : list StationMarker) (altitude : Q) (s : StationMarker) :
  s ∈ allStations -> uuid s = stationuuid c ->
  exists m others,
    filterStationsByZoom (Some c) allStations altitude = m :: others
    /\ find (fun s => String.eqb (uuid s) (stationuuid c)) allStations = Some m
    /\ uuid m = stationuuid c
    /\ Forall (fun t => uuid t <> stationuuid c) others.
Proof.
  intros Hs Hu. unfold filterStationsByZoom.
  destruct (Nat.eqb_spec (length allStations) 0) as [E|_].
  { destruct allStations; [apply elem_of_nil in Hs; destruct Hs | discriminate E]. }
  destruct (find (fun s => String.eqb (uuid s) (stationuuid c)) allStations)
    as [m|] eqn:Ef.
  - destruct (select_extends (getZoomConfig altitude) (Some m) (sortByVotes allStations) [m])
      as (a & E & _ & F).
    exists m, a. split; [exact E|]. split; [reflexivity|].
    apply find_elem in Ef. destruct Ef as [_ Em]. apply String.eqb_eq in Em.
    split; [exact Em|].
    eapply Forall_impl; [exact F|]. intros t Ht. cbn [isCurrent] in Ht.
    apply String.eqb_neq in Ht. congruence.
  - exfalso. apply list_elem_of_In in Hs.
    pose proof (find_none _ _ Ef s Hs) as Hn. cbn in Hn.
    apply String.eqb_neq in Hn. contradiction.
Qed.

Lemma select_all (config : ZoomConfig) (cur : option StationMarker)
    (sorted : list StationMarker) :
  maxStations config = None -> minDistance config = 0%Q ->
  forall filtered,
    select config cur sorted filtered
    = filtered ++ List.filter (fun s => negb (isCurrent cur s)) sorted.
Proof.
  intros Hm Hd. induction sorted as [|s rest IH]; intros filtered; cbn [select List.filter].
  - symmetry. apply app_nil_r.
  - destruct (isCurrent cur s) eqn:Ec; cbn [negb]; [apply IH|].
    unfold full. rewrite Hm.
    assert (Ht : tooClose config s filtered = false).
    { unfold tooClose. rewrite Hd. apply not_true_is_false. intros H.
      apply existsb_exists in H. destruct H as (x & _ & H).
      unfold calculateDistance, root_lt in H. cbn in H. discriminate H. }
    rewrite Ht. cbn [negb]. rewrite IH, <- app_assoc. reflexivity.
Qed.

Lemma getZoomConfig_close (altitude : Q) :
  (altitude <= 1 # 2)%Q ->
  maxStations (getZoomConfig altitude) = None
  /\ minDistance (getZoomConfig altitude) = 0%Q.
Proof.
  intros H. unfold getZoomConfig.
  assert (G : forall b, (1 # 2 <= b)%Q -> Qgtb altitude b = false).
  { intros b Hb. unfold Qgtb. apply negb_false_iff, Qle_bool_iff.
    eapply Qle_trans; eassumption. }
  rewrite !G; [split; reflexivity | ..]; unfold Qle; cbn; lia.
Qed.

Lemma filter_by_key (l : list StationMarker) (m : StationMarker) :
  NoDup (map uuid l) -> m ∈ l ->
  m :: List.filter (fun s => negb (String.eqb (uuid s) (uuid m))) l ≡ₚ l.
Proof.
  induction l as [|x l IH]; intros Hn Hm; [apply elem_of_nil in Hm; destruct Hm|].
  cbn [map] in Hn. apply NoDup_cons in Hn. destruct Hn as [Hx Hn].
  cbn [List.filter]. apply elem_of_cons in Hm. destruct Hm as [->|Hm].
  - rewrite String.eqb_refl. cbn [negb]. apply perm_skip.
    assert (E : List.filter (fun s => negb (String.eqb (uuid s) (uuid x))) l = l).
    { clear IH Hn. induction l as [|y l IH]; [reflexivity|].
      cbn [List.filter]. cbn [map] in Hx. apply not_elem_of_cons in Hx. destruct Hx as [H1 H2].
      destruct (String.eqb_spec (uuid y) (uuid x)) as [E|_]; [congruence|].
      cbn [negb]. f_equal. apply IH. exact H2. }
    rewrite E. reflexivity.
  - destruct (String.eqb_spec (uuid x) (uuid m)) as [E|_].
    + exfalso. apply Hx. rewrite E. apply list_elem_of_fmap_2. exact Hm.
    + cbn [negb]. etransitivity; [apply perm_swap|]. apply perm_skip. apply IH; assumption.
Qed.

Lemma filter_perm (f : StationMarker -> bool) (l l' : list StationMarker) :
  l ≡ₚ l' -> List.filter f l ≡ₚ List.filter f l'.
Proof.
  induction 1 as [|x l l' _ IH|x y l|l1 l2 l3 _ IH1 _ IH2]; cbn [List.filter].
  - reflexivity.
  - destruct (f x); [apply perm_skip|]; exact IH.
  - destruct (f x), (f y); try reflexivity. apply perm_swap.
  - etransitivity; eassumption.
Qed.

(** X22: up to an altitude of 0.5 nothing is filtered out: with no uuid
    twice in the list, the markers shown are the stations of the list. *)
Theorem close_zoom_shows_all (currentStation : option RadioStation)
    (allStations : list StationMarker) (altitude : Q) :
  (altitude <= 1 # 2)%Q ->
  NoDup (map uuid allStations) ->
  filterStationsByZoom currentStation allStations altitude ≡ₚ allStations.
Proof.
  intros Ha Hn. unfold filterStationsByZoom.
  destruct (Nat.eqb_spec (length allStations) 0) as [E|_].
  { destruct allStations; [reflexivity | discriminate E]. }
  destruct (getZoomConfig_close altitude Ha) as [Hm Hd].
  rewrite select_all by assumption.
  destruct (match currentStation with
            | Some c => find (fun s => String.eqb (uuid s) (stationuuid c)) allStations
            | None => None
            end) as [m|] eqn:Ec.
  - destruct currentStation as [c|]; [|discriminate Ec].
    apply find_elem in Ec. destruct Ec as [Hin _].
    cbn [app isCurrent].
    rewrite (filter_perm _ _ _ (sortByVotes_perm allStations)).
    apply filter_by_key; assumption.
  - cbn [app isCurrent negb].
    assert (F : forall l : list StationMarker, List.filter (fun _ => true) l = l).
    { induction l as [|x l IH]; [reflexivity|]. cbn [List.filter]. f_equal. exact IH. }
    rewrite F. apply sortByVotes_perm.
Qed.

Lemma insertByVotes_head (x : StationMarker) (l : list StationMarker) :
  exists top rest,
    insertByVotes x l = top :: rest
    /\ votes x <= votes top
    /\ (forall y, head l = Some y -> votes y <= votes top).
Proof.
  destruct l as [|y l]; cbn [insertByVotes head].
  - exists x, []. split; [reflexivity|]. split; [lia | discriminate].
  - destruct (Z.leb_spec (votes y) (votes x)).
    + exists x, (y :: l). split; [reflexivity|]. split; [lia|].
      intros z Hz. injection Hz as <-. lia.
    + exists y, (insertByVotes x l). split; [reflexivity|]. split; [lia|].
      intros z Hz. injection Hz as <-. lia.
Qed.

Lemma sortByVotes_head (l : list StationMarker) :
  l <> [] ->
  exists top rest,
    sortByVotes l = top :: rest /\ forall s, s ∈ l -> votes s <= votes top.
Proof.
  induction l as [|x l IH]; intros Hl; [contradiction|]. cbn [sortByVotes].
  destruct (insertByVotes_head x (sortByVotes l)) as (top & rest & E & H1 & H2).
  exists top, rest. split; [exact E|].
  intros s Hs. apply elem_of_cons in Hs. destruct Hs as [->|Hs]; [exact H1|].
  destruct l as [|y l']; [apply elem_of_nil in Hs; destruct Hs|].
  destruct IH as (t & r & Et & Ht); [discriminate|].
  specialize (H2 t). rewrite Et in H2. specialize (H2 eq_refl).
  specialize (Ht s Hs). lia.
Qed.

(** X23: with no current station the first marker shown is a station
    with the most votes of the list, at every zoom level. *)
Theorem most_voted_shown_first (allStations : list StationMarker) (altitude : Q) :
  allStations <> [] ->
  exists top others,
    filterStationsByZoom None allStations altitude = top :: others
    /\ top ∈ allStations
    /\ forall s, s ∈ allStations -> votes s <= votes top.
Proof.
  intros Hl. unfold filterStationsByZoom.
  destruct (Nat.eqb_spec (length allStations) 0) as [E|_].
  { destruct allStations; [contradiction | discriminate E]. }
  destruct (sortByVotes_head allStations Hl) as (top & rest & Es & Ht).
  rewrite Es. cbn [select isCurrent].
  assert (Hf : full (getZoomConfig altitude) [] = false).
  { unfold full. destruct (maxStations (getZoomConfig altitude)) as [m|] eqn:Em;
      [|reflexivity].
    apply getZoomConfig_max in Em. apply Nat.leb_gt. cbn. lia. }
  rewrite Hf. cbn [tooClose existsb negb app].
  destruct (select_extends (getZoomConfig altitude) None rest [top]) as (a & E & _ & _).
  exists top, a. split; [exact E|]. split; [|exact Ht].
  rewrite <- (sortByVotes_perm allStations), Es. apply list_elem_of_here.
Qed.

Lemma current_station_shown_first_witness :
  exists others,
    filterStationsByZoom (Some (station (marker "berlin-2" 40 (526 # 10) (133 # 10))))
      sample_markers (25 # 10)
    = marker "berlin-2" 40 (526 # 10) (133 # 10) :: others
    /\ Forall (fun t => uuid t <> "berlin-2"%string) others.
Proof.
  destruct (current_station_shown_first
              (station (marker "berlin-2" 40 (526 # 10) (133 # 10)))
              sample_markers (25 # 10) (marker "berlin-2" 40 (526 # 10) (133 # 10)))
    as (m & others & E & F & _ & H).
  { do 2 apply list_elem_of_further. apply list_elem_of_here. }
  { reflexivity. }
  injection F as <-. exists others. split; [exact E | exact H].
Defined.

Lemma close_zoom_shows_all_witness :
  length (filterStationsByZoom None sample_markers (4 # 10)) = 4%nat
  /\ length (filterStationsByZoom None sample_markers (25 # 10)) = 3%nat.
Proof.
  split; [|vm_compute; reflexivity].
  assert (Ha : (4 # 10 <= 1 # 2)%Q) by (unfold Qle; cbn; lia).
  assert (Hn : NoDup (map uuid sample_markers)).
  { cbn. repeat (apply NoDup_cons; split;
                 [rewrite ?not_elem_of_cons; repeat split; try discriminate;
                  apply not_elem_of_nil|]).
    apply NoDup_nil. exact I. }
  rewrite (close_zoom_shows_all None sample_markers (4 # 10) Ha Hn). reflexivity.
Defined.

Lemma most_voted_shown_first_witness :
  exists others,
    filterStationsByZoom None sample_markers (25 # 10)
    = marker "paris" 900 (489 # 10) (23 # 10) :: others.
Proof.
  destruct (most_voted_shown_first sample_markers (25 # 10)) as (top & others & E & Ht & Hv).
  { discriminate. }
  exists others. rewrite E. f_equal.
  assert (E' : head (filterStationsByZoom None sample_markers (25 # 10))
               = Some (marker "paris" 900 (489 # 10) (23 # 10)))
    by (vm_compute; reflexivity).
  rewrite E in E'. injection E' as ->. reflexivity.
Defined.

Lemma Qgtb_spec (a b : Q) : reflect (b < a)%Q (Qgtb a b).
Proof.
  unfold Qgtb. destruct (Qle_bool a b) eqn:E; cbn [negb]; constructor.
  - apply Qle_bool_iff in E. apply Qle_not_lt. exact E.
  - apply Qnot_le_lt. intros F. apply Qle_bool_iff in F. congruence.
Qed.

Lemma scaleFactor_bounds (a : Q) :
  (0 <= a)%Q -> (1 # 100 <= scaleFactor a)%Q /\ (scaleFactor a <= 3 # 2)%Q.
Proof.
  intros H. unfold scaleFactor.
  repeat match goal with
  | |- context [Qgtb ?x ?y] => destruct (Qgtb_spec x y)
  end; split; lra.
Qed.

(** X24: for an altitude that is not negative the radius of a marker is
    above 0, the marker of the current station is larger than any other,
    and no marker has a radius above 0.33. *)
Theorem pointRadius_positive (c : RadioStation) (altitude : Q) (d d' : StationMarker) :
  (0 <= altitude)%Q ->
  uuid d = stationuuid c -> uuid d' <> stationuuid c ->
  (0 < pointRadius (Some c) altitude d')%Q
  /\ (pointRadius (Some c) altitude d' < pointRadius (Some c) altitude d)%Q
  /\ (pointRadius (Some c) altitude d <= 33 # 100)%Q.
Proof.
  intros Ha Hd Hd'. unfold pointRadius.
  destruct (scaleFactor_bounds altitude Ha) as [H1 H2].
  apply String.eqb_eq in Hd. apply String.eqb_neq in Hd'. rewrite Hd, Hd'.
  set (f := scaleFactor altitude) in *. repeat split; lra.
Qed.

Lemma pointRadius_positive_witness :
  (0 < pointRadius (Some (station (marker "paris" 900 (489 # 10) (23 # 10)))) (1 # 10)
         (marker "tokyo" 500 (357 # 10) (1397 # 10)))%Q.
Proof.
  refine (proj1 (pointRadius_positive
                   (station (marker "paris" 900 (489 # 10) (23 # 10))) (1 # 10)
                   (marker "paris" 900 (489 # 10) (23 # 10))
                   (marker "tokyo" 500 (357 # 10) (1397 # 10)) _ eq_refl _)).
  - unfold Qle; cbn; lia.
  - discriminate.
Defined.

End GlobeFacts.

(** * The favourites *)

Module MenuFacts.
Import SideMenu.

Lemma has_spec (key : string) (s : StringSet) : has key s = true <-> key ∈ s.
Proof.
  unfold has. rewrite existsb_exists. split.
  - intros (x & Hx & E). apply String.eqb_eq in E. subst x.
    apply list_elem_of_In. exact Hx.
  - intros H. exists key. split; [apply list_elem_of_In; exact H | apply String.eqb_refl].
Qed.

Lemma remove_spec (key k : string) (s : StringSet) :
  k ∈ remove key s <-> k ∈ s /\ k <> key.
Proof.
  unfold remove. rewrite list_elem_of_In, filter_In, <- list_elem_of_In.
  rewrite negb_true_iff, String.eqb_neq. reflexivity.
Qed.

Lemma NoDup_remove (key : string) (s : StringSet) : NoDup s -> NoDup (remove key s).
Proof.
  intros H. apply NoDup_ListNoDup. apply List.NoDup_filter. apply NoDup_ListNoDup. exact H.
Qed.

Lemma remove_absent (key : string) (s : StringSet) : key ∉ s -> remove key s = s.
Proof.
  induction s as [|x s IH]; intros H; [reflexivity|].
  apply not_elem_of_cons in H. destruct H as [H1 H2].
  unfold remove. cbn [List.filter].
  destruct (String.eqb_spec x key) as [E|_]; [congruence|].
  cbn [negb]. f_equal. apply IH. exact H2.
Qed.

Lemma remove_app (key : string) (s t : StringSet) :
  remove key (s ++ t) = remove key s ++ remove key t.
Proof. apply List.filter_app. Qed.

Lemma remove_present (key : string) (s : StringSet) :
  NoDup s -> key ∈ s -> remove key s ++ [key] ≡ₚ s.
Proof.
  induction s as [|x s IH]; intros Hn Hk; [apply elem_of_nil in Hk; destruct Hk|].
  apply NoDup_cons in Hn. destruct Hn as [Hx Hn].
  unfold remove. cbn [List.filter].
  destruct (String.eqb_spec x key) as [->|Hne]; cbn [negb].
  - fold (remove key s). rewrite remove_absent by exact Hx.
    symmetry. apply Permutation_cons_append.
  - apply elem_of_cons in Hk. destruct Hk as [->|Hk]; [contradiction|].
    cbn [app]. apply perm_skip. apply IH; assumption.
Qed.

Lemma fromArray_NoDup (l : list string) : NoDup l -> fromArray l = l.
Proof.
  unfold fromArray.
  assert (G : forall acc, NoDup (acc ++ l) -> fold_left (fun s k => add k s) l acc = acc ++ l).
  { induction l as [|x l IH]; intros acc H; cbn [fold_left].
    - symmetry. apply app_nil_r.
    - assert (Hx : has x acc = false).
      { apply not_true_is_false. rewrite has_spec. intros F.
        apply NoDup_app in H. destruct H as (_ & H & _). apply (H x F).
        apply list_elem_of_here. }
      unfold add. rewrite Hx. rewrite IH; rewrite <- app_assoc; [reflexivity | exact H]. }
  intros H. apply (G []). exact H.
Qed.

(** X25: [toggleFavorite] on a set without duplicates gives a set without
    duplicates in which the station is a member exactly when it was not
    before and every other key is as it was; the array it stores holds the
    new set, and a [Set] built from that array is the set again.  Toggling
    twice gives back the same members (the station may have moved to the
    end of the order). *)
Theorem toggleFavorite_flips (station : RadioStation) (prev : StringSet) :
  NoDup prev ->
  let favorites := fst (toggleFavorite station prev) in
  let stored := snd (toggleFavorite station prev) in
  stored = favorites
  /\ NoDup favorites
  /\ has (stationuuid station) favorites = negb (has (stationuuid station) prev)
  /\ (forall k, k <> stationuuid station -> (k ∈ favorites <-> k ∈ prev))
  /\ fst (toggleFavorite station favorites) ≡ₚ prev
  /\ fromArray stored = favorites.
Proof.
  intros Hn favorites stored. subst favorites stored.
  unfold toggleFavorite. cbn [fst snd]. split; [reflexivity|].
  set (key := stationuuid station).
  assert (H : NoDup (toggle key prev)
              /\ has key (toggle key prev) = negb (has key prev)
              /\ (forall k, k <> key -> (k ∈ toggle key prev <-> k ∈ prev))
              /\ toggle key (toggle key prev) ≡ₚ prev).
  { unfold toggle. destruct (has key prev) eqn:E; cbn [negb].
    - apply has_spec in E.
      assert (F : has key (remove key prev) = false).
      { apply not_true_is_false. rewrite has_spec, remove_spec. tauto. }
      split; [apply NoDup_remove; exact Hn|]. split; [exact F|]. split.
      + intros k Hk. rewrite remove_spec. tauto.
      + rewrite F. unfold add. rewrite F. apply remove_present; assumption.
    - assert (Hk : key ∉ prev).
      { intros F. apply has_spec in F. congruence. }
      unfold add. rewrite E.
      assert (F : has key (prev ++ [key]) = true).
      { apply has_spec, elem_of_app. right. apply list_elem_of_here. }
      split.
      { apply NoDup_app. split; [exact Hn|]. split; [|apply NoDup_singleton].
        intros x Hx Hx'. apply list_elem_of_singleton in Hx'. subst x. contradiction. }
      split; [exact F|]. split.
      + intros k Hne. rewrite elem_of_app, list_elem_of_singleton. tauto.
      + rewrite F, remove_app, remove_absent by exact Hk.
        unfold remove. cbn [List.filter]. rewrite String.eqb_refl. cbn [negb].
        rewrite app_nil_r. reflexivity. }
  destruct H as (H1 & H2 & H3 & H4).
  split; [exact H1|]. split; [exact H2|]. split; [exact H3|]. split; [exact H4|].
  apply fromArray_NoDup. exact H1.
Qed.

Lemma toggleFavorite_flips_witness :
  fst (toggleFavorite useAudioPlayer.stationA ["b"; "a"; "c"]%string) = ["b"; "c"]%string
  /\ fst (toggleFavorite useAudioPlayer.stationA ["b"; "c"]%string) ≡ₚ ["b"; "a"; "c"]%string.
Proof.
  split; [reflexivity|].
  refine (proj1 (proj2 (proj2 (proj2 (proj2
            (toggleFavorite_flips useAudioPlayer.stationA ["b"; "a"; "c"]%string _)))))).
  repeat (apply NoDup_cons; split;
          [rewrite ?not_elem_of_cons; repeat split; try discriminate;
           apply not_elem_of_nil|]).
  apply NoDup_nil. exact I.
Defined.

End MenuFacts.
